(** * unbook core: schema synchronisation and record mapping

    A shallow embedding of the pure core of [packages/core/src/utils]:
    [diffSchema], [applySchemaChanges], [toPropertyDefinition],
    [toPropertiesDefinition], [restoreExpression], [buildExpression],
    [dehydrateValue], [dehydrate], [hydrateValue], [hydrate] and
    [buildUpsertFilter], with the properties the specification states
    about them and further properties of the code.

    Conventions of the embedding.
    - A JavaScript string is a [string]; the empty string is the only
      falsy one.  An optional property ([id?: string]) is an
      [option string]; [if (x.id)] is the test [truthy].
    - A [Schema.Definition] is a plain object: an association list of its
      own properties in the order [Object.keys] lists them, with pairwise
      distinct keys.  Its prototype is [Object.prototype], so [schema[key]]
      reads an inherited member where the object has no property of its
      own ([member]).
    - An object the code builds with [result[key] = value] is the [gmap]
      of its own properties; the key [__proto__] is the accessor of the
      prototype and creates none ([put]).
    - A JavaScript [Map] or [Set] with string keys is a [gmap] or [gset]:
      only [get], [set], [has] and [add] are used on them.
    - A [throw] is the [Err] branch of a [result]. *)

From Stdlib Require Import String Ascii.
From stdpp Require Import base option list gmap strings pretty.

Local Open Scope string_scope.
Local Open Scope list_scope.

(** ** JavaScript conventions *)

(** [if (s)] on a string: every string but the empty one is truthy. *)
Definition truthy_string (s : string) : bool :=
  match s with
  | EmptyString => false
  | String _ _ => true
  end.

(** [if (x)] on an optional string: the value when it is truthy. *)
Definition truthy (o : option string) : option string :=
  match o with
  | Some s => if truthy_string s then Some s else None
  | None => None
  end.

(** [a ?? b] on optional values. *)
Definition nullish {A : Type} (a : option A) (b : option A) : option A :=
  match a with
  | Some x => Some x
  | None => b
  end.

(** The first alternative that yields a value (a chain of early returns). *)
Definition or_else {A : Type} (a b : option A) : option A :=
  match a with
  | Some x => Some x
  | None => b
  end.

(** A thrown [Error] carries its message. *)
Inductive result (A : Type) : Type :=
  | Ok (a : A)
  | Err (message : string).
Arguments Ok {A} a.
Arguments Err {A} message.

(** A loop whose body may throw: the first error ends it. *)
Fixpoint for_each {A S : Type} (body : S → A → result S) (l : list A)
    (s : S) : result S :=
  match l with
  | [] => Ok s
  | a :: rest =>
      match body s a with
      | Err e => Err e
      | Ok s' => for_each body rest s'
      end
  end.

(** *** Plain objects *)

(** The names of the properties of [Object.prototype], which every plain
    object inherits.  Each is a function, but [__proto__]: the accessor
    that reads and sets the prototype of the object. *)
Definition object_prototype : list string :=
  ["constructor"; "__defineGetter__"; "__defineSetter__"; "hasOwnProperty";
   "__lookupGetter__"; "__lookupSetter__"; "isPrototypeOf";
   "propertyIsEnumerable"; "toString"; "valueOf"; "__proto__";
   "toLocaleString"].

(** What [object[key]] reads on a plain object: the property of its own,
    else the member of [Object.prototype] of that name (a function, or
    for [__proto__] the prototype itself: truthy, and without any of the
    properties the code reads off it), else [undefined]. *)
Inductive Member (A : Type) : Type :=
  | Own (a : A)
  | Inherited
  | Missing.
Arguments Own {A} a.
Arguments Inherited {A}.
Arguments Missing {A}.

Definition member {A : Type} (own : option A) (key : string) : Member A :=
  match own with
  | Some a => Own a
  | None =>
      if bool_decide (key ∈ object_prototype) then Inherited else Missing
  end.

(** [object[key] = v] on an object that inherits from [Object.prototype],
    [v] being an object.  Under the key [__proto__] the assignment goes to
    the accessor: it makes [v] the prototype of [object] and creates no
    property. *)
Definition put {V : Type} (key : string) (v : V) (object : gmap string V)
    : gmap string V :=
  if String.eqb key "__proto__" then object else <[key := v]> object.

(** [object[key] = null], the object carried with a flag that tells
    whether its prototype has been set to [null].  The first assignment
    under [__proto__] does that and creates no property; from then on the
    object inherits no accessor and [__proto__] is a key like any
    other. *)
Definition put_null {V : Type} (key : string)
    (object : gmap string (option V) * bool) : gmap string (option V) * bool :=
  if String.eqb key "__proto__" && negb object.2
  then (object.1, true)
  else (<[key := None]> object.1, object.2).

(** ** Schema model ([types/schema.ts]) *)

Module Schema.

(** The [type] discriminator of a field. *)
Inductive FieldType : Type :=
  | T_title | T_rich_text | T_number | T_select | T_multi_select | T_status
  | T_date | T_people | T_files | T_checkbox | T_url | T_email
  | T_phone_number | T_formula | T_relation | T_rollup | T_created_time
  | T_created_by | T_last_edited_time | T_last_edited_by | T_unique_id.

#[global] Instance FieldType_eq_dec : EqDecision FieldType.
Proof. solve_decision. Defined.

(** The discriminator as the string the source compares and prints. *)
Definition type_name (t : FieldType) : string :=
  match t with
  | T_title => "title" | T_rich_text => "rich_text" | T_number => "number"
  | T_select => "select" | T_multi_select => "multi_select"
  | T_status => "status" | T_date => "date" | T_people => "people"
  | T_files => "files" | T_checkbox => "checkbox" | T_url => "url"
  | T_email => "email" | T_phone_number => "phone_number"
  | T_formula => "formula" | T_relation => "relation" | T_rollup => "rollup"
  | T_created_time => "created_time" | T_created_by => "created_by"
  | T_last_edited_time => "last_edited_time"
  | T_last_edited_by => "last_edited_by" | T_unique_id => "unique_id"
  end.

(** [SelectOptionObject]: every property is optional. *)
Record SelectOptionObject : Type := {
  so_id : option string;
  so_label : option string;
  so_color : option string;
}.

(** One entry of the record form of [SelectOptions]. *)
Inductive SelectOptionEntry : Type :=
  | OptString (name : string)
  | OptObject (o : SelectOptionObject).

(** [SelectOptions = Record<T, SelectOptionObject | string> | T[]]. *)
Inductive SelectOptions : Type :=
  | OptArray (names : list string)
  | OptRecord (entries : list (string * SelectOptionEntry)).

Record StatusGroup : Type := {
  sg_id : option string;
  sg_label : string;
  sg_color : string;
  sg_options : SelectOptions;
}.

(** [StatusOptions = Record<U, StatusGroup>], in iteration order. *)
Definition StatusOptions : Type := list (string * StatusGroup).

(** The relation mode of a relation field. *)
Inductive RelationMode : Type :=
  | SingleProperty
  | DualProperty (synced_property_id synced_property_name : string).

(** What a field carries besides [label] and [id], by [type]. *)
Inductive FieldKind : Type :=
  | Title
  | RichText
  | Number (format : option string)
  | Select (options : option SelectOptions)
  | MultiSelect (options : option SelectOptions)
  | Status (groups : option StatusOptions)
  | Date
  | People
  | Files
  | Checkbox
  | Url
  | Email
  | PhoneNumber
  | Formula (expression : string)
  | Relation (data_source_id : string) (mode : RelationMode)
  | Rollup (relation_property rollup_property function : string)
  | CreatedTime
  | CreatedBy
  | LastEditedTime
  | LastEditedBy
  | UniqueId (prefix : option string).

Record Field : Type := {
  label : string;
  fid : option string;      (* the optional [id] *)
  kind : FieldKind;
}.

(** [field.type]. *)
Definition ftype (f : Field) : FieldType :=
  match kind f with
  | Title => T_title | RichText => T_rich_text | Number _ => T_number
  | Select _ => T_select | MultiSelect _ => T_multi_select
  | Status _ => T_status | Date => T_date | People => T_people
  | Files => T_files | Checkbox => T_checkbox | Url => T_url
  | Email => T_email | PhoneNumber => T_phone_number
  | Formula _ => T_formula | Relation _ _ => T_relation
  | Rollup _ _ _ => T_rollup | CreatedTime => T_created_time
  | CreatedBy => T_created_by | LastEditedTime => T_last_edited_time
  | LastEditedBy => T_last_edited_by | UniqueId _ => T_unique_id
  end.

(** [Schema.Definition = Record<string, Field>], in iteration order. *)
Abbreviation Definition_ := (list (string * Field)) (only parsing).

(** The property of its own that [schema] holds under [key]. *)
Fixpoint get (schema : Definition_) (key : string) : option Field :=
  match schema with
  | [] => None
  | (k, f) :: rest => if String.eqb k key then Some f else get rest key
  end.

(** [Schema.Diff.Modified]. *)
Record Modified : Type := {
  m_key : string;
  m_fromKey : option string;
  m_id : option string;
  m_from : Field;
  m_to : Field;
  m_changes : list string;
}.

(** [Schema.Diff]. *)
Inductive Diff : Type :=
  | DAdded (key : string) (field : Field)
  | DRemoved (key : string) (field : Field)
  | DModified (m : Modified).

End Schema.
Import Schema.

(** ** diffSchema ([utils/diffSchema.ts]) *)

(** Types that can only appear once per schema. *)
Definition SINGLETON_TYPES : gset string := {[ "title" ]}.

(** The four lookup maps built from [from]. *)
Record Lookups : Type := {
  fromById : gmap string (string * Field);
  fromByKey : gmap string Field;
  fromByLabel : gmap string (string * Field);
  fromByType : gmap string (string * Field);
}.

Definition no_lookups : Lookups :=
  {| fromById := ∅; fromByKey := ∅; fromByLabel := ∅; fromByType := ∅ |}.

(** One iteration of the loop that fills the lookup maps. *)
Definition add_lookup (ix : Lookups) (entry : string * Field) : Lookups :=
  let '(key, field) := entry in
  {| fromByKey := <[key := field]> (fromByKey ix);
     fromById :=
       match truthy (fid field) with
       | Some i => <[i := (key, field)]> (fromById ix)
       | None => fromById ix
       end;
     fromByLabel := <[label field := (key, field)]> (fromByLabel ix);
     fromByType :=
       if bool_decide (type_name (ftype field) ∈ SINGLETON_TYPES)
       then <[type_name (ftype field) := (key, field)]> (fromByType ix)
       else fromByType ix |}.

Definition build_lookups (from : Definition_) : Lookups :=
  fold_left add_lookup from no_lookups.

(** [match && !processedFromKeys.has(match[0])]. *)
Definition unprocessed (processedFromKeys : gset string)
    (m : option (string * Field)) : option (string * Field) :=
  match m with
  | Some (k, f) =>
      if bool_decide (k ∈ processedFromKeys) then None else Some (k, f)
  | None => None
  end.

(** [findMatch(toKey, toField)]: the matched [key, field] of [from]. *)
Definition findMatch (ix : Lookups) (processedFromKeys : gset string)
    (toKey : string) (toField : Field) : option (string * Field) :=
  (* Priority 1: match by ID. *)
  or_else
    (match truthy (fid toField) with
     | Some i => unprocessed processedFromKeys (fromById ix !! i)
     | None => None
     end)
  (* Priority 2: match by key. *)
  (or_else
    (unprocessed processedFromKeys
       ((λ byKey, (toKey, byKey)) <$> fromByKey ix !! toKey))
  (* Priority 3: match by label. *)
  (or_else
    (unprocessed processedFromKeys (fromByLabel ix !! label toField))
  (* Priority 4: match by singleton type. *)
    (if bool_decide (type_name (ftype toField) ∈ SINGLETON_TYPES)
     then unprocessed processedFromKeys
            (fromByType ix !! type_name (ftype toField))
     else None))).

(** The [changes] computed between two matched fields. *)
Definition compute_changes (fromKey : string) (fromField : Field)
    (toKey : string) (toField : Field) : list string :=
  (if bool_decide (fromKey ≠ toKey) then ["key"] else [])
  ++ (if bool_decide (label fromField ≠ label toField) then ["label"] else [])
  ++ (if bool_decide (ftype fromField ≠ ftype toField) then ["type"] else []).

(** The diff pushed for a matched pair: none when nothing changed. *)
Definition modified_entry (fromKey : string) (fromField : Field)
    (toKey : string) (toField : Field) : list Diff :=
  let changes := compute_changes fromKey fromField toKey toField in
  if bool_decide (0 < length changes) then
    [DModified
       {| m_key := toKey; m_from := fromField; m_to := toField;
          m_changes := changes;
          m_id := truthy (fid fromField);
          m_fromKey :=
            if bool_decide (fromKey ≠ toKey) then Some fromKey else None |}]
  else [].

(** The state the main loop threads: the diffs pushed so far and the
    keys of [from] already consumed by a match. *)
Record DiffState : Type := {
  diffs : list Diff;
  processedFromKeys : gset string;
}.

(** One iteration of the loop over [Object.entries(to)]. *)
Definition diff_step (ix : Lookups) (st : DiffState)
    (entry : string * Field) : DiffState :=
  let '(toKey, toField) := entry in
  match findMatch ix (processedFromKeys st) toKey toField with
  | None =>
      {| diffs := diffs st ++ [DAdded toKey toField];
         processedFromKeys := processedFromKeys st |}
  | Some (fromKey, fromField) =>
      {| diffs := diffs st ++ modified_entry fromKey fromField toKey toField;
         processedFromKeys := {[ fromKey ]} ∪ processedFromKeys st |}
  end.

(** The closing loop: every entry of [from] that no match consumed. *)
Definition removed_entries (processed : gset string)
    (from : Definition_) : list Diff :=
  flat_map
    (λ '(key, field),
       if bool_decide (key ∈ processed) then [] else [DRemoved key field])
    from.

Definition diffSchema (from to : Definition_) : list Diff :=
  let ix := build_lookups from in
  let st :=
    fold_left (diff_step ix) to {| diffs := []; processedFromKeys := ∅ |} in
  diffs st ++ removed_entries (processedFromKeys st) from.

(** *** The matching as the specification words it

    The specification describes the matching without lookup maps: a [to]
    field is matched with an unconsumed [from] field that shares its id,
    else with one at the same key, else with one of the same label, else
    (for a singleton type) with one of that type.  [spec_diffSchema]
    follows these words, searching [from] itself. *)

(** The first entry of a schema that satisfies [P]. *)
Fixpoint first_where (P : string * Field → bool)
    (schema : Definition_) : option (string * Field) :=
  match schema with
  | [] => None
  | e :: rest => if P e then Some e else first_where P rest
  end.

(** An unconsumed entry of [from] that satisfies [P]. *)
Definition an_unconsumed (P : string → Field → bool)
    (consumed : list string) (from : Definition_) : option (string * Field) :=
  first_where (λ e, P e.1 e.2 && negb (bool_decide (e.1 ∈ consumed))) from.

Definition is_singleton (f : Field) : bool :=
  bool_decide (type_name (ftype f) ∈ SINGLETON_TYPES).

Definition spec_match (from : Definition_) (consumed : list string)
    (toKey : string) (toField : Field) : option (string * Field) :=
  or_else
    (* 1. by ID *)
    (match truthy (fid toField) with
     | Some _ =>
         an_unconsumed (λ _ f, bool_decide (fid f = fid toField)) consumed from
     | None => None
     end)
  (or_else
    (* 2. by key *)
    (an_unconsumed (λ k _, bool_decide (k = toKey)) consumed from)
  (or_else
    (* 3. by label *)
    (an_unconsumed (λ _ f, bool_decide (label f = label toField))
       consumed from)
    (* 4. by singleton type *)
    (if is_singleton toField
     then an_unconsumed (λ _ f, bool_decide (ftype f = ftype toField))
            consumed from
     else None))).

(** The [to] fields in order: the diffs emitted for them and the keys of
    [from] consumed on the way. *)
Fixpoint spec_matching (from : Definition_) (consumed : list string)
    (to : Definition_) : list Diff * list string :=
  match to with
  | [] => ([], consumed)
  | (toKey, toField) :: rest =>
      match spec_match from consumed toKey toField with
      | None =>
          let '(ds, c) := spec_matching from consumed rest in
          (DAdded toKey toField :: ds, c)
      | Some (fromKey, fromField) =>
          let '(ds, c) := spec_matching from (fromKey :: consumed) rest in
          (modified_entry fromKey fromField toKey toField ++ ds, c)
      end
  end.

Definition spec_removed (consumed : list string)
    (from : Definition_) : list Diff :=
  (λ e, DRemoved e.1 e.2)
    <$> filter (λ e, e.1 ∉ consumed) from.

Definition spec_diffSchema (from to : Definition_) : list Diff :=
  let '(ds, consumed) := spec_matching from [] to in
  ds ++ spec_removed consumed from.

(** The truthy ids, the labels and the singleton types met in a schema. *)
Definition ids_of (schema : Definition_) : list string :=
  omap (λ e, truthy (fid e.2)) schema.

Definition labels_of (schema : Definition_) : list string :=
  (λ e, label e.2) <$> schema.

Definition singleton_type (f : Field) : option string :=
  if is_singleton f then Some (type_name (ftype f)) else None.

Definition singletons_of (schema : Definition_) : list string :=
  omap (λ e, singleton_type e.2) schema.

(** A schema whose fields can be told apart by each matching criterion:
    pairwise distinct keys (it is an object), ids and labels, and at most
    one field of a singleton type. *)
Definition unambiguous (schema : Definition_) : Prop :=
  NoDup schema.*1 ∧ NoDup (ids_of schema)
  ∧ NoDup (labels_of schema) ∧ NoDup (singletons_of schema).


(** ** Property definitions ([types/property.ts], [utils/toPropertyDefinition.ts]) *)

Module Property.

(** [Property.SelectOption]. *)
Record SelectOption : Type := {
  opt_id : string;
  opt_name : string;
  opt_color : string;
}.

(** The type-specific body of a property definition. *)
Inductive DefinitionBody : Type :=
  | B_empty                                   (* [{}] *)
  | B_options (options : list SelectOption)
  | B_formula (expression : string)
  | B_number (format : string)
  | B_unique_id (prefix : option string)      (* [null] is [None] *)
  | B_relation (data_source_id : string) (mode : RelationMode)
  | B_rollup (relation_property_name relation_property_id
              rollup_property_name rollup_property_id function : string).

(** [Property.DefinitionInput & { name?: string }]. *)
Record DefinitionInput : Type := {
  d_type : FieldType;
  d_id : option string;
  d_name : option string;
  d_body : DefinitionBody;
}.

End Property.
Import Property.

(** [toSelectOptions]: the options of a select field as the API lists
    them. *)
Definition toSelectOptions (selectOptions : option SelectOptions)
    : list SelectOption :=
  match selectOptions with
  | None => []
  | Some (OptArray names) =>
      (λ name, {| opt_id := ""; opt_name := name; opt_color := "default" |})
        <$> names
  | Some (OptRecord entries) =>
      (λ '(key, value),
         match value with
         | OptString name =>
             {| opt_id := ""; opt_name := name; opt_color := "default" |}
         | OptObject o =>
             {| opt_id := "";
                opt_name := default key (so_label o);
                opt_color := default "default" (so_color o) |}
         end) <$> entries
  end.

(** [toPropertyDefinition] on a field.  Every [type] of the closed union
    [Schema.Field] has its branch; the closing [throw] is reached by a
    value that is no field: see [unsupported_field]. *)
Definition toPropertyDefinition (field : Field) : DefinitionInput :=
  let id := fid field in
  let simple body :=
    {| d_type := ftype field; d_id := id; d_name := None; d_body := body |} in
  match kind field with
  | Title | RichText | Date | People | Files | Checkbox | Url | Email
  | PhoneNumber | CreatedTime | CreatedBy | LastEditedTime
  | LastEditedBy => simple B_empty
  | Select options => simple (B_options (toSelectOptions options))
  | MultiSelect options => simple (B_options (toSelectOptions options))
  | Status _ => simple B_empty
  | Formula expression => simple (B_formula expression)
  | Number format => simple (B_number (default "number" format))
  | UniqueId prefix => simple (B_unique_id prefix)
  | Relation data_source_id mode => simple (B_relation data_source_id mode)
  | Rollup relation_property rollup_property function =>
      simple (B_rollup relation_property "" rollup_property "" function)
  end.

(** What [toPropertyDefinition] throws on a member inherited from
    [Object.prototype]: its [type] is [undefined]. *)
Definition unsupported_field : string := "Unsupported field type: undefined".

(** ** applySchemaChanges ([utils/applySchemaChanges.ts]) *)

Inductive ConflictStrategy : Type := merge | overwrite | strict.

(** The update payload: a definition, or [null] ([None]) to delete. *)
Abbreviation Updates := (gmap string (option DefinitionInput)) (only parsing).

(** The diffs separated by type. *)
Record Separated : Type := {
  added : list (string * Field);
  removed : list (string * Field);
  modified : list Modified;
}.

Definition separate_step (acc : Separated) (diff : Diff) : Separated :=
  match diff with
  | DAdded key field =>
      {| added := added acc ++ [(key, field)];
         removed := removed acc; modified := modified acc |}
  | DRemoved key field =>
      {| added := added acc;
         removed := removed acc ++ [(key, field)]; modified := modified acc |}
  | DModified m =>
      {| added := added acc;
         removed := removed acc; modified := modified acc ++ [m] |}
  end.

Definition separate (diffs : list Diff) : Separated :=
  fold_left separate_step diffs
    {| added := []; removed := []; modified := [] |}.

(** One iteration over [added]: create the field [localSchema[diff.key]].
    An inherited member passes [if (field)] and [toPropertyDefinition]
    throws on it. *)
Definition apply_added (localSchema : Definition_) (updates : Updates)
    (diff : string * Field) : result Updates :=
  match member (get localSchema diff.1) diff.1 with
  | Own field =>
      Ok (put (label field) (Some (toPropertyDefinition field)) updates)
  | Inherited => Err unsupported_field
  | Missing => Ok updates
  end.

(** The definition written for a modified field. *)
Definition modified_definition (field : Field) (diff : Modified)
    : DefinitionInput :=
  let definition := toPropertyDefinition field in
  let id := nullish (m_id diff) (fid (m_from diff)) in
  let definition :=
    match truthy id with
    | Some i =>
        {| d_type := d_type definition; d_id := Some i;
           d_name := d_name definition; d_body := d_body definition |}
    | None => definition
    end in
  if bool_decide ("label" ∈ m_changes diff) then
    {| d_type := d_type definition; d_id := d_id definition;
       d_name := Some (label field); d_body := d_body definition |}
  else definition.

(** One iteration over [modified]: update the field, under its old label
    when the label is renamed. *)
Definition apply_modified (localSchema : Definition_) (updates : Updates)
    (diff : Modified) : result Updates :=
  match member (get localSchema (m_key diff)) (m_key diff) with
  | Missing => Ok updates
  | Inherited => Err unsupported_field
  | Own field =>
      let definition := modified_definition field diff in
      if bool_decide ("label" ∈ m_changes diff)
      then Ok (put (label (m_from diff)) (Some definition) updates)
      else Ok (put (label field) (Some definition) updates)
  end.

(** The loop over [removed] under [overwrite]. *)
Definition delete_removed (removed : list (string * Field))
    (updates : Updates) : Updates :=
  (fold_left (λ object d, put_null (label d.2) object) removed
     (updates, false)).1.

Definition applySchemaChanges (localSchema : Definition_)
    (diffs : list Diff) (strategy : ConflictStrategy) : result Updates :=
  let s := separate diffs in
  match for_each (apply_added localSchema) (added s) ∅ with
  | Err e => Err e
  | Ok updates =>
      match for_each (apply_modified localSchema) (modified s) updates with
      | Err e => Err e
      | Ok updates =>
          if bool_decide (0 < length (removed s)) then
            match strategy with
            | strict =>
                let unrecognized := fst <$> removed s in
                if bool_decide (0 < length unrecognized)
                then Err ("Unrecognized remote fields: "
                          +:+ String.concat ", " unrecognized)
                else Ok updates
            | overwrite => Ok (delete_removed (removed s) updates)
            | merge => Ok updates
            end
          else Ok updates
      end
  end.

(** *** The diffs of each type, as lists *)

Definition added_of (diffs : list Diff) : list (string * Field) :=
  omap (λ d, match d with DAdded k f => Some (k, f) | _ => None end) diffs.

Definition removed_of (diffs : list Diff) : list (string * Field) :=
  omap (λ d, match d with DRemoved k f => Some (k, f) | _ => None end) diffs.

Definition modified_of (diffs : list Diff) : list Modified :=
  omap (λ d, match d with DModified m => Some m | _ => None end) diffs.

(** The payload of the added and the modified fields: what the first two
    loops of [applySchemaChanges] write. *)
Definition upserts (localSchema : Definition_) (diffs : list Diff)
    : result Updates :=
  match for_each (apply_added localSchema) (added_of diffs) ∅ with
  | Err e => Err e
  | Ok updates =>
      for_each (apply_modified localSchema) (modified_of diffs) updates
  end.

(** The label under which a modified field is written, if it is. *)
Definition written_label (localSchema : Definition_) (diff : Modified)
    : option string :=
  match get localSchema (m_key diff) with
  | None => None
  | Some field =>
      Some (if bool_decide ("label" ∈ m_changes diff)
            then label (m_from diff) else label field)
  end.

(** The keys the first two loops look up in the local schema. *)
Definition upserted_keys (diffs : list Diff) : list string :=
  (added_of diffs).*1 ++ (m_key <$> modified_of diffs).

(** [schema[key]] reads a field or [undefined]: [key] is a key of the
    schema, or is not the name of a member of [Object.prototype]. *)
Definition reads_field (schema : Definition_) (key : string) : Prop :=
  member (get schema key) key ≠ Inherited.

#[global] Instance reads_field_dec (schema : Definition_) (key : string) :
  Decision (reads_field schema key).
Proof.
  unfold reads_field, member. destruct (get schema key); [by left|].
  destruct (bool_decide _); [right|left]; naive_solver.
Defined.



(** ** restoreExpression ([utils/restoreExpression.ts]) *)

(** The double quote, as a one-character string. *)
Definition dquote : string := String (ascii_of_nat 34) EmptyString.

(** [s] without its literal prefix [p], when it starts with it. *)
Fixpoint strip_prefix (p s : string) : option string :=
  match p, s with
  | EmptyString, _ => Some s
  | String a p', String b s' =>
      if Ascii.eqb a b then strip_prefix p' s' else None
  | String _ _, EmptyString => None
  end.

(** The longest prefix of [s] without the character [stop], and the rest:
    what a greedy negated class [[^stop]*] consumes. *)
Fixpoint span_until (stop : ascii) (s : string) : string * string :=
  match s with
  | EmptyString => (EmptyString, EmptyString)
  | String c rest =>
      if Ascii.eqb c stop then (EmptyString, s)
      else let '(run, tail) := span_until stop rest in (String c run, tail)
  end.

(** A string without the character [stop]. *)
Fixpoint free_of (stop : ascii) (s : string) : bool :=
  match s with
  | EmptyString => true
  | String c rest => negb (Ascii.eqb c stop) && free_of stop rest
  end.

(** One match of [BLOCK_PROPERTY_PATTERN]: the matched text and the two
    groups the callback reads. *)
Record Reference : Type := {
  whole : string;
  encodedPropertyId : string;
  referenceDataSourceId : string;
}.

(** A non-empty greedy run [[^stop]+] followed by the literal [next]. *)
Definition group_then (stop : ascii) (next : string) (s : string)
    : option (string * string) :=
  let '(run, tail) := span_until stop s in
  if truthy_string run
  then (λ rest, (run, rest)) <$> strip_prefix next tail
  else None.

(** [/{{notion:block_property:([^:]+):([^:]+):([^}]+)}}/] anchored at the
    start of [s].  Each group is followed by a character its class
    excludes, so the greedy run is the only way to match. *)
Definition match_reference (s : string) : option Reference :=
  s1 ← strip_prefix "{{notion:block_property:" s;
  '(g1, s2) ← group_then ":" ":" s1;
  '(g2, s3) ← group_then ":" ":" s2;
  '(g3, _) ← group_then "}" "}}" s3;
  Some {| whole := "{{notion:block_property:"
                   +:+ g1 +:+ ":" +:+ g2 +:+ ":" +:+ g3 +:+ "}}";
          encodedPropertyId := g1;
          referenceDataSourceId := g2 |}.

(** The subject of a global replace, cut into the matches of the pattern
    and the characters between them. *)
Inductive Segment : Type :=
  | Lit (c : ascii)
  | Ref (m : Reference).

(** The scan of a global regular expression: leftmost match first, the
    search resuming after it; [skip] counts the characters of the current
    match still to pass. *)
Fixpoint segments_from (skip : nat) (s : string) : list Segment :=
  match s with
  | EmptyString => []
  | String c rest =>
      match skip with
      | S n => segments_from n rest
      | O =>
          match match_reference s with
          | Some m =>
              Ref m :: segments_from (String.length (whole m) - 1) rest
          | None => Lit c :: segments_from 0 rest
          end
      end
  end.

Definition segments (s : string) : list Segment := segments_from 0 s.

(** Concatenation of the pieces of a string. *)
Definition join (pieces : list string) : string :=
  foldr String.append EmptyString pieces.

(** The text a segment stands for. *)
Definition raw (seg : Segment) : string :=
  match seg with
  | Lit c => String c EmptyString
  | Ref m => whole m
  end.

(** [subject.replaceAll(BLOCK_PROPERTY_PATTERN, callback)]. *)
Definition replaceAll (callback : Reference → string) (subject : string)
    : string :=
  join ((λ seg, match seg with
                | Lit c => String c EmptyString
                | Ref m => callback m
                end) <$> segments subject).

(** [`prop("${schemaKey}")`]. *)
Definition prop_call (schemaKey : string) : string :=
  "prop(" +:+ dquote +:+ schemaKey +:+ dquote +:+ ")".

(** *** Expressions as text and references *)

(** The text of a reference to the property [encodedId] of the table
    [table], on the page [page]. *)
Definition reference_text (encodedId table page : string) : string :=
  "{{notion:block_property:" +:+ encodedId +:+ ":" +:+ table +:+ ":"
  +:+ page +:+ "}}".

(** A piece of an expression: text, or a reference. *)
Inductive Piece : Type :=
  | Plain (s : string)
  | Block (encodedId table page : string).

Definition piece_text (p : Piece) : string :=
  match p with
  | Plain s => s
  | Block encodedId table page => reference_text encodedId table page
  end.

(** The expression the pieces spell. *)
Definition spell (pieces : list Piece) : string :=
  join (piece_text <$> pieces).

(** Text in which no reference starts: no two opening braces in a row,
    and none at the end. *)
Fixpoint quiet (s : string) : bool :=
  match s with
  | EmptyString => true
  | String c rest =>
      if Ascii.eqb c "{" then
        match rest with
        | EmptyString => false
        | String c' _ => negb (Ascii.eqb c' "{") && quiet rest
        end
      else quiet rest
  end.

(** The pieces the pattern tells apart: quiet text, and references
    whose property and table IDs are non-empty and without colon, and
    whose page ID is non-empty and without closing brace. *)
Definition well_formed (p : Piece) : Prop :=
  match p with
  | Plain s => quiet s = true
  | Block encodedId table page =>
      encodedId ≠ "" ∧ free_of ":" encodedId = true
      ∧ table ≠ "" ∧ free_of ":" table = true
      ∧ page ≠ "" ∧ free_of "}" page = true
  end.

(** The segments of a piece: its characters, or its one match. *)
Definition piece_segments (p : Piece) : list Segment :=
  match p with
  | Plain s => Lit <$> list_ascii_of_string s
  | Block encodedId table page =>
      [Ref {| whole := reference_text encodedId table page;
              encodedPropertyId := encodedId;
              referenceDataSourceId := table |}]
  end.

Section restoreExpression.
(** The built-in [encodeURIComponent]. *)
Variable encodeURIComponent : string → string.

(** The lookup from URL-encoded property ID to schema key. *)
Definition encodedIdToKey (schema : Definition_) : gmap string string :=
  fold_left
    (λ (m : gmap string string) '(key, field),
       match truthy (fid field) with
       | Some i => <[encodeURIComponent i := key]> m
       | None => m
       end)
    schema ∅.

(** The replace callback. *)
Definition restore_reference (dataSourceId : string)
    (lookup : gmap string string) (m : Reference) : string :=
  if negb (String.eqb (referenceDataSourceId m) dataSourceId) then whole m
  else
    match lookup !! encodedPropertyId m with
    | Some schemaKey =>
        if truthy_string schemaKey then prop_call schemaKey else whole m
    | None => whole m
    end.

Definition restoreExpression (expression dataSourceId : string)
    (schema : Definition_) : string :=
  replaceAll (restore_reference dataSourceId (encodedIdToKey schema))
    expression.

(** *** The rewriting as the specification words it *)

(** The schema fields whose id percent-encodes to [encoded]. *)
Definition fields_encoded (schema : Definition_) (encoded : string)
    : Definition_ :=
  filter (λ e, encodeURIComponent <$> truthy (fid e.2) = Some encoded)
    schema.

(** The local key a reference is rewritten to: the reference names this
    table and a schema field's id encodes to its property ID. *)
Definition known_key (dataSourceId : string) (schema : Definition_)
    (m : Reference) : option string :=
  if bool_decide (referenceDataSourceId m = dataSourceId)
  then fst <$> last (fields_encoded schema (encodedPropertyId m))
  else None.

Definition spec_restore (dataSourceId : string) (schema : Definition_)
    (seg : Segment) : string :=
  match seg with
  | Lit c => String c EmptyString
  | Ref m =>
      match known_key dataSourceId schema m with
      | Some key => prop_call key
      | None => whole m
      end
  end.

(** What a piece of an expression is rewritten to: a reference to this
    table whose property ID is the percent-encoding of the id of a
    schema field becomes the call of that field's local key (of the
    last such field in schema order); any other reference, and the text
    between references, stays as it is. *)
Definition rewritten (dataSourceId : string) (schema : Definition_)
    (p : Piece) : string :=
  match p with
  | Plain s => s
  | Block encodedId table page =>
      if bool_decide (table = dataSourceId) then
        match last (fields_encoded schema encodedId) with
        | Some (key, _) => prop_call key
        | None => reference_text encodedId table page
        end
      else reference_text encodedId table page
  end.
End restoreExpression.

(** [encodeURIComponent] on a string read as UTF-8 bytes: every byte is
    escaped as [%XX] except the unreserved characters
    [A-Z a-z 0-9 - _ . ! ~ * ' ( )]. *)
Definition unreserved (c : ascii) : bool :=
  let n := nat_of_ascii c in
  (Nat.leb 65 n && Nat.leb n 90) || (Nat.leb 97 n && Nat.leb n 122)
  || (Nat.leb 48 n && Nat.leb n 57)
  || bool_decide (n ∈ [45; 95; 46; 33; 126; 42; 39; 40; 41]).

Definition hex_digit (n : nat) : ascii :=
  if Nat.ltb n 10 then ascii_of_nat (48 + n) else ascii_of_nat (55 + n).

Fixpoint percent_encode (s : string) : string :=
  match s with
  | EmptyString => EmptyString
  | String c rest =>
      if unreserved c then String c (percent_encode rest)
      else
        let n := nat_of_ascii c in
        String "%" (String (hex_digit (n / 16))
                      (String (hex_digit (n mod 16)) (percent_encode rest)))
  end.


(** ** Values ([types/text.ts], [types/date.ts], [types/file.ts],
       [types/property.ts]) *)

#[local] Set Warnings "-register-all".

(** [RichText.Annotations]. *)
Record Annotations : Type := {
  bold : bool;
  italic : bool;
  strikethrough : bool;
  underline : bool;
  code : bool;
  color : string;
}.

(** What a rich-text span holds besides the common fields, by [type]. *)
Inductive RichTextContent : Type :=
  | RT_text (content : string) (link : option string)
  | RT_equation (expression : string)
  | RT_mention (mention : string).

(** [RichText]: one span of rich text. *)
Record RichTextSpan : Type := {
  annotations : Annotations;
  plain_text : string;
  href : option string;
  rt_content : RichTextContent;
}.

(** [DateObject]. *)
Record DateObject : Type := {
  start : string;
  end_ : option string;
  time_zone : option string;
}.

(** [FileObject]. *)
Inductive FileObject : Type :=
  | External (url : string)
  | Hosted (url expiry_time : string).

(** [UserReference]. *)
Record UserReference : Type := { user_id : string }.

(** The mdast nodes [toRichText] reads. *)
Inductive PhrasingContent : Type :=
  | MdText (value : string)
  | MdStrong (children : list PhrasingContent)
  | MdEmphasis (children : list PhrasingContent)
  | MdDelete (children : list PhrasingContent)
  | MdInlineCode (value : string)
  | MdLink (url : string) (children : list PhrasingContent)
  | MdOther.

Inductive RootContent : Type :=
  | MdParagraph (children : list PhrasingContent)
  | MdOtherBlock.

Section Codec.
(** The JavaScript numbers, and the built-ins applied to them. *)
Context {number : Type}.

(** A local value ([unknown]): the primitives, arrays, and the objects
    the codec meets. *)
Inductive value : Type :=
  | VUndefined
  | VNull
  | VBool (b : bool)
  | VNumber (n : number)
  | VString (s : string)
  | VArray (items : list value)
  | VRichText (span : RichTextSpan)
  | VDate (d : DateObject)
  | VUrl (url_href : string).

(** [!!n]: false for zero and [NaN]. *)
Variable number_truthy : number → bool.
(** [String(n)]. *)
Variable number_to_string : number → string.
(** [Number(v)], for a [v] that is not a number already. *)
Variable to_number : value → number.
(** [NaN]. *)
Variable NaN : number.
(** [fromMarkdown(s, ...)] of mdast, strikethrough extension loaded: the
    children of the root. *)
Variable fromMarkdown : string → list RootContent.

(** [Boolean(v)], [if (v)]. *)
Definition js_truthy (v : value) : bool :=
  match v with
  | VUndefined | VNull => false
  | VBool b => b
  | VNumber n => number_truthy n
  | VString s => truthy_string s
  | VArray _ | VRichText _ | VDate _ | VUrl _ => true
  end.

(** *** Property values *)

(** The result of a formula. *)
Inductive FormulaResult : Type :=
  | F_boolean (boolean : option bool)
  | F_date (date : option DateObject)
  | F_number (n : option number)
  | F_string (s : option string).

(** [Property.Value]: what the remote returns.  The [id] every value
    carries is never read and is left out. *)
Inductive PropertyValue : Type :=
  | P_title (title : list RichTextSpan)
  | P_rich_text (rich_text : list RichTextSpan)
  | P_number (n : option number)
  | P_select (select : option SelectOption)
  | P_multi_select (multi_select : list SelectOption)
  | P_status (status : option SelectOption)
  | P_date (date : option DateObject)
  | P_people (people : list UserReference)
  | P_files (files : list FileObject)
  | P_checkbox (checkbox : bool)
  | P_url (url : option string)
  | P_email (email : option string)
  | P_phone_number (phone_number : option string)
  | P_formula (formula : FormulaResult)
  | P_relation (relation : list string) (has_more : bool)
  | P_rollup (rollup : RollupResult)
  | P_created_time (created_time : string)
  | P_created_by (created_by : UserReference)
  | P_last_edited_time (last_edited_time : string)
  | P_last_edited_by (last_edited_by : UserReference)
  | P_unique_id (prefix : option string) (n : number)
with RollupResult : Type :=
  | R_array (array : list PropertyValue)
  | R_date (date : option DateObject)
  | R_number (n : option number).

(** [Property.ValueInput]: what [dehydrateValue] writes.  The casts of
    the source do nothing at run time, so a position holds whatever
    value was passed in. *)
Inductive ValueInput : Type :=
  | I_title (title : value)
  | I_rich_text (rich_text : value)
  | I_number (n : value)
  | I_select (select : option value)          (* [null | { name }] *)
  | I_multi_select (multi_select : list value)  (* the [name]s *)
  | I_status (status : option value)
  | I_date (date : value)
  | I_checkbox (checkbox : value)
  | I_url (url : value)
  | I_email (email : value)
  | I_phone_number (phone_number : value)
  | I_relation (relation : list value) (has_more : bool)  (* the [id]s *)
  | I_people (people : list value).                       (* the [id]s *)

(** *** toRichText ([utils/toRichText.ts]) *)

Definition defaultAnnotations : Annotations :=
  {| bold := false; italic := false; strikethrough := false;
     underline := false; code := false; color := "default" |}.

(** [createRichText(content, href, annotations)]; the annotations are
    already merged over the defaults. *)
Definition createRichText (content : string) (href : option string)
    (annotations : Annotations) : RichTextSpan :=
  {| annotations := annotations; plain_text := content; href := href;
     rt_content := RT_text content (truthy href) |}.

(** The link a [link] node puts on a converted child. *)
Definition with_link (url : string) (child : RichTextSpan) : RichTextSpan :=
  match rt_content child with
  | RT_text content _ =>
      {| annotations := annotations child; plain_text := plain_text child;
         href := Some url; rt_content := RT_text content (Some url) |}
  | _ => child
  end.

Fixpoint convertInlineNode (node : PhrasingContent)
    (inherited : Annotations) : list RichTextSpan :=
  let convertInlineNodes nodes inherited :=
    (fix go (nodes : list PhrasingContent) : list RichTextSpan :=
       match nodes with
       | [] => []
       | node :: rest => convertInlineNode node inherited ++ go rest
       end) nodes in
  match node with
  | MdText value => [createRichText value None inherited]
  | MdStrong children =>
      convertInlineNodes children
        {| bold := true; italic := italic inherited;
           strikethrough := strikethrough inherited;
           underline := underline inherited; code := code inherited;
           color := color inherited |}
  | MdEmphasis children =>
      convertInlineNodes children
        {| bold := bold inherited; italic := true;
           strikethrough := strikethrough inherited;
           underline := underline inherited; code := code inherited;
           color := color inherited |}
  | MdDelete children =>
      convertInlineNodes children
        {| bold := bold inherited; italic := italic inherited;
           strikethrough := true;
           underline := underline inherited; code := code inherited;
           color := color inherited |}
  | MdInlineCode value =>
      [createRichText value None
         {| bold := bold inherited; italic := italic inherited;
            strikethrough := strikethrough inherited;
            underline := underline inherited; code := true;
            color := color inherited |}]
  | MdLink url children =>
      with_link url <$> convertInlineNodes children inherited
  | MdOther => []
  end.

Definition convertInlineNodes (nodes : list PhrasingContent)
    (inherited : Annotations) : list RichTextSpan :=
  flat_map (λ node, convertInlineNode node inherited) nodes.

Definition newline : string := String (ascii_of_nat 10) EmptyString.

(** The string branch of [toRichText]. *)
Definition markdownToRichText (value : string) : list RichTextSpan :=
  let richTexts :=
    fold_left
      (λ (richTexts : list RichTextSpan) node,
         match node with
         | MdParagraph children =>
             (if bool_decide (0 < length richTexts)
              then richTexts ++ [createRichText newline None
                                   defaultAnnotations]
              else richTexts)
             ++ convertInlineNodes children defaultAnnotations
         | MdOtherBlock => richTexts
         end)
      (fromMarkdown value) [] in
  if bool_decide (length richTexts = 0)
  then [{| annotations := defaultAnnotations; plain_text := value;
           href := None; rt_content := RT_text value None |}]
  else richTexts.

Definition toRichText (v : value) : value :=
  match v with
  | VUndefined => VArray []
  | VString s => VArray (VRichText <$> markdownToRichText s)
  | _ => v
  end.


(** *** dehydrateValue ([utils/dehydrateValue.ts]) *)

(** [typeof value === 'string' ? value : (value.label ?? key)]. *)
Definition option_name (key : string) (entry : SelectOptionEntry)
    : string :=
  match entry with
  | OptString name => name
  | OptObject o => default key (so_label o)
  end.

(** The loop that files the options of one option set, key → name. *)
Definition add_key_to_name (map : gmap string string)
    (options : SelectOptions) : gmap string string :=
  match options with
  | OptArray names =>
      fold_left (λ (m : gmap string string) name, <[name := name]> m)
        names map
  | OptRecord entries =>
      fold_left
        (λ (m : gmap string string) '(key, entry),
           <[key := option_name key entry]> m)
        entries map
  end.

Definition buildKeyToNameMap (options : option SelectOptions)
    : gmap string string :=
  match options with
  | None => ∅
  | Some options => add_key_to_name ∅ options
  end.

Definition buildStatusKeyToNameMap (groups : option StatusOptions)
    : gmap string string :=
  match groups with
  | None => ∅
  | Some groups =>
      fold_left
        (λ (m : gmap string string) '(_, group),
           add_key_to_name m (sg_options group))
        groups ∅
  end.

(** [map.get(value) ?? value]: only a string can be a key of the map. *)
Definition translate (map : gmap string string) (v : value) : value :=
  match v with
  | VString s => VString (default s (map !! s))
  | _ => v
  end.

(** [name.map(f)], for the variable [name] that holds the value: a
    [TypeError] unless the value is an array. *)
Definition array_map {B : Type} (name : string) (f : value → B) (v : value)
    : result (list B) :=
  match v with
  | VArray items => Ok (f <$> items)
  | VUndefined =>
      Err "TypeError: Cannot read properties of undefined (reading 'map')"
  | VNull =>
      Err "TypeError: Cannot read properties of null (reading 'map')"
  | _ => Err ("TypeError: " +:+ name +:+ ".map is not a function")
  end.

(** [dehydrateValue(field, value)]: [Ok None] is [undefined]. *)
Definition dehydrateValue (field : Field) (v : value)
    : result (option ValueInput) :=
  match kind field with
  | Title => Ok (Some (I_title (toRichText v)))
  | RichText => Ok (Some (I_rich_text (toRichText v)))
  | Number _ => Ok (Some (I_number v))
  | Select options =>
      if negb (js_truthy v) then Ok (Some (I_select None))
      else Ok (Some (I_select
                       (Some (translate (buildKeyToNameMap options) v))))
  | MultiSelect options =>
      match array_map "keys" (translate (buildKeyToNameMap options)) v with
      | Ok names => Ok (Some (I_multi_select names))
      | Err e => Err e
      end
  | Status groups =>
      if negb (js_truthy v) then Ok (Some (I_status None))
      else Ok (Some (I_status
                       (Some (translate (buildStatusKeyToNameMap groups)
                                v))))
  | Date => Ok (Some (I_date v))
  | Checkbox => Ok (Some (I_checkbox v))
  | Url => Ok (Some (I_url v))
  | Email => Ok (Some (I_email v))
  | PhoneNumber => Ok (Some (I_phone_number v))
  | Relation _ _ =>
      match array_map "value" (λ id, id) v with
      | Ok ids => Ok (Some (I_relation ids false))
      | Err e => Err e
      end
  | People =>
      match array_map "value" (λ id, id) v with
      | Ok ids => Ok (Some (I_people ids))
      | Err e => Err e
      end
  | Files | Formula _ | Rollup _ _ _ | CreatedTime | CreatedBy
  | LastEditedTime | LastEditedBy | UniqueId _ => Ok None
  end.

(** *** hydrateValue ([utils/hydrateValue.ts]) *)

(** The loop that files the options of one option set, name → key. *)
Definition add_name_to_key (map : gmap string string)
    (options : SelectOptions) : gmap string string :=
  match options with
  | OptArray names =>
      fold_left (λ (m : gmap string string) name, <[name := name]> m)
        names map
  | OptRecord entries =>
      fold_left
        (λ (m : gmap string string) '(key, entry),
           <[option_name key entry := key]> m)
        entries map
  end.

Definition buildNameToKeyMap (options : option SelectOptions)
    : gmap string string :=
  match options with
  | None => ∅
  | Some options => add_name_to_key ∅ options
  end.

Definition buildStatusNameToKeyMap (groups : option StatusOptions)
    : gmap string string :=
  match groups with
  | None => ∅
  | Some groups =>
      fold_left
        (λ (m : gmap string string) '(_, group),
           add_name_to_key m (sg_options group))
        groups ∅
  end.

(** [getFileObjectUrl]. *)
Definition getFileObjectUrl (file : FileObject) : string :=
  match file with
  | External url => url
  | Hosted url _ => url
  end.

(** [spans.map(t => t.plain_text).join('')]. *)
Definition plain_texts (spans : list RichTextSpan) : string :=
  join (plain_text <$> spans).

(** A nullable position: [null] or the value. *)
Definition nullable {A : Type} (inj : A → value) (o : option A) : value :=
  match o with
  | Some a => inj a
  | None => VNull
  end.

(** [prefix ? `${prefix}-${number}` : String(number)]. *)
Definition unique_id_text (prefix : option string) (n : number) : string :=
  match truthy prefix with
  | Some p => p +:+ "-" +:+ number_to_string n
  | None => number_to_string n
  end.

(** [property.select?.name] and the test [if (!name)]. *)
Definition selected_name (selected : option SelectOption)
    : option string :=
  truthy (opt_name <$> selected).

(** [extractRawValue]: the value of a property without schema lookups. *)
Definition extractRawValue (property : PropertyValue) : value :=
  match property with
  | P_title title => VString (plain_texts title)
  | P_rich_text rich_text => VString (plain_texts rich_text)
  | P_number n => nullable VNumber n
  | P_select select =>
      match select with
      | Some o => VString (opt_name o)
      | None => VUndefined
      end
  | P_multi_select multi_select =>
      VArray ((λ o, VString (opt_name o)) <$> multi_select)
  | P_status status =>
      match status with
      | Some o => VString (opt_name o)
      | None => VUndefined
      end
  | P_date date => nullable VDate date
  | P_checkbox checkbox => VBool checkbox
  | P_url url => nullable VString url
  | P_email email => nullable VString email
  | P_phone_number phone_number => nullable VString phone_number
  | P_created_time created_time => VString created_time
  | P_last_edited_time last_edited_time => VString last_edited_time
  | P_relation relation _ => VArray (VString <$> relation)
  | P_people people => VArray ((λ u, VString (user_id u)) <$> people)
  | P_created_by created_by => VString (user_id created_by)
  | P_last_edited_by last_edited_by => VString (user_id last_edited_by)
  | P_unique_id prefix n => VString (unique_id_text prefix n)
  | P_files _ | P_formula _ | P_rollup _ => VUndefined
  end.

(** [hydrateValue(property, field)]. *)
Definition hydrateValue (property : PropertyValue) (field : Field)
    : value :=
  match property with
  | P_title title => VString (plain_texts title)
  | P_rich_text rich_text => VString (plain_texts rich_text)
  | P_number n => nullable VNumber n
  | P_select select =>
      match selected_name select with
      | None => VUndefined
      | Some name =>
          match kind field with
          | Select (Some options) =>
              VString (default name
                         (buildNameToKeyMap (Some options) !! name))
          | _ => VString name
          end
      end
  | P_multi_select multi_select =>
      let names := opt_name <$> multi_select in
      match kind field with
      | MultiSelect (Some options) =>
          let map := buildNameToKeyMap (Some options) in
          VArray ((λ name, VString (default name (map !! name)))
                    <$> names)
      | _ => VArray (VString <$> names)
      end
  | P_status status =>
      match selected_name status with
      | None => VUndefined
      | Some name =>
          match kind field with
          | Status (Some groups) =>
              VString (default name
                         (buildStatusNameToKeyMap (Some groups) !! name))
          | _ => VString name
          end
      end
  | P_date date => nullable VDate date
  | P_checkbox checkbox => VBool checkbox
  | P_url url => nullable VString url
  | P_email email => nullable VString email
  | P_phone_number phone_number => nullable VString phone_number
  | P_created_time created_time => VString created_time
  | P_last_edited_time last_edited_time => VString last_edited_time
  | P_relation relation _ => VArray (VString <$> relation)
  | P_people people => VArray ((λ u, VString (user_id u)) <$> people)
  | P_files files => VArray ((λ f, VString (getFileObjectUrl f)) <$> files)
  | P_formula formula =>
      match formula with
      | F_string s => nullable VString s
      | F_number n => nullable VNumber n
      | F_boolean b => nullable VBool b
      | F_date d => nullable VDate d
      end
  | P_rollup rollup =>
      match rollup with
      | R_number n => nullable VNumber n
      | R_date d => nullable VDate d
      | R_array array => VArray (extractRawValue <$> array)
      end
  | P_created_by created_by => VString (user_id created_by)
  | P_last_edited_by last_edited_by => VString (user_id last_edited_by)
  | P_unique_id prefix n => VString (unique_id_text prefix n)
  end.


(** *** The round trip of the codec *)

Definition as_string (v : value) : option string :=
  match v with VString s => Some s | _ => None end.

Definition as_span (v : value) : option RichTextSpan :=
  match v with VRichText span => Some span | _ => None end.

Definition as_array {A : Type} (item : value → option A) (v : value)
    : option (list A) :=
  match v with VArray items => mapM item items | _ => None end.

Definition as_nullable {A : Type} (item : value → option A) (v : value)
    : option (option A) :=
  match v with VNull => Some None | _ => Some <$> item v end.

(** An option known by its name only. *)
Definition named_option (name : string) : SelectOption :=
  {| opt_id := ""; opt_name := name; opt_color := "default" |}.

(** A written payload read as a property value: the cast under which
    [hydrateValue] is applied to what [dehydrateValue] returns.  It
    succeeds when every position holds a value of its declared type; the
    properties an input lacks (the [id] and [color] of an option) are
    never read by [hydrateValue] and are left blank. *)
Definition asValue (input : ValueInput) : option PropertyValue :=
  match input with
  | I_title title => P_title <$> as_array as_span title
  | I_rich_text rich_text => P_rich_text <$> as_array as_span rich_text
  | I_number n =>
      P_number
        <$> as_nullable (λ v, match v with VNumber n => Some n | _ => None end) n
  | I_select None => Some (P_select None)
  | I_select (Some name) =>
      (λ name, P_select (Some (named_option name))) <$> as_string name
  | I_multi_select names =>
      (λ names, P_multi_select (named_option <$> names))
        <$> mapM as_string names
  | I_status None => Some (P_status None)
  | I_status (Some name) =>
      (λ name, P_status (Some (named_option name))) <$> as_string name
  | I_date date =>
      P_date
        <$> as_nullable (λ v, match v with VDate d => Some d | _ => None end) date
  | I_checkbox checkbox =>
      match checkbox with VBool b => Some (P_checkbox b) | _ => None end
  | I_url url => P_url <$> as_nullable as_string url
  | I_email email => P_email <$> as_nullable as_string email
  | I_phone_number phone_number =>
      P_phone_number <$> as_nullable as_string phone_number
  | I_relation relation has_more =>
      (λ ids, P_relation ids has_more) <$> mapM as_string relation
  | I_people people =>
      (λ ids, P_people (Build_UserReference <$> ids))
        <$> mapM as_string people
  end.

(** [hydrateValue(dehydrateValue(field, v), field)], when the payload is
    written and well typed. *)
Definition round_trip (field : Field) (v : value) : option value :=
  match dehydrateValue field v with
  | Ok (Some input) => (λ p, hydrateValue p field) <$> asValue input
  | _ => None
  end.

(** The vocabulary of an option set: its (key, name) pairs, in order. *)
Definition vocabulary (options : SelectOptions) : list (string * string) :=
  match options with
  | OptArray names => (λ name, (name, name)) <$> names
  | OptRecord entries =>
      (λ '(key, entry), (key, option_name key entry)) <$> entries
  end.

(** The vocabulary a field declares; that of a status field is the
    groups' option sets, flattened. *)
Definition field_vocabulary (field : Field) : list (string * string) :=
  match kind field with
  | Select (Some options) | MultiSelect (Some options) => vocabulary options
  | Status (Some groups) =>
      flat_map (λ g, vocabulary (sg_options g.2)) groups
  | _ => []
  end.

(** The name a key is written as: the name the vocabulary gives it, or
    the key itself when it is not declared. *)
Definition wire_name (vocab : list (string * string)) (key : string)
    : string :=
  default key (snd <$> last (filter (λ e, e.1 = key) vocab)).

(** No other key of the vocabulary is displayed under the name [key] is
    written as. *)
Definition own_name (vocab : list (string * string)) (key : string)
    : Prop :=
  ∀ k name, (k, name) ∈ vocab → name = wire_name vocab key → k = key.

(** [Array.isArray(v)]. *)
Definition is_array (v : value) : bool :=
  match v with VArray _ => true | _ => false end.

(** The types [dehydrateValue] has no branch for. *)
Definition hydrate_only (t : FieldType) : Prop :=
  t ∈ [T_formula; T_rollup; T_created_time; T_created_by;
       T_last_edited_time; T_last_edited_by; T_unique_id; T_files].

(** A text the markdown reader takes as it is: its tree has no paragraph,
    or is one paragraph holding the text as a single text node. *)
Definition plain_reading (s : string) : Prop :=
  Forall (λ node, node = MdOtherBlock) (fromMarkdown s)
  ∨ fromMarkdown s = [MdParagraph [MdText s]].

(** The values of a field's type that the codec takes there and back. *)
Inductive representative (field : Field) : value → Prop :=
  | rep_text (s : string) :
      ftype field ∈ [T_title; T_rich_text] →
      plain_reading s →
      representative field (VString s)
  | rep_number (n : option number) :
      ftype field = T_number → representative field (nullable VNumber n)
  | rep_date (d : option DateObject) :
      ftype field = T_date → representative field (nullable VDate d)
  | rep_checkbox (b : bool) :
      ftype field = T_checkbox → representative field (VBool b)
  | rep_string (s : option string) :
      ftype field ∈ [T_url; T_email; T_phone_number] →
      representative field (nullable VString s)
  | rep_no_selection :
      ftype field ∈ [T_select; T_status] →
      representative field VUndefined
  | rep_selection (key : string) :
      ftype field ∈ [T_select; T_status] →
      key ≠ "" → wire_name (field_vocabulary field) key ≠ "" →
      own_name (field_vocabulary field) key →
      representative field (VString key)
  | rep_selections (keys : list string) :
      ftype field = T_multi_select →
      Forall (own_name (field_vocabulary field)) keys →
      representative field (VArray (VString <$> keys))
  | rep_ids (ids : list string) :
      ftype field ∈ [T_relation; T_people] →
      representative field (VArray (VString <$> ids)).

(** *** hydrate ([utils/hydrate.ts]) *)

(** [object[key] = a] on an object read in insertion order. *)
Fixpoint obj_set {A : Type} (key : string) (a : A)
    (object : list (string * A)) : list (string * A) :=
  match object with
  | [] => [(key, a)]
  | (k, b) :: rest =>
      if String.eqb k key then (k, a) :: rest
      else (k, b) :: obj_set key a rest
  end.

(** One iteration of the loop over [Object.keys(schema)].  A key of the
    schema always has its field: the first [None] branch is out of
    reach.  Where the page holds no property under the label,
    [properties[field.label]] reads [undefined] or a member of
    [Object.prototype]; the member has no [type], [hydrateValue] returns
    [undefined] on it, and the key is left out in both cases. *)
Definition hydrate_step (schema : Definition_)
    (properties : gmap string PropertyValue)
    (result : list (string * value)) (key : string)
    : list (string * value) :=
  match get schema key with
  | None => result
  | Some field =>
      match properties !! label field with
      | None => result
      | Some property =>
          match hydrateValue property field with
          | VUndefined => result
          | v => obj_set key v result
          end
      end
  end.

Definition hydrate (schema : Definition_)
    (properties : gmap string PropertyValue) : list (string * value) :=
  fold_left (hydrate_step schema properties) schema.*1 [].


(** *** buildUpsertFilter ([utils/buildUpsertFilter.ts]) *)

(** [DataSourceQueryOptions.Filter], as far as it is built here. *)
Inductive Filter : Type :=
  | Filter_title (property equals : string)
  | Filter_rich_text (property equals : string)
  | Filter_number (property : string) (equals : number)
  | Filter_checkbox (property : string) (equals : bool)
  | Filter_select (property equals : string)
  | Filter_status (property equals : string)
  | Filter_relation (property contains : string)
  | Filter_and (filters : list Filter).

Definition UNSUPPORTED_TYPES : list string :=
  ["multi_select"; "date"; "people"; "files"; "formula"; "rollup";
   "created_time"; "created_by"; "last_edited_time"; "last_edited_by"].

Definition toFilterString (v : value) : string :=
  match v with
  | VNull | VUndefined => ""
  | VUrl url_href => url_href
  | VString s => s
  | VNumber n => number_to_string n
  | VBool b => if b then "true" else "false"
  | VArray _ | VRichText _ | VDate _ => ""
  end.

(** [typeof value === 'number' ? value : Number(value)]. *)
Definition numeric (v : value) : number :=
  match v with
  | VNumber n => n
  | _ => to_number v
  end.

(** What the callback makes of [data[key]].  [data] is a plain object:
    under a key it does not hold, that names a member of
    [Object.prototype], it reads that member, which is no string,
    number, boolean or URL, which [Number] turns into [NaN] and which is
    truthy. *)
Definition read_string (value : Member value) : string :=
  match value with
  | Own v => toFilterString v
  | Inherited => ""
  | Missing => toFilterString VUndefined
  end.

Definition read_number (value : Member value) : number :=
  match value with
  | Own v => numeric v
  | Inherited => NaN
  | Missing => numeric VUndefined
  end.

Definition read_boolean (value : Member value) : bool :=
  match value with
  | Own v => js_truthy v
  | Inherited => true
  | Missing => js_truthy VUndefined
  end.

Definition not_found_message (key : string) : string :=
  "Property " +:+ dquote +:+ key +:+ dquote +:+ " not found in schema.".

Definition unsupported_message (type : string) : string :=
  "Property type " +:+ dquote +:+ type +:+ dquote
  +:+ " is not supported for upsert matching. "
  +:+ "Use a property with type: title, rich_text, number, checkbox, "
  +:+ "select, status, email, url, phone_number, or unique_id.".

Definition unknown_message (type key : string) : string :=
  "Unknown property type " +:+ dquote +:+ type +:+ dquote
  +:+ " for property " +:+ dquote +:+ key +:+ dquote +:+ ".".

(** The callback of [uniqueProperties.map].  A member inherited from
    [Object.prototype] passes [if (!field)]; its [type] is [undefined],
    which no branch takes and [UNSUPPORTED_TYPES] does not list. *)
Definition property_filter (schema : Definition_)
    (data : gmap string value) (key : string) : result Filter :=
  match member (get schema key) key with
  | Missing => Err (not_found_message key)
  | Inherited => Err (unknown_message "undefined" key)
  | Own field =>
      let value := member (data !! key) key in
      let propertyName := label field in
      match ftype field with
      | T_title => Ok (Filter_title propertyName (read_string value))
      | T_rich_text | T_email | T_phone_number | T_url =>
          Ok (Filter_rich_text propertyName (read_string value))
      | T_number => Ok (Filter_number propertyName (read_number value))
      | T_checkbox => Ok (Filter_checkbox propertyName (read_boolean value))
      | T_select => Ok (Filter_select propertyName (read_string value))
      | T_status => Ok (Filter_status propertyName (read_string value))
      | T_unique_id => Ok (Filter_number propertyName (read_number value))
      | T_relation => Ok (Filter_relation propertyName (read_string value))
      | type =>
          if bool_decide (type_name type ∈ UNSUPPORTED_TYPES)
          then Err (unsupported_message (type_name type))
          else Err (unknown_message (type_name type) key)
      end
  end.

(** [array.map(f)] with a callback that may throw: the first error
    ends the loop. *)
Fixpoint map_result {A B : Type} (f : A → result B) (l : list A)
    : result (list B) :=
  match l with
  | [] => Ok []
  | a :: rest =>
      match f a with
      | Err e => Err e
      | Ok b =>
          match map_result f rest with
          | Err e => Err e
          | Ok bs => Ok (b :: bs)
          end
      end
  end.

Definition buildUpsertFilter (schema : Definition_)
    (uniqueProperties : list string) (data : gmap string value)
    : result Filter :=
  match map_result (property_filter schema data) uniqueProperties with
  | Err e => Err e
  | Ok filters =>
      Ok (match filters with
          | [filter] => filter
          | _ => Filter_and filters
          end)
  end.

(** *** The filters as the specification lists them *)







End Codec.


(** ** Notions the properties are stated and proved with *)

(** The entries a loop files under the key [i], by the key [g] reads off
    an entry. *)
Definition indexed_at {A : Type} (g : A → option string) (i : string)
    (l : list A) : list A :=
  filter (λ e, g e = Some i) l.

(** [if (g e) map.set(g e, v e)]: one iteration of a loop that fills a
    lookup map. *)
Definition index_step {A V : Type} (g : A → option string) (v : A → V)
    (m : gmap string V) (e : A) : gmap string V :=
  match g e with
  | Some i => <[i := v e]> m
  | None => m
  end.

(** The keys under which [diffSchema] files an entry of [from]. *)
Definition by_id (e : string * Field) : option string := truthy (fid e.2).
Definition by_key (e : string * Field) : option string := Some e.1.
Definition by_label (e : string * Field) : option string := Some (label e.2).
Definition by_type (e : string * Field) : option string := singleton_type e.2.

(** The key under which [restoreExpression] files a schema entry. *)
Definition by_encoded_id (encodeURIComponent : string → string)
    (e : string * Field) : option string :=
  encodeURIComponent <$> truthy (fid e.2).

(** The keys under which the option maps file a vocabulary entry. *)
Definition vocab_key (e : string * string) : option string := Some e.1.
Definition vocab_name (e : string * string) : option string := Some e.2.

(** What the diffs of a run satisfy, entry by entry. *)
Definition entry_ok (from to : Definition_) (d : Diff) : Prop :=
  match d with
  | DAdded k f => (k, f) ∈ to
  | DRemoved k f => (k, f) ∈ from
  | DModified m =>
      (m_key m, m_to m) ∈ to
      ∧ m_changes m ≠ []
      ∧ m_id m = truthy (fid (m_from m))
      ∧ ∃ fromKey,
          (fromKey, m_from m) ∈ from
          ∧ m_changes m
            = compute_changes fromKey (m_from m) (m_key m) (m_to m)
          ∧ m_fromKey m
            = (if bool_decide (fromKey ≠ m_key m) then Some fromKey else None)
  end.


(** ** toPropertiesDefinition ([utils/toPropertiesDefinition.ts]) *)

(** One iteration of the loop over the keys of the schema.  A key of the
    schema always has its field: the [None] branch is out of reach. *)
Definition definition_step (schema : Definition_)
    (definitions : gmap string DefinitionInput) (key : string)
    : gmap string DefinitionInput :=
  match get schema key with
  | Some field => put (label field) (toPropertyDefinition field) definitions
  | None => definitions
  end.

Definition toPropertiesDefinition (schema : Definition_)
    : gmap string DefinitionInput :=
  fold_left (definition_step schema) schema.*1 ∅.

(** ** dehydrate ([utils/dehydrate.ts]) *)

Section dehydrate.
Context {number : Type}.
Variable number_truthy : number → bool.
Variable fromMarkdown : string → list RootContent.

(** One iteration of the loop over the keys of [data]; [entry] is a key
    with [data[key]].  Where the schema has no property of its own under
    the key, [schema[key]] reads [undefined] or a member of
    [Object.prototype]; the member has no [type], [dehydrateValue]
    returns [undefined] on it, and the entry is skipped in both cases.
    The result is the list of the entries [result[label]] reads back,
    in the order the loop first writes them: the order in which
    [Object.keys] lists them differs for integer-like labels, and under
    the label [__proto__] the payload becomes the prototype of [result],
    which [result[label]] reads back as well. *)
Definition dehydrate_step (schema : Definition_)
    (result : list (string * ValueInput)) (entry : string * value) :=
  let '(key, v) := entry in
  match get schema key with
  | None => Ok result
  | Some field =>
      match v with
      | VUndefined => Ok result
      | _ =>
          match dehydrateValue number_truthy fromMarkdown field v with
          | Err e => Err e
          | Ok None => Ok result
          | Ok (Some propertyValue) =>
              Ok (obj_set (label field) propertyValue result)
          end
      end
  end.

(** [dehydrate(schema, data)]: [data] is an object read in the order of
    its keys. *)
Definition dehydrate (schema : Definition_) (data : list (string * value))
    : result (list (string * ValueInput)) :=
  for_each (dehydrate_step schema) data [].

(** *** What an entry of the record comes to *)

(** [v === undefined]. *)
Definition is_undefined (v : @value number) : bool :=
  match v with VUndefined => true | _ => false end.

(** The entries on which the loop stops: a value that is there, is not
    an array, and belongs to a field whose values are mapped over. *)
Definition entry_raises (schema : Definition_) (entry : string * value)
    : bool :=
  match get schema entry.1 with
  | Some field =>
      bool_decide (ftype field ∈ [T_multi_select; T_relation; T_people])
      && negb (is_array entry.2) && negb (is_undefined entry.2)
  | None => false
  end.

(** The property an entry is written as, with its label. *)
Definition written (schema : Definition_) (entry : string * value)
    : option (string * ValueInput) :=
  match get schema entry.1 with
  | None => None
  | Some field =>
      if is_undefined entry.2 then None
      else
        match dehydrateValue number_truthy fromMarkdown field entry.2 with
        | Ok (Some propertyValue) => Some (label field, propertyValue)
        | _ => None
        end
  end.

End dehydrate.

(** ** buildExpression ([utils/buildExpression.ts]) *)









(** ** renderRichText ([utils/renderRichText.ts]) *)

(** What [renderRichText] is given: nothing, a string, or spans. *)
Inductive MaybeRichText : Type :=
  | RichUndefined
  | RichString (s : string)
  | RichSpans (spans : list RichTextSpan).

Section renderRichText.
(** [renderMention(part, options)], which asks the resolvers of the
    options for the user, the page or the database mentioned. *)
Variable renderMention : RichTextSpan → string.

(** One iteration of the loop over the parts. *)
Definition render_part (part : RichTextSpan) : string :=
  let content :=
    match rt_content part with
    | RT_equation expression => "$" +:+ expression +:+ "$"
    | RT_mention _ => renderMention part
    | RT_text content link =>
        match link with
        | Some url => "[" +:+ content +:+ "](" +:+ url +:+ ")"
        | None => content
        end
    end in
  let content :=
    if code (annotations part) then "`" +:+ content +:+ "`" else content in
  let content :=
    if bold (annotations part) then "**" +:+ content +:+ "**" else content in
  let content :=
    if italic (annotations part) then "_" +:+ content +:+ "_" else content in
  let content :=
    if underline (annotations part)
    then "<u>" +:+ content +:+ "</u>" else content in
  let content :=
    if strikethrough (annotations part)
    then "~~" +:+ content +:+ "~~" else content in
  match truthy (href part), rt_content part with
  | Some _, RT_text _ _ | None, _ => content
  | Some href, _ => "[" +:+ content +:+ "](" +:+ href +:+ ")"
  end.

Definition renderRichText (richText : MaybeRichText) : string :=
  match richText with
  | RichUndefined => ""
  | RichString s => if truthy_string s then s else ""
  | RichSpans spans => join (render_part <$> spans)
  end.
End renderRichText.

(** A span of text without formatting and without link. *)
Definition unformatted (span : RichTextSpan) : Prop :=
  annotations span
  = {| bold := false; italic := false; strikethrough := false;
       underline := false; code := false;
       color := color (annotations span) |}
  ∧ rt_content span = RT_text (plain_text span) None.

(** ** toIconInput ([utils/toIconInput.ts]) *)

(** [IconInput]. *)
Inductive IconInput : Type :=
  | IconEmoji (emoji : string)
  | IconExternal (url : string)
  | IconFileUpload (id : string).

(** [MaybeIconInput | null | undefined]; a [URL] is given by its
    [href]. *)
Inductive MaybeIconInput : Type :=
  | IconUndefined
  | IconNull
  | IconString (s : string)
  | IconUrl (href : string)
  | IconGiven (icon : IconInput).

(** [s.startsWith(p)]. *)
Definition startsWith (p s : string) : bool :=
  match strip_prefix p s with Some _ => true | None => false end.

Definition toIconInput (icon : MaybeIconInput) : option IconInput :=
  match icon with
  | IconUndefined | IconNull => None
  | IconUrl href => Some (IconExternal href)
  | IconString s =>
      if negb (truthy_string s) then None
      else if startsWith "http://" s || startsWith "https://" s
      then Some (IconExternal s)
      else
        match strip_prefix "@iconify/" s with
        | Some iconName =>
            Some (IconExternal ("https://api.iconify.design/" +:+ iconName))
        | None => Some (IconEmoji s)
        end
  | IconGiven icon => Some icon
  end.

(** ** Notions for the entries of a diff *)

(** The key of the schema an entry speaks of. *)
Definition diff_key (d : Diff) : string :=
  match d with
  | DAdded key _ | DRemoved key _ => key
  | DModified m => m_key m
  end.

Definition is_removed (d : Diff) : bool :=
  match d with DRemoved _ _ => true | _ => false end.

(** The key of [from] a [Modified] entry was matched with: [fromKey]
    when the key changed, the key itself otherwise. *)
Definition source_key (m : Modified) : string :=
  default (m_key m) (m_fromKey m).

(** A local schema the remote schema covers: every field carries no id
    and stands at the key of a remote field of its label and type. *)
Definition covered (remote schema : Definition_) : Prop :=
  ∀ key field,
    (key, field) ∈ schema →
    truthy (fid field) = None
    ∧ ∃ remote_field,
        (key, remote_field) ∈ remote
        ∧ label remote_field = label field
        ∧ ftype remote_field = ftype field.

(** The remote fields at keys the local schema does not hold. *)
Definition remote_only (remote schema : Definition_) : Definition_ :=
  filter (λ e, e.1 ∉ schema.*1) remote.

(** *** The type a payload or a value is tagged with *)

Section tags.
Context {number : Type}.

(** [propertyValue.type] of a written payload. *)
Definition input_type (input : @ValueInput number) : FieldType :=
  match input with
  | I_title _ => T_title
  | I_rich_text _ => T_rich_text
  | I_number _ => T_number
  | I_select _ => T_select
  | I_multi_select _ => T_multi_select
  | I_status _ => T_status
  | I_date _ => T_date
  | I_checkbox _ => T_checkbox
  | I_url _ => T_url
  | I_email _ => T_email
  | I_phone_number _ => T_phone_number
  | I_relation _ _ => T_relation
  | I_people _ => T_people
  end.

(** [property.type] of a property value. *)
Definition value_type (property : @PropertyValue number) : FieldType :=
  match property with
  | P_title _ => T_title
  | P_rich_text _ => T_rich_text
  | P_number _ => T_number
  | P_select _ => T_select
  | P_multi_select _ => T_multi_select
  | P_status _ => T_status
  | P_date _ => T_date
  | P_people _ => T_people
  | P_files _ => T_files
  | P_checkbox _ => T_checkbox
  | P_url _ => T_url
  | P_email _ => T_email
  | P_phone_number _ => T_phone_number
  | P_formula _ => T_formula
  | P_relation _ _ => T_relation
  | P_rollup _ => T_rollup
  | P_created_time _ => T_created_time
  | P_created_by _ => T_created_by
  | P_last_edited_time _ => T_last_edited_time
  | P_last_edited_by _ => T_last_edited_by
  | P_unique_id _ _ => T_unique_id
  end.
End tags.


(** ** Example schemas *)

Definition title (lbl : string) (i : option string) : Field :=
  {| label := lbl; fid := i; kind := Title |}.
Definition text (lbl : string) (i : option string) : Field :=
  {| label := lbl; fid := i; kind := RichText |}.
Definition select (lbl : string) (i : option string) : Field :=
  {| label := lbl; fid := i; kind := Select (Some (OptArray [])) |}.
Definition multiSelect (lbl : string) (i : option string) : Field :=
  {| label := lbl; fid := i; kind := MultiSelect (Some (OptArray [])) |}.

(** A remote schema and the local schema it is synchronised with. *)
Definition remote_schema : Definition_ :=
  [("nom", title "Nom" (Some "title"));
   ("description", text "Description" (Some "d1"));
   ("priority", select "Priority" (Some "p1"))].

Definition local_schema : Definition_ :=
  [("name", title "Title" None);
   ("description", text "Summary" None);
   ("tags", multiSelect "Tags" None)].

(** Two [from] fields with one label, and two [to] fields of that label. *)
Definition twin_from : Definition_ :=
  [("a", text "L" None); ("b", text "L" None)].
Definition twin_to : Definition_ :=
  [("x", text "L" None); ("y", text "L" None)].

(** Two fields of one schema with the same id. *)
Definition shared_id_schema : Definition_ :=
  [("a", text "A" (Some "x")); ("b", text "B" (Some "x"))].

(** A label change on a field that keeps its key and id. *)
Definition relabel_from : Definition_ :=
  [("field", title "Old Label" (Some "abc123"))].
Definition relabel_to : Definition_ :=
  [("field", title "New Label" (Some "abc123"))].
Definition relabel_entry : Modified :=
  {| m_key := "field"; m_fromKey := None; m_id := Some "abc123";
     m_from := title "Old Label" (Some "abc123");
     m_to := title "New Label" (Some "abc123");
     m_changes := ["label"] |}.


(** ** Stand-ins for the built-ins, for the examples

    The examples run the codec on integers in place of the JavaScript
    numbers, with a markdown reader that takes every non-empty text for
    one paragraph of plain text. *)

Definition int_truthy (n : Z) : bool := negb (Z.eqb n 0).

Definition int_to_string (n : Z) : string := pretty n.

Definition int_of_value (v : @value Z) : Z :=
  match v with
  | VBool true => 1%Z
  | _ => 0%Z
  end.

(** The integer that stands for [NaN]. *)
Definition int_nan : Z := 0%Z.

Definition plain_markdown (s : string) : list RootContent :=
  if truthy_string s then [MdParagraph [MdText s]] else [].


(** ** Example fields, records and expressions *)

Definition number_field (lbl : string) (i : option string) : Field :=
  {| label := lbl; fid := i; kind := Number (Some "number") |}.

(** A select field without options, and one with a vocabulary. *)
Definition plain_priority : Field :=
  {| label := "Priority"; fid := None; kind := Select None |}.

Definition priority : Field :=
  {| label := "Priority"; fid := None;
     kind :=
       Select
         (Some (OptRecord
                  [("low", OptString "Low");
                   ("high",
                    OptObject {| so_id := None; so_label := Some "High";
                                 so_color := Some "red" |});
                   ("mid",
                    OptObject {| so_id := None; so_label := None;
                                 so_color := None |})])) |}.

(** The label change of the tests of [applySchemaChanges]. *)
Definition renamed_schema : Definition_ :=
  [("name", title "New Name" (Some "abc"))].

Definition renamed_diff : Modified :=
  {| m_key := "name"; m_fromKey := None; m_id := None;
     m_from := title "Old Name" (Some "abc");
     m_to := title "New Name" (Some "abc"); m_changes := ["label"] |}.

(** The formula scenario: one number field known by its id [p1]. *)
Definition formula_schema : Definition_ :=
  [("quantity", number_field "Quantity" (Some "p1"))].

Definition formula_expression : string :=
  "{{notion:block_property:p1:T1:b1}}".

(** The same field under the empty key. *)
Definition unkeyed_schema : Definition_ :=
  [("", number_field "Quantity" (Some "p1"))].

(** A page with a name and no age. *)
Definition person_schema : Definition_ :=
  [("firstName", title "First Name" None); ("age", number_field "Age" None)].

Definition plain_span (s : string) : RichTextSpan :=
  {| annotations := defaultAnnotations; plain_text := s; href := None;
     rt_content := RT_text s None |}.

Definition person_properties : gmap string (@PropertyValue Z) :=
  {[ "First Name" := P_title [plain_span "John"] ]}.

(** The upsert scenario. *)
Definition contact_schema : Definition_ :=
  [("name", title "Name" None);
   ("email", {| label := "Email"; fid := None; kind := Email |})].

Definition contact_data : gmap string (@value Z) :=
  {[ "name" := VString "John"; "email" := VString "john@x.com" ]}.

(** A modified field whose diff carries an empty id, while the source
    field has one. *)
Definition blank_id_schema : Definition_ :=
  [("name", title "New Name" None)].

Definition blank_id_diff : Modified :=
  {| m_key := "name"; m_fromKey := None; m_id := Some "";
     m_from := title "Old Name" (Some "abc");
     m_to := title "New Name" None; m_changes := ["label"] |}.

(** A field labelled like the accessor of the prototype, under a new
    key. *)
Definition proto_schema : Definition_ :=
  [("name", title "__proto__" None)].

Definition proto_diff : Modified :=
  {| m_key := "name"; m_fromKey := Some "nom"; m_id := None;
     m_from := title "__proto__" None;
     m_to := title "__proto__" None; m_changes := ["key"] |}.

(** An expression with text around a reference. *)
Definition rounded_pieces : list Piece :=
  [Plain "round("; Block "p1" "T1" "b1"; Plain " * 2, 2)"].

(** The record of a contact, and the options of [priority]. *)
Definition contact_record : list (string * @value Z) :=
  [("name", VString "John"); ("email", VString "john@x.com")].

Definition priority_options : SelectOptions :=
  OptRecord
    [("low", OptString "Low");
     ("high",
      OptObject {| so_id := None; so_label := Some "High";
                   so_color := Some "red" |});
     ("mid",
      OptObject {| so_id := None; so_label := None; so_color := None |})].

(** The remote table of contacts: the fields of [contact_schema] with
    their ids, and a priority of its own. *)
Definition contact_remote : Definition_ :=
  [("name", title "Name" (Some "title"));
   ("email", {| label := "Email"; fid := Some "e1"; kind := Email |});
   ("priority", select "Priority" (Some "p1"))].


(** * Properties *)

#[local] Set Warnings "-clear-no-such-hyp".

(** ** Truthiness *)

Lemma truthy_string_spec (s : string) : truthy_string s = true ↔ s ≠ "".
Proof. destruct s; simpl; split; (done || congruence). Qed.

Lemma truthy_nonempty (s : string) : s ≠ "" → truthy (Some s) = Some s.
Proof. intros H%truthy_string_spec. simpl. by rewrite H. Qed.

Lemma truthy_Some (o : option string) (i : string) :
  truthy o = Some i → o = Some i.
Proof.
  destruct o as [s|]; [|done]. simpl. by destruct (truthy_string s); intros [=->].
Qed.

(** ** Lookup maps filled by a loop *)

Section indexed_at.
Context {A : Type} (g : A → option string).

Lemma filter_none (P : A → Prop) `{∀ x, Decision (P x)} (l : list A) :
  (∀ e, e ∈ l → ¬ P e) → filter P l = [].
Proof.
  induction l as [|e l IH]; intros Hl; [done|].
  rewrite filter_cons_False; [|apply Hl; left].
  apply IH. intros e' He'. apply Hl. by right.
Qed.

Lemma indexed_at_unique (l : list A) (i : string) :
  NoDup (omap g l) → (length (indexed_at g i l) ≤ 1)%nat.
Proof.
  unfold indexed_at.
  induction l as [|e l IH]; intros Hnd; [simpl; lia|].
  rewrite filter_cons. cbn [omap list_omap] in Hnd.
  destruct (decide (g e = Some i)) as [Hg|Hg].
  - rewrite Hg in Hnd. apply NoDup_cons in Hnd as [Hni _].
    assert (filter (λ e, g e = Some i) l = []) as ->; [|simpl; lia].
    apply filter_none. intros e' He' Hg'.
    apply Hni, list_elem_of_omap. eauto.
  - apply IH. destruct (g e); [by apply NoDup_cons in Hnd as [_ ?]|done].
Qed.

Lemma last_indexed_at (l : list A) (i : string) (e : A) :
  last (indexed_at g i l) = Some e → e ∈ l ∧ g e = Some i.
Proof.
  intros [l' Hl']%last_Some.
  assert (e ∈ indexed_at g i l) as He.
  { rewrite Hl'. apply elem_of_app. right. left. }
  apply list_elem_of_filter in He. tauto.
Qed.

(** With distinct keys, the entry filed under a key is the only one. *)
Lemma last_indexed_at_unique (l : list A) (i : string) (e : A) :
  NoDup (omap g l) → e ∈ l → g e = Some i →
  last (indexed_at g i l) = Some e.
Proof.
  intros Hnd He Hg.
  assert (e ∈ indexed_at g i l) as Hin by by apply list_elem_of_filter.
  pose proof (indexed_at_unique l i Hnd) as Hlen.
  destruct (indexed_at g i l) as [|e1 [|e2 rest]]; simpl in Hlen.
  - by apply elem_of_nil in Hin.
  - apply list_elem_of_singleton in Hin. by subst.
  - lia.
Qed.
End indexed_at.

Section index.
Context {A V : Type} (g : A → option string) (v : A → V).

(** A lookup returns what the last entry filed under that key stored. *)
Lemma index_lookup (l : list A) (m : gmap string V) (i : string) :
  fold_left (index_step g v) l m !! i
  = match last (indexed_at g i l) with
    | Some e => Some (v e)
    | None => m !! i
    end.
Proof.
  revert m. induction l as [|e l IH]; intros m; [done|].
  cbn [fold_left]. rewrite IH. unfold indexed_at.
  rewrite filter_cons. unfold index_step.
  destruct (decide (g e = Some i)) as [Hg|Hg].
  - rewrite Hg, last_cons.
    destruct (last _); [done|]. by rewrite lookup_insert_eq.
  - destruct (last _); [done|].
    destruct (g e) as [j|]; [|done].
    rewrite lookup_insert_ne; [done|congruence].
Qed.

End index.




(** ** diffSchema: the lookup maps *)

Lemma fromById_fold (l : Definition_) (ix : Lookups) :
  fromById (fold_left add_lookup l ix)
  = fold_left (index_step by_id id) l (fromById ix).
Proof.
  revert ix. induction l as [|[k f] l IH]; intros ix; [done|].
  cbn [fold_left]. by rewrite IH.
Qed.

Lemma fromByKey_fold (l : Definition_) (ix : Lookups) :
  fromByKey (fold_left add_lookup l ix)
  = fold_left (index_step by_key snd) l (fromByKey ix).
Proof.
  revert ix. induction l as [|[k f] l IH]; intros ix; [done|].
  cbn [fold_left]. by rewrite IH.
Qed.

Lemma fromByLabel_fold (l : Definition_) (ix : Lookups) :
  fromByLabel (fold_left add_lookup l ix)
  = fold_left (index_step by_label id) l (fromByLabel ix).
Proof.
  revert ix. induction l as [|[k f] l IH]; intros ix; [done|].
  cbn [fold_left]. by rewrite IH.
Qed.

Lemma fromByType_fold (l : Definition_) (ix : Lookups) :
  fromByType (fold_left add_lookup l ix)
  = fold_left (index_step by_type id) l (fromByType ix).
Proof.
  revert ix. induction l as [|[k f] l IH]; intros ix; [done|].
  cbn [fold_left]. rewrite IH. f_equal.
  unfold index_step, by_type, singleton_type, is_singleton. simpl.
  by destruct (bool_decide _).
Qed.

Lemma lookup_fromById (from : Definition_) (i : string) :
  fromById (build_lookups from) !! i = last (indexed_at by_id i from).
Proof.
  unfold build_lookups. rewrite fromById_fold, index_lookup.
  by destruct (last _).
Qed.

Lemma lookup_fromByKey (from : Definition_) (k : string) :
  (λ f, (k, f)) <$> fromByKey (build_lookups from) !! k
  = last (indexed_at by_key k from).
Proof.
  unfold build_lookups. rewrite fromByKey_fold, index_lookup.
  destruct (last _) as [[k' f]|] eqn:E; [|done].
  apply last_indexed_at in E as [_ E]. unfold by_key in E. by simplify_eq/=.
Qed.

Lemma lookup_fromByLabel (from : Definition_) (lb : string) :
  fromByLabel (build_lookups from) !! lb = last (indexed_at by_label lb from).
Proof.
  unfold build_lookups. rewrite fromByLabel_fold, index_lookup.
  by destruct (last _).
Qed.

Lemma lookup_fromByType (from : Definition_) (t : string) :
  fromByType (build_lookups from) !! t = last (indexed_at by_type t from).
Proof.
  unfold build_lookups. rewrite fromByType_fold, index_lookup.
  by destruct (last _).
Qed.

Lemma keys_omap (schema : Definition_) : omap by_key schema = schema.*1.
Proof. induction schema as [|[k f] l IH]; [done|]. simpl. by f_equal. Qed.

Lemma type_name_inj (t1 t2 : FieldType) :
  type_name t1 = type_name t2 → t1 = t2.
Proof. destruct t1, t2; (done || discriminate). Qed.

(** A match is an entry of [from] that was not consumed before. *)
Lemma unprocessed_Some (processed : gset string) o (k : string) (f : Field) :
  unprocessed processed o = Some (k, f) → o = Some (k, f) ∧ k ∉ processed.
Proof.
  destruct o as [[k' f']|]; [|done]. simpl.
  case_bool_decide; [done|]. intros [= -> ->]. done.
Qed.

Lemma findMatch_Some (from : Definition_) (processed : gset string)
    (toKey : string) (toField : Field) (k : string) (f : Field) :
  findMatch (build_lookups from) processed toKey toField = Some (k, f) →
  (k, f) ∈ from ∧ k ∉ processed.
Proof.
  unfold findMatch.
  rewrite lookup_fromByKey, lookup_fromByLabel, lookup_fromByType.
  intros H.
  assert (∃ g i, unprocessed processed (last (indexed_at g i from))
                 = Some (k, f)) as (g & i & Hm).
  { destruct (truthy (fid toField)) as [i|] eqn:Hi.
    - rewrite lookup_fromById in H.
      destruct (unprocessed _ (last (indexed_at by_id _ _))) eqn:E1;
        [simplify_eq/=; eauto|].
      simpl in H.
      destruct (unprocessed _ (last (indexed_at by_key _ _))) eqn:E2;
        [simplify_eq/=; eauto|].
      simpl in H.
      destruct (unprocessed _ (last (indexed_at by_label _ _))) eqn:E3;
        [simplify_eq/=; eauto|].
      simpl in H. destruct (bool_decide _); [eauto|done].
    - simpl in H.
      destruct (unprocessed _ (last (indexed_at by_key _ _))) eqn:E2;
        [simplify_eq/=; eauto|].
      simpl in H.
      destruct (unprocessed _ (last (indexed_at by_label _ _))) eqn:E3;
        [simplify_eq/=; eauto|].
      simpl in H. destruct (bool_decide _); [eauto|done]. }
  apply unprocessed_Some in Hm as [Hl ?].
  apply last_indexed_at in Hl as [? _]. done.
Qed.


(** ** diffSchema: what a [Modified] entry carries *)

Lemma key_in_changes (fromKey : string) (fromField : Field)
    (toKey : string) (toField : Field) :
  "key" ∈ compute_changes fromKey fromField toKey toField ↔ fromKey ≠ toKey.
Proof.
  unfold compute_changes.
  rewrite !elem_of_app.
  repeat case_bool_decide;
    rewrite ?elem_of_nil, ?list_elem_of_singleton; naive_solver.
Qed.

Lemma modified_entry_ok (from to : Definition_) (fromKey : string)
    (fromField : Field) (toKey : string) (toField : Field) :
  (fromKey, fromField) ∈ from → (toKey, toField) ∈ to →
  Forall (entry_ok from to) (modified_entry fromKey fromField toKey toField).
Proof.
  intros Hf Ht. unfold modified_entry.
  case_bool_decide as Hlen; [|constructor].
  repeat constructor; simpl; eauto.
  intros E. rewrite E in Hlen. simpl in Hlen. lia.
Qed.

Lemma diff_loop_ok (from to : Definition_) (rest : Definition_)
    (st : DiffState) :
  (∀ e, e ∈ rest → e ∈ to) →
  Forall (entry_ok from to) (diffs st) →
  Forall (entry_ok from to)
    (diffs (fold_left (diff_step (build_lookups from)) rest st)).
Proof.
  revert st. induction rest as [|[k f] rest IH]; intros st Hin Hst; [done|].
  cbn [fold_left]. apply IH; [intros; apply Hin; by right|].
  unfold diff_step.
  destruct (findMatch _ _ k f) as [[k' f']|] eqn:Hm; simpl.
  - apply findMatch_Some in Hm as [Hm _].
    apply Forall_app. split; [done|].
    apply modified_entry_ok; [done|]. apply Hin. left.
  - apply Forall_app. split; [done|].
    repeat constructor. simpl. apply Hin. left.
Qed.

Lemma removed_entries_ok (from to : Definition_) (processed : gset string)
    (l : Definition_) :
  (∀ e, e ∈ l → e ∈ from) →
  Forall (entry_ok from to) (removed_entries processed l).
Proof.
  induction l as [|[k f] l IH]; intros Hin; [constructor|].
  simpl. apply Forall_app. split.
  - case_bool_decide; repeat constructor. simpl. apply Hin. left.
  - apply IH. intros; apply Hin; by right.
Qed.

Lemma diffSchema_entries_ok (from to : Definition_) :
  Forall (entry_ok from to) (diffSchema from to).
Proof.
  unfold diffSchema. apply Forall_app. split.
  - apply diff_loop_ok; [done|constructor].
  - by apply removed_entries_ok.
Qed.

(** C4 (as amended).  Every [Modified] entry of [diffSchema from to] has a
    non-empty change set; it carries [fromKey], the original key of the
    matched [from] field, exactly when the local key differs, that is when
    ['key'] is among its changes; and it carries the matched [from] field's
    [id] whenever that id is present (truthy), whether or not the key
    differs. *)
Theorem diffSchema_modified_carries (from to : Definition_) (m : Modified) :
  DModified m ∈ diffSchema from to →
  m_changes m ≠ []
  ∧ (is_Some (m_fromKey m) ↔ "key" ∈ m_changes m)
  ∧ (∀ k, m_fromKey m = Some k → (k, m_from m) ∈ from ∧ k ≠ m_key m)
  ∧ m_id m = truthy (fid (m_from m)).
Proof.
  intros Hin.
  pose proof (diffSchema_entries_ok from to) as Hall.
  rewrite Forall_forall in Hall. apply Hall in Hin.
  destruct Hin as (_ & Hne & Hid & k0 & Hfrom & Hch & Hfk).
  split; [done|]. split; [|split; [|done]].
  - rewrite Hch, key_in_changes, Hfk.
    case_bool_decide; split; intros H'; try done; by destruct H'.
  - intros k Hk. rewrite Hfk in Hk.
    case_bool_decide; simplify_eq. done.
Qed.


(** ** diffSchema: a schema against itself *)

Lemma compute_changes_same (k : string) (f : Field) :
  compute_changes k f k f = [].
Proof.
  unfold compute_changes.
  by rewrite !bool_decide_eq_false_2 by (intros H; by apply H).
Qed.

Lemma findMatch_self (S : Definition_) (processed : gset string)
    (k : string) (f : Field) :
  NoDup S.*1 → NoDup (ids_of S) → (k, f) ∈ S → k ∉ processed →
  findMatch (build_lookups S) processed k f = Some (k, f).
Proof.
  intros Hk Hi Hin Hnp. unfold findMatch.
  assert (unprocessed processed (Some (k, f)) = Some (k, f)) as Hun.
  { simpl. by rewrite bool_decide_eq_false_2. }
  destruct (truthy (fid f)) as [i|] eqn:Hid.
  - rewrite lookup_fromById.
    rewrite (last_indexed_at_unique by_id S i (k, f)); [|done..].
    by rewrite Hun.
  - rewrite lookup_fromByKey.
    rewrite (last_indexed_at_unique by_key S k (k, f));
      [|by rewrite keys_omap|done..].
    by rewrite Hun.
Qed.

Lemma diff_loop_self (S : Definition_) (pre suf : Definition_) :
  NoDup S.*1 → NoDup (ids_of S) → S = pre ++ suf →
  fold_left (diff_step (build_lookups S)) suf
    {| diffs := []; processedFromKeys := list_to_set pre.*1 |}
  = {| diffs := []; processedFromKeys := list_to_set S.*1 |}.
Proof.
  intros Hk Hi. revert pre.
  induction suf as [|[k f] suf IH]; intros pre ->.
  { by rewrite app_nil_r. }
  cbn [fold_left]. unfold diff_step. simpl.
  rewrite findMatch_self; [|done|done|..].
  - unfold modified_entry. rewrite compute_changes_same. simpl.
    specialize (IH (pre ++ [(k, f)])).
    rewrite fmap_app, list_to_set_app_L in IH. simpl in IH.
    rewrite <- IH; [|by rewrite <- app_assoc].
    do 2 f_equal. set_solver.
  - apply elem_of_app. right. left.
  - rewrite fmap_app in Hk. apply NoDup_app in Hk as (_ & Hk & _).
    rewrite elem_of_list_to_set. intros Hin. apply (Hk k Hin). left.
Qed.

Lemma removed_entries_all (processed : gset string) (l : Definition_) :
  (∀ k, k ∈ l.*1 → k ∈ processed) → removed_entries processed l = [].
Proof.
  induction l as [|[k f] l IH]; intros Hin; [done|].
  simpl. rewrite bool_decide_eq_true_2; [|apply Hin; left].
  apply IH. intros; apply Hin. by right.
Qed.

(** C9 (as amended).  For every schema [S] whose fields carry pairwise
    distinct (truthy) ids, [diffSchema S S = []]: every field matches
    itself, and a match without changes yields no entry.  (The keys of a
    schema are distinct because it is an object.) *)
Theorem diffSchema_self (S : Definition_) :
  NoDup S.*1 → NoDup (ids_of S) → diffSchema S S = [].
Proof.
  intros Hk Hi. unfold diffSchema.
  pose proof (diff_loop_self S [] S Hk Hi eq_refl) as Hloop.
  simpl in Hloop. rewrite Hloop. simpl.
  apply removed_entries_all. intros k Hin. by apply elem_of_list_to_set.
Qed.


(** ** diffSchema: the matching of the specification *)

Lemma first_where_ext (P Q : string * Field → bool) (l : Definition_) :
  (∀ e, e ∈ l → P e = Q e) → first_where P l = first_where Q l.
Proof.
  induction l as [|e l IH]; intros Hext; [done|].
  simpl. rewrite (Hext e) by left.
  destruct (Q e); [done|]. apply IH. intros; apply Hext. by right.
Qed.

(** Searching [from] for an entry filed under [i] that satisfies [R] finds
    what the lookup map holds, when at most one entry is filed there. *)
Lemma first_where_indexed (g : string * Field → option string)
    (R : string * Field → bool) (i : string) (l : Definition_) :
  NoDup (omap g l) →
  first_where (λ e, bool_decide (g e = Some i) && R e) l
  = last (indexed_at g i l) ≫= (λ e, if R e then Some e else None).
Proof.
  intros Hnd. induction l as [|e l IH]; [done|].
  cbn [omap list_omap] in Hnd. unfold indexed_at in *. rewrite filter_cons.
  cbn [first_where].
  destruct (decide (g e = Some i)) as [Hg|Hg].
  - rewrite Hg in Hnd. apply NoDup_cons in Hnd as [Hni Hnd].
    rewrite bool_decide_eq_true_2 by done. simpl.
    assert (filter (λ e, g e = Some i) l = []) as Hnil.
    { apply filter_none. intros e' He' Hg'.
      apply Hni, list_elem_of_omap. eauto. }
    rewrite Hnil. simpl. destruct (R e); [done|].
    rewrite IH by done. by rewrite Hnil.
  - rewrite bool_decide_eq_false_2 by done. simpl. apply IH.
    destruct (g e); [by apply NoDup_cons in Hnd as [_ ?]|done].
Qed.

Lemma unprocessed_consumed (consumed : list string)
    (o : option (string * Field)) :
  unprocessed (list_to_set consumed) o
  = o ≫= (λ e, if negb (bool_decide (e.1 ∈ consumed)) then Some e else None).
Proof.
  destruct o as [[k f]|]; [|done]. simpl.
  rewrite (bool_decide_ext (k ∈ (list_to_set consumed : gset string))
             (k ∈ consumed)) by apply elem_of_list_to_set.
  by destruct (bool_decide _).
Qed.

(** One priority level: the lookup map against the search. *)
Lemma level_agrees (g : string * Field → option string)
    (P : string → Field → bool) (i : string)
    (consumed : list string) (from : Definition_) :
  NoDup (omap g from) →
  (∀ e, e ∈ from → P e.1 e.2 = bool_decide (g e = Some i)) →
  unprocessed (list_to_set consumed) (last (indexed_at g i from))
  = an_unconsumed P consumed from.
Proof.
  intros Hnd HP. unfold an_unconsumed.
  rewrite unprocessed_consumed, <- first_where_indexed by done.
  apply first_where_ext. intros e He. by rewrite HP.
Qed.


Lemma findMatch_spec (from : Definition_) (consumed : list string)
    (toKey : string) (toField : Field) :
  unambiguous from →
  findMatch (build_lookups from) (list_to_set consumed) toKey toField
  = spec_match from consumed toKey toField.
Proof.
  intros (Hk & Hi & Hl & Ht). unfold findMatch, spec_match.
  rewrite lookup_fromByKey, lookup_fromByLabel, lookup_fromByType.
  f_equal; [|f_equal; [|f_equal]].
  - destruct (truthy (fid toField)) as [i|] eqn:Hid; [|done].
    rewrite lookup_fromById. apply level_agrees; [done|].
    intros [k f] _. simpl. unfold by_id. simpl.
    apply truthy_Some in Hid as Hid'. rewrite Hid'.
    apply bool_decide_ext. split.
    + intros E. congruence.
    + apply truthy_Some.
  - apply level_agrees; [by rewrite keys_omap|].
    intros [k f] _. simpl. apply bool_decide_ext.
    unfold by_key. simpl. split; [by intros ->|by intros [=]].
  - apply level_agrees; [done|].
    intros [k f] _. simpl. apply bool_decide_ext.
    unfold by_label. simpl. split; [by intros ->|by intros [=]].
  - unfold is_singleton. case_bool_decide as Hs; [|done].
    apply level_agrees; [done|].
    intros [k f] _. simpl. apply bool_decide_ext.
    unfold by_type, singleton_type, is_singleton. simpl. split.
    + intros E. rewrite E. by rewrite bool_decide_eq_true_2.
    + case_bool_decide; [|done]. intros [= E]. by apply type_name_inj.
Qed.

Lemma diff_loop_spec (from to : Definition_) (consumed : list string)
    (ds : list Diff) :
  unambiguous from →
  let st :=
    fold_left (diff_step (build_lookups from)) to
      {| diffs := ds; processedFromKeys := list_to_set consumed |} in
  diffs st = ds ++ (spec_matching from consumed to).1
  ∧ processedFromKeys st = list_to_set (spec_matching from consumed to).2.
Proof.
  intros Hu. revert consumed ds.
  induction to as [|[k f] to IH]; intros consumed ds; simpl.
  { by rewrite app_nil_r. }
  rewrite findMatch_spec by done.
  destruct (spec_match from consumed k f) as [[k' f']|]; simpl.
  - specialize (IH (k' :: consumed) (ds ++ modified_entry k' f' k f)).
    simpl in IH. destruct IH as [IH1 IH2]. rewrite IH1, IH2.
    destruct (spec_matching from (k' :: consumed) to). simpl.
    by rewrite <- app_assoc.
  - specialize (IH consumed (ds ++ [DAdded k f])).
    simpl in IH. destruct IH as [IH1 IH2]. rewrite IH1, IH2.
    destruct (spec_matching from consumed to). simpl.
    by rewrite <- app_assoc.
Qed.

Lemma removed_entries_spec (consumed : list string) (from : Definition_) :
  removed_entries (list_to_set consumed) from = spec_removed consumed from.
Proof.
  unfold spec_removed.
  induction from as [|[k f] from IH]; [done|].
  change (removed_entries (list_to_set consumed) ((k, f) :: from))
    with ((if bool_decide (k ∈ (list_to_set consumed : gset string))
           then [] else [DRemoved k f])
          ++ removed_entries (list_to_set consumed) from).
  rewrite IH, filter_cons. simpl.
  rewrite (bool_decide_ext (k ∈ (list_to_set consumed : gset string))
             (k ∈ consumed)) by apply elem_of_list_to_set.
  destruct (decide (k ∉ consumed)) as [Hn|Hn].
  - by rewrite bool_decide_eq_false_2.
  - rewrite bool_decide_eq_true_2; [done|]. by apply dec_stable.
Qed.

(** C1 (as amended).  When no two fields of [from] share a (truthy) id, a
    label or a singleton type, [diffSchema from to] is the matching the
    specification describes: each field of [to], in iteration order, is
    matched with an unconsumed [from] field sharing its id, else with the
    one at the same key, else with one of the same label, else (for a
    [title]) with one of that type; a field without a match is emitted as
    [Added]; and after all [to] fields every unconsumed [from] field is
    emitted as [Removed]. *)
Theorem diffSchema_matching (from to : Definition_) :
  unambiguous from → diffSchema from to = spec_diffSchema from to.
Proof.
  intros Hu. unfold diffSchema, spec_diffSchema.
  pose proof (diff_loop_spec from to [] [] Hu) as [H1 H2].
  simpl in H1, H2. rewrite H1, H2.
  destruct (spec_matching from [] to) as [ds c]. simpl.
  by rewrite removed_entries_spec.
Qed.


Lemma C1_counterexample :
  diffSchema twin_from twin_to
  = [DModified
       {| m_key := "x"; m_fromKey := Some "b"; m_id := None;
          m_from := text "L" None; m_to := text "L" None;
          m_changes := ["key"] |};
     DAdded "y" (text "L" None);
     DRemoved "a" (text "L" None)]
  ∧ label (text "L" None) = label (text "L" None)
  ∧ diffSchema twin_from twin_to ≠ spec_diffSchema twin_from twin_to.
Proof. split; [|split]; [by vm_compute|done|]. by vm_compute. Qed.

Lemma diffSchema_matching_witness :
  unambiguous remote_schema
  ∧ diffSchema remote_schema local_schema
    = spec_diffSchema remote_schema local_schema.
Proof.
  assert (unambiguous remote_schema) as H.
  { repeat split; apply (bool_decide_unpack _); vm_compute; exact I. }
  split; [exact H|]. exact (diffSchema_matching _ _ H).
Defined.

Lemma C4_counterexample :
  diffSchema relabel_from relabel_to = [DModified relabel_entry]
  ∧ ("key" ∉ m_changes relabel_entry)
  ∧ m_id relabel_entry = Some "abc123".
Proof. split; [by vm_compute|]. split; [|done]. apply (bool_decide_unpack _). by vm_compute. Qed.

Lemma diffSchema_modified_carries_witness :
  DModified relabel_entry ∈ diffSchema relabel_from relabel_to
  ∧ m_changes relabel_entry ≠ []
  ∧ (is_Some (m_fromKey relabel_entry) ↔ "key" ∈ m_changes relabel_entry)
  ∧ (∀ k, m_fromKey relabel_entry = Some k →
       (k, m_from relabel_entry) ∈ relabel_from ∧ k ≠ m_key relabel_entry)
  ∧ m_id relabel_entry = truthy (fid (m_from relabel_entry)).
Proof.
  assert (DModified relabel_entry ∈ diffSchema relabel_from relabel_to) as H.
  { vm_compute. left. }
  split; [exact H|].
  exact (diffSchema_modified_carries relabel_from relabel_to relabel_entry H).
Defined.

Lemma C9_counterexample :
  NoDup shared_id_schema.*1
  ∧ diffSchema shared_id_schema shared_id_schema
    = [DModified
         {| m_key := "a"; m_fromKey := Some "b"; m_id := Some "x";
            m_from := text "B" (Some "x"); m_to := text "A" (Some "x");
            m_changes := ["key"; "label"] |};
       DAdded "b" (text "B" (Some "x"));
       DRemoved "a" (text "A" (Some "x"))].
Proof.
  split; [|by vm_compute]. apply (bool_decide_unpack _). by vm_compute.
Qed.

Lemma diffSchema_self_witness :
  NoDup remote_schema.*1 ∧ NoDup (ids_of remote_schema)
  ∧ diffSchema remote_schema remote_schema = [].
Proof.
  assert (NoDup remote_schema.*1) as Hk.
  { apply (bool_decide_unpack _). vm_compute. exact I. }
  assert (NoDup (ids_of remote_schema)) as Hi.
  { apply (bool_decide_unpack _). vm_compute. exact I. }
  split; [exact Hk|]. split; [exact Hi|].
  exact (diffSchema_self remote_schema Hk Hi).
Defined.

(** ** applySchemaChanges *)

Lemma separate_fold (diffs : list Diff) (acc : Separated) :
  fold_left separate_step diffs acc
  = {| added := added acc ++ added_of diffs;
       removed := removed acc ++ removed_of diffs;
       modified := modified acc ++ modified_of diffs |}.
Proof.
  revert acc. induction diffs as [|d diffs IH]; intros acc.
  { simpl. rewrite !app_nil_r. by destruct acc. }
  cbn [fold_left]. rewrite IH.
  destruct d; simpl; by rewrite <- ?app_assoc.
Qed.

Lemma separate_spec (diffs : list Diff) :
  separate diffs
  = {| added := added_of diffs; removed := removed_of diffs;
       modified := modified_of diffs |}.
Proof. unfold separate. by rewrite separate_fold. Qed.

(** What a key reads after an assignment. *)
Lemma put_lookup {V : Type} (key : string) (v : V) (object : gmap string V)
    (l : string) :
  put key v object !! l
  = if bool_decide (key = l ∧ l ≠ "__proto__") then Some v else object !! l.
Proof.
  unfold put. destruct (String.eqb_spec key "__proto__") as [->|Hne].
  - rewrite bool_decide_eq_false_2; [done|]. by intros [<- ?].
  - destruct (decide (key = l)) as [<-|Hl].
    + by rewrite lookup_insert_eq, bool_decide_eq_true_2.
    + rewrite lookup_insert_ne by done.
      rewrite bool_decide_eq_false_2; [done|]. by intros [? _].
Qed.

Lemma put_null_lookup {V : Type} (rs : list (string * Field))
    (object : gmap string (option V) * bool) (l : string) :
  l ≠ "__proto__" →
  (fold_left (λ o d, put_null (label d.2) o) rs object).1 !! l
  = if bool_decide (l ∈ (λ d, label d.2) <$> rs) then Some None
    else object.1 !! l.
Proof.
  intros Hl. revert object.
  induction rs as [|[k f] rs IH]; intros object; [done|].
  cbn [fold_left]. rewrite IH. cbn [fmap list_fmap snd].
  destruct (decide (l ∈ (λ d, label d.2) <$> rs)) as [Hin|Hin].
  { rewrite !bool_decide_eq_true_2; [done|by right|done]. }
  rewrite (bool_decide_eq_false_2 _ Hin). unfold put_null.
  destruct (decide (label f = l)) as [<-|Hne].
  - rewrite bool_decide_eq_true_2 by left.
    destruct (String.eqb_spec (label f) "__proto__") as [?|_]; [done|].
    cbn [andb fst]. by rewrite lookup_insert_eq.
  - rewrite bool_decide_eq_false_2
      by (intros [?|?]%elem_of_cons; [congruence|done]).
    destruct (String.eqb (label f) "__proto__" && negb object.2); [done|].
    cbn [fst]. by rewrite lookup_insert_ne.
Qed.

(** Deleting the removed labels: they read [null], the rest is kept. *)
Lemma delete_removed_lookup (rs : list (string * Field))
    (m : gmap string (option DefinitionInput)) (l : string) :
  l ≠ "__proto__" →
  delete_removed rs m !! l
  = if bool_decide (l ∈ (λ d, label d.2) <$> rs) then Some None else m !! l.
Proof. intros Hl. unfold delete_removed. by rewrite put_null_lookup. Qed.

Lemma applySchemaChanges_unfold (ls : Definition_) (diffs : list Diff)
    (strategy : ConflictStrategy) :
  applySchemaChanges ls diffs strategy
  = match upserts ls diffs with
    | Err e => Err e
    | Ok payload =>
        match removed_of diffs, strategy with
        | [], _ | _, merge => Ok payload
        | _ :: _, strict =>
            Err ("Unrecognized remote fields: "
                 +:+ String.concat ", " (fst <$> removed_of diffs))
        | _ :: _, overwrite => Ok (delete_removed (removed_of diffs) payload)
        end
    end.
Proof.
  unfold applySchemaChanges, upserts. rewrite separate_spec. simpl.
  destruct (for_each (apply_added ls) (added_of diffs) ∅) as [u|e]; [|done].
  destruct (for_each (apply_modified ls) (modified_of diffs) u) as [u'|e];
    [|done].
  destruct (removed_of diffs) as [|r rs]; [by destruct strategy|].
  rewrite bool_decide_eq_true_2 by (simpl; lia).
  destruct strategy; try done;
    by rewrite bool_decide_eq_true_2 by (simpl; lia).
Qed.

(** *** When the first two loops throw *)

Lemma added_loop_Ok (ls : Definition_) (l : list (string * Field))
    (updates : gmap string (option DefinitionInput)) :
  Forall (reads_field ls) l.*1 →
  ∃ updates', for_each (apply_added ls) l updates = Ok updates'.
Proof.
  revert updates. induction l as [|[k f] l IH]; intros updates Hl.
  { by eexists. }
  cbn [fmap list_fmap fst] in Hl. apply Forall_cons in Hl as [Hk Hl].
  cbn [for_each]. unfold apply_added at 1. cbn [fst].
  unfold reads_field in Hk.
  destruct (member (get ls k) k); [by apply IH|done|by apply IH].
Qed.

Lemma added_loop_Err (ls : Definition_) (l : list (string * Field))
    (updates : gmap string (option DefinitionInput)) :
  ¬ Forall (reads_field ls) l.*1 →
  for_each (apply_added ls) l updates = Err unsupported_field.
Proof.
  revert updates. induction l as [|[k f] l IH]; intros updates Hl.
  { by destruct Hl. }
  cbn [fmap list_fmap fst] in Hl.
  cbn [for_each]. unfold apply_added at 1. cbn [fst].
  destruct (member (get ls k) k) eqn:Hk; [|done|];
    apply IH; intros Hall; apply Hl; constructor; try done;
    unfold reads_field; by rewrite Hk.
Qed.

Lemma modified_loop_Ok (ls : Definition_) (ms : list Modified)
    (updates : gmap string (option DefinitionInput)) :
  Forall (reads_field ls) (m_key <$> ms) →
  ∃ updates', for_each (apply_modified ls) ms updates = Ok updates'.
Proof.
  revert updates. induction ms as [|m ms IH]; intros updates Hl.
  { by eexists. }
  cbn [fmap list_fmap] in Hl. apply Forall_cons in Hl as [Hk Hl].
  cbn [for_each]. unfold apply_modified at 1. unfold reads_field in Hk.
  destruct (member (get ls (m_key m)) (m_key m)); [|done|by apply IH].
  destruct (bool_decide _); by apply IH.
Qed.

Lemma modified_loop_Err (ls : Definition_) (ms : list Modified)
    (updates : gmap string (option DefinitionInput)) :
  ¬ Forall (reads_field ls) (m_key <$> ms) →
  for_each (apply_modified ls) ms updates = Err unsupported_field.
Proof.
  revert updates. induction ms as [|m ms IH]; intros updates Hl.
  { by destruct Hl. }
  cbn [fmap list_fmap] in Hl.
  cbn [for_each]. unfold apply_modified at 1.
  destruct (member (get ls (m_key m)) (m_key m)) eqn:Hk; [|done|].
  - destruct (bool_decide _); apply IH; intros Hall; apply Hl;
      constructor; try done; unfold reads_field; by rewrite Hk.
  - apply IH. intros Hall. apply Hl. constructor; [|done].
    unfold reads_field. by rewrite Hk.
Qed.

(** The first two loops end well exactly when every key they look up
    reads a field or nothing; otherwise they throw what
    [toPropertyDefinition] throws on an inherited member. *)
Lemma upserts_cases (ls : Definition_) (diffs : list Diff) :
  (Forall (reads_field ls) (upserted_keys diffs)
   ∧ ∃ payload, upserts ls diffs = Ok payload)
  ∨ (¬ Forall (reads_field ls) (upserted_keys diffs)
     ∧ upserts ls diffs = Err unsupported_field).
Proof.
  unfold upserts, upserted_keys.
  destruct (decide (Forall (reads_field ls) (added_of diffs).*1))
    as [Ha|Ha].
  - destruct (added_loop_Ok ls (added_of diffs) ∅ Ha) as [u ->].
    destruct (decide (Forall (reads_field ls) (m_key <$> modified_of diffs)))
      as [Hm|Hm].
    + left. split; [by apply Forall_app|]. by apply modified_loop_Ok.
    + right. split; [by intros [_ ?]%Forall_app|].
      by apply modified_loop_Err.
  - right. split; [by intros [? _]%Forall_app|].
    by rewrite added_loop_Err.
Qed.

(** C3.  How [applySchemaChanges] treats the [Removed] diffs, when every
    key of an [Added] or [Modified] diff reads a field of the local
    schema or nothing.  The added and modified fields then give a
    payload.  Under [strict] the call raises as soon as one field is
    removed, returning no map, and the message lists the key of every
    removed field, joined by [", "], in diff order; no other strategy
    raises.  Under [overwrite] every removed field's label other than
    [__proto__] reads [null] and the other labels hold the payload.
    Under [merge] the result is the payload alone. *)
Theorem applySchemaChanges_removed (ls : Definition_) (diffs : list Diff) :
  Forall (reads_field ls) (upserted_keys diffs) →
  ∃ payload,
    upserts ls diffs = Ok payload
    ∧ applySchemaChanges ls diffs strict
      = match removed_of diffs with
        | [] => Ok payload
        | _ :: _ =>
            Err ("Unrecognized remote fields: "
                 +:+ String.concat ", " (fst <$> removed_of diffs))
        end
    ∧ (∀ strategy message,
         applySchemaChanges ls diffs strategy = Err message →
         strategy = strict ∧ removed_of diffs ≠ [])
    ∧ (∃ updates,
         applySchemaChanges ls diffs overwrite = Ok updates
         ∧ ∀ l, l ≠ "__proto__" →
             updates !! l
             = if bool_decide (l ∈ (λ d, label d.2) <$> removed_of diffs)
               then Some None else payload !! l)
    ∧ applySchemaChanges ls diffs merge = Ok payload.
Proof.
  intros Hkeys.
  destruct (upserts_cases ls diffs) as [[_ [payload Hp]]|[Hn _]]; [|done].
  exists payload. split; [done|].
  rewrite !applySchemaChanges_unfold, Hp. split; [|split; [|split]].
  - by destruct (removed_of diffs).
  - intros strategy message. rewrite applySchemaChanges_unfold, Hp.
    destruct (removed_of diffs), strategy; done.
  - destruct (removed_of diffs) as [|r rs] eqn:E.
    + eexists. split; [done|]. intros l _.
      by rewrite bool_decide_eq_false_2 by (apply not_elem_of_nil).
    + eexists. split; [done|]. intros l Hl.
      by apply delete_removed_lookup.
  - by destruct (removed_of diffs).
Qed.


Lemma for_each_app {A S : Type} (body : S → A → result S) (l1 l2 : list A)
    (s : S) :
  for_each body (l1 ++ l2) s
  = match for_each body l1 s with
    | Ok s' => for_each body l2 s'
    | Err e => Err e
    end.
Proof.
  revert s. induction l1 as [|a l1 IH]; intros s; [done|].
  cbn [app for_each]. by destruct (body s a).
Qed.

Lemma apply_modified_lookup (ls : Definition_) (m : Modified)
    (r r' : gmap string (option DefinitionInput)) (k : string) :
  apply_modified ls r m = Ok r' →
  r' !! k
  = if bool_decide (written_label ls m = Some k ∧ k ≠ "__proto__")
    then (λ field, Some (modified_definition field m)) <$> get ls (m_key m)
    else r !! k.
Proof.
  unfold apply_modified, written_label, member.
  destruct (get ls (m_key m)) as [field|].
  - destruct (bool_decide ("label" ∈ m_changes m)); intros [= <-];
      rewrite put_lookup; repeat case_bool_decide; naive_solver.
  - destruct (bool_decide (m_key m ∈ object_prototype)); [done|].
    intros [= <-]. rewrite bool_decide_eq_false_2; [done|]. by intros [? _].
Qed.

(** Later modified fields written under other labels leave [k] alone. *)
Lemma apply_modified_later (ls : Definition_) (ms : list Modified)
    (r r' : gmap string (option DefinitionInput)) (k : string) :
  for_each (apply_modified ls) ms r = Ok r' →
  (∀ m', m' ∈ ms → written_label ls m' ≠ Some k) →
  r' !! k = r !! k.
Proof.
  revert r. induction ms as [|m' ms IH]; intros r Hloop Hms.
  { by injection Hloop as <-. }
  cbn [for_each] in Hloop.
  destruct (apply_modified ls r m') as [r1|] eqn:Hstep; [|done].
  rewrite (IH r1) by (try done; intros; apply Hms; by right).
  rewrite (apply_modified_lookup _ _ _ _ _ Hstep).
  rewrite bool_decide_eq_false_2; [done|].
  intros [Hw _]. by apply (Hms m'); [left|].
Qed.

Lemma upserts_modified (ls : Definition_) (pre post : list Diff)
    (m : Modified) (field : Field) (k : string)
    (payload : gmap string (option DefinitionInput)) :
  upserts ls (pre ++ DModified m :: post) = Ok payload →
  get ls (m_key m) = Some field →
  written_label ls m = Some k → k ≠ "__proto__" →
  (∀ m', m' ∈ modified_of post → written_label ls m' ≠ Some k) →
  payload !! k = Some (Some (modified_definition field m)).
Proof.
  intros Hup Hget Hk Hproto Hpost. unfold upserts, modified_of in Hup.
  destruct (for_each (apply_added ls) _ ∅) as [u|]; [|done].
  rewrite omap_app in Hup. cbn [omap list_omap] in Hup.
  rewrite for_each_app in Hup.
  destruct (for_each (apply_modified ls) _ u) as [u1|]; [|done].
  cbn [for_each] in Hup.
  destruct (apply_modified ls u1 m) as [u2|] eqn:Hstep; [|done].
  rewrite (apply_modified_later _ _ _ _ _ Hup Hpost).
  rewrite (apply_modified_lookup _ _ _ _ _ Hstep).
  rewrite bool_decide_eq_true_2 by done. by rewrite Hget.
Qed.

(** C5.  A [Modified] diff whose field the local schema holds is written
    as follows.  When the label is renamed (['label'] is among the
    changes) the entry is keyed by the old ([from]) label and the
    definition's [name] carries the new label; otherwise it is keyed by
    the current label.  The definition carries the diff's [id] when that
    is a non-empty string, and the [id] of the source ([from]) field
    when the diff has none and that one is a non-empty string; in every
    other case - an empty [id] on the diff, or none on the diff and none
    or an empty one on the source - it keeps the [id] of the local
    field.  Unless its label is [__proto__], the step of the loop writes
    this entry, and the result holds it unless a later diff writes the
    same label. *)
Theorem applySchemaChanges_modified (ls : Definition_) (m : Modified)
    (field : Field) (k : string) :
  get ls (m_key m) = Some field →
  written_label ls m = Some k →
  ("label" ∈ m_changes m →
   k = label (m_from m)
   ∧ d_name (modified_definition field m) = Some (label field))
  ∧ ("label" ∉ m_changes m → k = label field)
  ∧ (∀ i, m_id m = Some i → i ≠ "" →
       d_id (modified_definition field m) = Some i)
  ∧ (∀ j, m_id m = None → fid (m_from m) = Some j → j ≠ "" →
       d_id (modified_definition field m) = Some j)
  ∧ (m_id m = Some ""
     ∨ (m_id m = None
        ∧ (fid (m_from m) = None ∨ fid (m_from m) = Some "")) →
     d_id (modified_definition field m) = fid field)
  ∧ d_type (modified_definition field m) = ftype field
  ∧ d_body (modified_definition field m)
    = d_body (toPropertyDefinition field)
  ∧ (k ≠ "__proto__" →
     ∀ updates : gmap string (option DefinitionInput),
       ∃ updates',
         apply_modified ls updates m = Ok updates'
         ∧ updates' !! k = Some (Some (modified_definition field m)))
  ∧ (k ≠ "__proto__" →
     ∀ pre post strategy (updates : gmap string (option DefinitionInput)),
       applySchemaChanges ls (pre ++ DModified m :: post) strategy
       = Ok updates →
       (∀ m', m' ∈ modified_of post → written_label ls m' ≠ Some k) →
       (strategy = overwrite →
        ∀ r, r ∈ removed_of (pre ++ DModified m :: post) → label r.2 ≠ k) →
       updates !! k = Some (Some (modified_definition field m))).
Proof.
  intros Hget Hk.
  assert (d_type (toPropertyDefinition field) = ftype field) as Hty.
  { unfold toPropertyDefinition. by destruct (kind field). }
  assert (d_id (toPropertyDefinition field) = fid field) as Hid.
  { unfold toPropertyDefinition. by destruct (kind field). }
  split; [|split; [|split; [|split; [|split; [|split; [|split; [|split]]]]]]].
  - intros Hl. unfold written_label in Hk. rewrite Hget in Hk.
    rewrite bool_decide_eq_true_2 in Hk by done.
    unfold modified_definition. rewrite bool_decide_eq_true_2 by done.
    split; [congruence|]. by destruct (truthy _).
  - intros Hl. unfold written_label in Hk. rewrite Hget in Hk.
    rewrite bool_decide_eq_false_2 in Hk by done. congruence.
  - intros i Hi Hne. unfold modified_definition. rewrite Hi. simpl nullish.
    rewrite truthy_nonempty by done. by destruct (bool_decide _).
  - intros j Hi Hj Hne. unfold modified_definition. rewrite Hi, Hj.
    simpl nullish. rewrite truthy_nonempty by done.
    by destruct (bool_decide _).
  - intros Hnone. unfold modified_definition.
    assert (truthy (nullish (m_id m) (fid (m_from m))) = None) as ->.
    { destruct Hnone as [->|[-> [->| ->]]]; done. }
    by destruct (bool_decide _).
  - unfold modified_definition. by destruct (truthy _), (bool_decide _).
  - unfold modified_definition. by destruct (truthy _), (bool_decide _).
  - intros Hproto updates.
    destruct (apply_modified ls updates m) as [updates'|e] eqn:Hstep.
    + exists updates'. split; [done|].
      rewrite (apply_modified_lookup _ _ _ _ _ Hstep).
      rewrite bool_decide_eq_true_2 by done. by rewrite Hget.
    + unfold apply_modified, member in Hstep. rewrite Hget in Hstep.
      by destruct (bool_decide _).
  - intros Hproto pre post strategy updates Hres Hpost Hrem.
    rewrite applySchemaChanges_unfold in Hres.
    destruct (upserts ls (pre ++ DModified m :: post)) as [payload|] eqn:Hp;
      [|done].
    pose proof (upserts_modified ls pre post m field k payload
                  Hp Hget Hk Hproto Hpost) as Hu.
    destruct (removed_of _) as [|r rs] eqn:E.
    { destruct strategy; by simplify_eq. }
    destruct strategy; [by simplify_eq| |done].
    injection Hres as <-.
    rewrite delete_removed_lookup by done.
    rewrite bool_decide_eq_false_2; [done|].
    intros (r' & -> & Hr')%list_elem_of_fmap. by apply (Hrem eq_refl r').
Qed.


(** ** restoreExpression *)

Lemma strip_prefix_Some (p s r : string) :
  strip_prefix p s = Some r → s = p +:+ r.
Proof.
  revert s. induction p as [|a p IH]; intros s; simpl.
  { by intros [= ->]. }
  destruct s as [|b s]; [done|].
  destruct (Ascii.eqb_spec a b) as [->|]; [|done].
  intros H%IH. by rewrite H.
Qed.

Lemma span_until_app (stop : ascii) (s run tail : string) :
  span_until stop s = (run, tail) → s = run +:+ tail.
Proof.
  revert run tail. induction s as [|c s IH]; intros run tail; simpl.
  { by intros [= <- <-]. }
  destruct (Ascii.eqb c stop); [by intros [= <- <-]|].
  destruct (span_until stop s) as [run' tail'].
  intros [= <- <-]. change (String c s = String c (run' +:+ tail')).
  f_equal. by apply IH.
Qed.

Lemma group_then_Some (stop : ascii) (next s run rest : string) :
  group_then stop next s = Some (run, rest) → s = run +:+ next +:+ rest.
Proof.
  unfold group_then.
  destruct (span_until stop s) as [run' tail] eqn:Hspan.
  destruct (truthy_string run'); [|done].
  destruct (strip_prefix next tail) as [rest'|] eqn:Hstrip; [|done].
  intros [= <- <-].
  apply span_until_app in Hspan. apply strip_prefix_Some in Hstrip.
  by subst.
Qed.

Lemma append_cons (c : ascii) (a b : string) :
  String c a +:+ b = String c (a +:+ b).
Proof. done. Qed.

Lemma append_assoc (a b c : string) : (a +:+ b) +:+ c = a +:+ (b +:+ c).
Proof.
  induction a as [|x a IH]; [done|]. by rewrite !append_cons, IH.
Qed.

Lemma append_nil_r (s : string) : s +:+ "" = s.
Proof. induction s as [|c s IH]; [done|]. by rewrite append_cons, IH. Qed.

Lemma span_until_free (stop : ascii) (run tail : string) :
  free_of stop run = true →
  span_until stop (run +:+ String stop tail) = (run, String stop tail).
Proof.
  induction run as [|c run IH].
  - intros _. change ("" +:+ String stop tail) with (String stop tail).
    simpl. by rewrite Ascii.eqb_refl.
  - cbn [free_of]. intros [Hc Hrun]%andb_true_iff. apply negb_true_iff in Hc.
    rewrite append_cons. cbn [span_until]. by rewrite Hc, IH.
Qed.


Lemma strip_prefix_app (p s : string) : strip_prefix p (p +:+ s) = Some s.
Proof.
  induction p as [|c p IH]; [done|]. rewrite append_cons. simpl.
  by rewrite Ascii.eqb_refl.
Qed.

(** A match is a non-empty prefix of the text it is anchored at. *)
Lemma match_reference_prefix (s : string) (m : Reference) :
  match_reference s = Some m →
  ∃ w rest, whole m = String "{" w ∧ s = whole m +:+ rest.
Proof.
  unfold match_reference.
  destruct (strip_prefix _ s) as [s1|] eqn:H1; [|done]. simpl.
  destruct (group_then ":" ":" s1) as [[g1 s2]|] eqn:H2; [|done]. simpl.
  destruct (group_then ":" ":" s2) as [[g2 s3]|] eqn:H3; [|done]. simpl.
  destruct (group_then "}" "}}" s3) as [[g3 s4]|] eqn:H4; [|done]. simpl.
  intros [= <-]. simpl. eexists _, s4. split; [done|].
  apply strip_prefix_Some in H1. apply group_then_Some in H2, H3, H4.
  subst. by rewrite !append_assoc.
Qed.

Lemma segments_from_skip (p s : string) :
  segments_from (String.length p) (p +:+ s) = segments_from 0 s.
Proof.
  induction p as [|c p IH]; [done|]. rewrite append_cons. simpl. apply IH.
Qed.

Lemma length_append (a b : string) :
  String.length (a +:+ b) = (String.length a + String.length b)%nat.
Proof.
  induction a as [|x a IH]; [done|]. rewrite append_cons. simpl.
  by rewrite IH.
Qed.

Lemma join_raw_segments_bounded (n : nat) (s : string) :
  (String.length s ≤ n)%nat → join (raw <$> segments s) = s.
Proof.
  revert s. induction n as [|n IH]; intros s Hlen.
  { destruct s; [done|simpl in Hlen; lia]. }
  destruct s as [|c s]; [done|].
  unfold segments. cbn [segments_from].
  destruct (match_reference (String c s)) as [m|] eqn:Hm.
  - apply match_reference_prefix in Hm as (w & rest & Hw & Hs).
    rewrite Hw in Hs. simpl in Hs. injection Hs as Hc Hs.
    replace (String.length (whole m) - 1)%nat with (String.length w)
      by (rewrite Hw; simpl; lia).
    subst c s. rewrite segments_from_skip.
    cbn [fmap list_fmap join foldr raw]. rewrite Hw, append_cons. f_equal.
    change (segments_from 0 rest) with (segments rest).
    change (foldr String.append "" (list_fmap _ _ raw (segments rest)))
      with (join (raw <$> segments rest)).
    rewrite IH; [done|].
    simpl in Hlen. rewrite length_append in Hlen. lia.
  - cbn [fmap list_fmap join foldr raw]. rewrite append_cons. f_equal.
    apply IH. simpl in Hlen. lia.
Qed.

(** The text outside and inside the references adds up to the subject. *)
Lemma join_raw_segments (s : string) : join (raw <$> segments s) = s.
Proof. by apply (join_raw_segments_bounded (String.length s)). Qed.

(** *** The scan of an expression spelled by pieces *)

(** A non-empty run without [stop], followed by [stop] and the rest of
    [next], is the group. *)
Lemma group_then_run (stop : ascii) (next run rest : string) :
  run ≠ "" → free_of stop run = true →
  group_then stop (String stop next) (run +:+ String stop next +:+ rest)
  = Some (run, rest).
Proof.
  intros Hne Hfree. unfold group_then. rewrite append_cons.
  rewrite span_until_free by done.
  apply truthy_string_spec in Hne. rewrite Hne.
  change (String stop (next +:+ rest)) with (String stop next +:+ rest).
  by rewrite strip_prefix_app.
Qed.

(** A reference is matched where it stands. *)
Lemma match_reference_text (encodedId table page rest : string) :
  well_formed (Block encodedId table page) →
  match_reference (reference_text encodedId table page +:+ rest)
  = Some {| whole := reference_text encodedId table page;
            encodedPropertyId := encodedId;
            referenceDataSourceId := table |}.
Proof.
  intros (Hi & Hfi & Ht & Hft & Hp & Hfp).
  unfold match_reference, reference_text. rewrite !append_assoc.
  rewrite strip_prefix_app. cbn [mbind option_bind].
  rewrite (group_then_run ":" "" encodedId) by done. cbn [mbind option_bind].
  rewrite (group_then_run ":" "" table) by done. cbn [mbind option_bind].
  by rewrite (group_then_run "}" "}" page).
Qed.

Lemma quiet_tail (c : ascii) (t : string) :
  quiet (String c t) = true → quiet t = true.
Proof.
  cbn [quiet]. destruct (Ascii.eqb c "{"); [|done].
  destruct t as [|c' t]; [done|]. by intros [_ ?]%andb_true_iff.
Qed.

(** No reference starts inside quiet text, whatever follows it. *)
Lemma match_reference_quiet (c : ascii) (t rest : string) :
  quiet (String c t) = true →
  match_reference (String c (t +:+ rest)) = None.
Proof.
  intros Hq. unfold match_reference.
  assert (strip_prefix "{{notion:block_property:" (String c (t +:+ rest))
          = None) as ->; [|done].
  cbn [quiet] in Hq. cbn [strip_prefix].
  destruct (Ascii.eqb_spec "{" c) as [<-|Hc]; [|done].
  rewrite Ascii.eqb_refl in Hq. destruct t as [|c' t]; [done|].
  apply andb_true_iff in Hq as [Hc' _]. apply negb_true_iff in Hc'.
  rewrite append_cons. cbn [strip_prefix].
  rewrite Ascii.eqb_sym in Hc'. by rewrite Hc'.
Qed.

Lemma segments_plain (t rest : string) :
  quiet t = true →
  segments (t +:+ rest)
  = (Lit <$> list_ascii_of_string t) ++ segments rest.
Proof.
  unfold segments. induction t as [|c t IH]; intros Hq; [done|].
  rewrite append_cons. cbn [segments_from].
  rewrite match_reference_quiet by done.
  cbn [list_ascii_of_string fmap list_fmap app]. f_equal.
  apply IH. by eapply quiet_tail.
Qed.

Lemma segments_reference (encodedId table page rest : string) :
  well_formed (Block encodedId table page) →
  segments (reference_text encodedId table page +:+ rest)
  = piece_segments (Block encodedId table page) ++ segments rest.
Proof.
  intros Hwf. pose proof (match_reference_text _ _ _ rest Hwf) as Hm.
  assert (∃ w, reference_text encodedId table page = String "{" w)
    as [w Hw] by (by eexists).
  cbn [piece_segments app]. rewrite Hw in Hm |- *.
  rewrite append_cons in Hm |- *.
  unfold segments. cbn [segments_from]. rewrite Hm. f_equal.
  cbn [whole String.length]. rewrite Nat.sub_succ, Nat.sub_0_r.
  apply segments_from_skip.
Qed.

(** The scan of a well-formed expression finds its references, and
    only them. *)
Lemma segments_spell (pieces : list Piece) :
  Forall well_formed pieces →
  segments (spell pieces) = pieces ≫= piece_segments.
Proof.
  induction 1 as [|p pieces Hp _ IH]; [done|].
  unfold spell in *. cbn [fmap list_fmap join foldr].
  change (foldr String.append "" (list_fmap _ _ piece_text pieces))
    with (join (piece_text <$> pieces)).
  rewrite bind_cons, <- IH. destruct p as [s|encodedId table page].
  - by apply segments_plain.
  - by apply segments_reference.
Qed.

Lemma join_app (a b : list string) : join (a ++ b) = join a +:+ join b.
Proof.
  induction a as [|x a IH]; [done|].
  cbn [app join foldr]. fold (join (a ++ b)) (join a).
  by rewrite IH, append_assoc.
Qed.

Lemma join_characters (callback : Reference → string) (s : string) :
  join ((λ seg, match seg with
                | Lit c => String c EmptyString
                | Ref m => callback m
                end) <$> (Lit <$> list_ascii_of_string s)) = s.
Proof.
  induction s as [|c s IH]; [done|].
  cbn [list_ascii_of_string fmap list_fmap join foldr].
  rewrite append_cons. f_equal. apply IH.
Qed.

Section restoreExpression_facts.
Variable encodeURIComponent : string → string.

Lemma encodedIdToKey_fold (schema : Definition_) (m : gmap string string) :
  fold_left
    (λ (m : gmap string string) '(key, field),
       match truthy (fid field) with
       | Some i => <[encodeURIComponent i := key]> m
       | None => m
       end) schema m
  = fold_left (index_step (by_encoded_id encodeURIComponent) fst) schema m.
Proof.
  revert m. induction schema as [|[k f] schema IH]; intros m; [done|].
  cbn [fold_left]. rewrite IH. f_equal.
  unfold index_step, by_encoded_id. simpl. by destruct (truthy (fid f)).
Qed.

Lemma lookup_encodedIdToKey (schema : Definition_) (encoded : string) :
  encodedIdToKey encodeURIComponent schema !! encoded
  = fst <$> last (fields_encoded encodeURIComponent schema encoded).
Proof.
  unfold encodedIdToKey. rewrite encodedIdToKey_fold, index_lookup.
  unfold indexed_at, fields_encoded, by_encoded_id.
  by destruct (last _).
Qed.

Lemma known_key_Some (dataSourceId : string) (schema : Definition_)
    (m : Reference) (key : string) :
  known_key encodeURIComponent dataSourceId schema m = Some key →
  referenceDataSourceId m = dataSourceId
  ∧ ∃ f i, (key, f) ∈ schema ∧ truthy (fid f) = Some i
           ∧ encodeURIComponent i = encodedPropertyId m.
Proof.
  unfold known_key. case_bool_decide as Ht; [|done].
  destruct (last _) as [[k f]|] eqn:Hl; [|done]. intros [= <-].
  split; [done|].
  apply (last_indexed_at (by_encoded_id encodeURIComponent)) in Hl as [Hin Hg].
  unfold by_encoded_id in Hg. simpl in Hg.
  destruct (truthy (fid f)) as [i|] eqn:Hi; [|done].
  simpl in Hg. injection Hg as Hg. by exists f, i.
Qed.

Lemma known_key_None (dataSourceId : string) (schema : Definition_)
    (m : Reference) :
  known_key encodeURIComponent dataSourceId schema m = None →
  referenceDataSourceId m ≠ dataSourceId
  ∨ ∀ k f i, (k, f) ∈ schema → truthy (fid f) = Some i →
             encodeURIComponent i ≠ encodedPropertyId m.
Proof.
  unfold known_key. case_bool_decide as Ht; [|by left].
  destruct (last _) as [e|] eqn:Hl; [done|]. intros _. right.
  intros k f i Hin Hi Henc.
  apply last_None in Hl.
  assert ((k, f) ∈ fields_encoded encodeURIComponent schema
                     (encodedPropertyId m)) as Hf.
  { apply list_elem_of_filter. split; [|done]. simpl. by rewrite Hi, <- Henc. }
  rewrite Hl in Hf. by apply elem_of_nil in Hf.
Qed.

Lemma restore_reference_spec (dataSourceId : string)
    (schema : Definition_) (m : Reference) :
  (∀ k f, (k, f) ∈ schema → k ≠ "") →
  restore_reference dataSourceId
    (encodedIdToKey encodeURIComponent schema) m
  = spec_restore encodeURIComponent dataSourceId schema (Ref m).
Proof.
  intros Hkeys. unfold restore_reference, spec_restore, known_key.
  rewrite lookup_encodedIdToKey.
  destruct (String.eqb_spec (referenceDataSourceId m) dataSourceId)
    as [Ht|Ht]; simpl.
  - rewrite bool_decide_eq_true_2 by done.
    destruct (last _) as [[k f]|] eqn:Hl; [|done]. simpl.
    apply (last_indexed_at (by_encoded_id encodeURIComponent)) in Hl as [Hin _].
    apply Hkeys, truthy_string_spec in Hin. by rewrite Hin.
  - by rewrite bool_decide_eq_false_2.
Qed.

Lemma restore_reference_other (dataSourceId : string)
    (lookup : gmap string string) (m : Reference) :
  referenceDataSourceId m ≠ dataSourceId →
  restore_reference dataSourceId lookup m = whole m.
Proof.
  intros Ht. unfold restore_reference.
  by destruct (String.eqb_spec (referenceDataSourceId m) dataSourceId).
Qed.

(** A reference is rewritten as the specification words it. *)
Lemma restore_reference_rewritten (dataSourceId : string)
    (schema : Definition_) (encodedId table page : string) :
  (∀ k f, (k, f) ∈ schema → k ≠ "") →
  restore_reference dataSourceId
    (encodedIdToKey encodeURIComponent schema)
    {| whole := reference_text encodedId table page;
       encodedPropertyId := encodedId;
       referenceDataSourceId := table |}
  = rewritten encodeURIComponent dataSourceId schema
      (Block encodedId table page).
Proof.
  intros Hkeys. rewrite restore_reference_spec by done.
  unfold spec_restore, known_key, rewritten. cbn [referenceDataSourceId
    encodedPropertyId whole].
  destruct (bool_decide (table = dataSourceId)); [|done].
  by destruct (last _) as [[key f]|].
Qed.

Lemma restore_spell (dataSourceId : string) (schema : Definition_)
    (pieces : list Piece) :
  (∀ k f, (k, f) ∈ schema → k ≠ "") →
  join ((λ seg, match seg with
                | Lit c => String c EmptyString
                | Ref m =>
                    restore_reference dataSourceId
                      (encodedIdToKey encodeURIComponent schema) m
                end) <$> (pieces ≫= piece_segments))
  = join (rewritten encodeURIComponent dataSourceId schema <$> pieces).
Proof.
  intros Hkeys. induction pieces as [|p pieces IH]; [done|].
  rewrite bind_cons, fmap_app, join_app, IH.
  cbn [fmap list_fmap join foldr]. f_equal.
  destruct p as [s|encodedId table page].
  - apply join_characters.
  - cbn [piece_segments fmap list_fmap join foldr].
    rewrite restore_reference_rewritten by done. apply append_nil_r.
Qed.

(** C7 (as amended).  For a schema whose local keys are non-empty,
    [restoreExpression] rewrites exactly the embedded references whose
    table ID equals [dataSourceId] and whose percent-encoded property ID
    is the percent-encoding of a schema field's id, into [prop("key")]
    with that field's local key; every other reference and all text
    outside references is kept as it is; and when no reference names
    [dataSourceId] the expression comes back unchanged.  This is stated
    twice: for any expression, on the matches of the pattern; and for an
    expression spelled by pieces - text in which no reference starts,
    and references with well-formed IDs - on the pieces themselves,
    whose references the pattern finds, and only them. *)
Theorem restoreExpression_rewrites (expression dataSourceId : string)
    (schema : Definition_) :
  (∀ k f, (k, f) ∈ schema → k ≠ "") →
  restoreExpression encodeURIComponent expression dataSourceId schema
  = join (spec_restore encodeURIComponent dataSourceId schema
            <$> segments expression)
  ∧ join (raw <$> segments expression) = expression
  ∧ (∀ m key,
       known_key encodeURIComponent dataSourceId schema m = Some key →
       referenceDataSourceId m = dataSourceId
       ∧ ∃ f i, (key, f) ∈ schema ∧ truthy (fid f) = Some i
                ∧ encodeURIComponent i = encodedPropertyId m)
  ∧ (∀ m,
       known_key encodeURIComponent dataSourceId schema m = None →
       referenceDataSourceId m ≠ dataSourceId
       ∨ ∀ k f i, (k, f) ∈ schema → truthy (fid f) = Some i →
                  encodeURIComponent i ≠ encodedPropertyId m)
  ∧ ((∀ m, Ref m ∈ segments expression →
           referenceDataSourceId m ≠ dataSourceId) →
     restoreExpression encodeURIComponent expression dataSourceId schema
     = expression)
  ∧ (∀ pieces,
       Forall well_formed pieces → expression = spell pieces →
       segments expression = pieces ≫= piece_segments
       ∧ restoreExpression encodeURIComponent expression dataSourceId
           schema
         = join (rewritten encodeURIComponent dataSourceId schema
                   <$> pieces)
       ∧ ((∀ encodedId table page,
             Block encodedId table page ∈ pieces →
             table ≠ dataSourceId) →
          restoreExpression encodeURIComponent expression dataSourceId
            schema = expression)).
Proof.
  intros Hkeys. split; [|split; [|split; [|split; [|split]]]].
  - unfold restoreExpression, replaceAll. f_equal.
    apply list_fmap_ext. intros _ [c|m] _; [done|].
    by apply restore_reference_spec.
  - apply join_raw_segments.
  - apply known_key_Some.
  - apply known_key_None.
  - intros Hother. unfold restoreExpression, replaceAll.
    rewrite <- (join_raw_segments expression) at 2. f_equal.
    apply list_fmap_ext. intros i [c|m] Hi; [done|]. simpl.
    apply restore_reference_other, Hother.
    by apply list_elem_of_lookup_2 in Hi.
  - intros pieces Hwf ->.
    assert (restoreExpression encodeURIComponent (spell pieces)
              dataSourceId schema
            = join (rewritten encodeURIComponent dataSourceId schema
                      <$> pieces)) as Hres.
    { unfold restoreExpression, replaceAll.
      rewrite segments_spell by done. by apply restore_spell. }
    split; [by apply segments_spell|]. split; [done|].
    intros Hother. rewrite Hres. unfold spell. f_equal.
    apply list_fmap_ext. intros i [s|encodedId table page] Hi; [done|].
    apply list_elem_of_lookup_2 in Hi. cbn [rewritten piece_text].
    by rewrite bool_decide_eq_false_2 by (by eapply Hother).
Qed.
End restoreExpression_facts.


(** ** The value codec *)

Lemma fold_left_fmap {A B C : Type} (f : C → B → C) (g : A → B)
    (l : list A) (c : C) :
  fold_left f (g <$> l) c = fold_left (λ c a, f c (g a)) l c.
Proof. revert c. induction l as [|a l IH]; intros c; [done|]. apply IH. Qed.

Lemma fold_left_ext {A C : Type} (f g : C → A → C) (l : list A) (c : C) :
  (∀ c a, f c a = g c a) → fold_left f l c = fold_left g l c.
Proof.
  intros Hfg. revert c. induction l as [|a l IH]; intros c; [done|].
  simpl. by rewrite Hfg, IH.
Qed.

Section codec_facts.
Context {number : Type}.
Variable number_truthy : number → bool.
Variable number_to_string : number → string.
Variable to_number : @value number → number.
Variable fromMarkdown : string → list RootContent.

(** *** The option maps against the vocabulary *)

Lemma add_key_to_name_vocabulary (options : SelectOptions)
    (m : gmap string string) :
  add_key_to_name m options
  = fold_left (index_step vocab_key snd) (vocabulary options) m.
Proof.
  destruct options as [names|entries]; simpl.
  - rewrite fold_left_fmap. by apply fold_left_ext.
  - rewrite fold_left_fmap. apply fold_left_ext. by intros c [k e].
Qed.

Lemma add_name_to_key_vocabulary (options : SelectOptions)
    (m : gmap string string) :
  add_name_to_key m options
  = fold_left (index_step vocab_name fst) (vocabulary options) m.
Proof.
  destruct options as [names|entries]; simpl.
  - rewrite fold_left_fmap. by apply fold_left_ext.
  - rewrite fold_left_fmap. apply fold_left_ext. by intros c [k e].
Qed.

Lemma status_key_to_name_vocabulary (groups : StatusOptions)
    (m : gmap string string) :
  fold_left
    (λ (m : gmap string string) '(_, group),
       add_key_to_name m (sg_options group)) groups m
  = fold_left (index_step vocab_key snd)
      (flat_map (λ g, vocabulary (sg_options g.2)) groups) m.
Proof.
  revert m. induction groups as [|[k g] groups IH]; intros m; [done|].
  simpl. by rewrite fold_left_app, IH, add_key_to_name_vocabulary.
Qed.

Lemma status_name_to_key_vocabulary (groups : StatusOptions)
    (m : gmap string string) :
  fold_left
    (λ (m : gmap string string) '(_, group),
       add_name_to_key m (sg_options group)) groups m
  = fold_left (index_step vocab_name fst)
      (flat_map (λ g, vocabulary (sg_options g.2)) groups) m.
Proof.
  revert m. induction groups as [|[k g] groups IH]; intros m; [done|].
  simpl. by rewrite fold_left_app, IH, add_name_to_key_vocabulary.
Qed.

(** The key → name map writes a key under its [wire_name]. *)
Lemma key_to_name_lookup (vocab : list (string * string)) (key : string) :
  default key (fold_left (index_step vocab_key snd) vocab ∅ !! key)
  = wire_name vocab key.
Proof.
  rewrite index_lookup. unfold wire_name, indexed_at, vocab_key.
  assert (filter (λ e : string * string, Some e.1 = Some key) vocab
          = filter (λ e, e.1 = key) vocab) as ->.
  { apply list_filter_iff. intros e. split; [by intros [=]|by intros ->]. }
  by destruct (last _).
Qed.

(** The name → key map reads a key's own name back as the key. *)
Lemma name_to_key_lookup (vocab : list (string * string)) (key : string) :
  own_name vocab key →
  default (wire_name vocab key)
    (fold_left (index_step vocab_name fst) vocab ∅
       !! wire_name vocab key)
  = key.
Proof.
  intros Hown. rewrite index_lookup.
  destruct (last (indexed_at vocab_name _ vocab)) as [[k n]|] eqn:Hl; simpl.
  - apply last_indexed_at in Hl as [Hin [= Hn]]. by apply (Hown k n).
  - rewrite lookup_empty. simpl. unfold wire_name.
    destruct (last (filter _ vocab)) as [[k n]|] eqn:Hk; [|done]. simpl.
    apply last_Some in Hk as [l' Hk].
    assert ((k, n) ∈ filter (λ e, e.1 = key) vocab) as Hin.
    { rewrite Hk. apply elem_of_app. right. left. }
    apply list_elem_of_filter in Hin as [Hkey Hin]. simpl in Hkey.
    apply last_None in Hl.
    assert ((k, n) ∈ indexed_at vocab_name
                       (wire_name vocab key) vocab) as Hin'.
    { apply list_elem_of_filter. split; [|done].
      unfold vocab_name, wire_name. simpl. by rewrite Hk, last_snoc. }
    rewrite Hl in Hin'. by apply elem_of_nil in Hin'.
Qed.


(** *** Reading a written payload back *)

Lemma mapM_as_string (l : list string) :
  mapM (as_string (number := number)) (VString <$> l) = Some l.
Proof.
  induction l as [|s l IH]; [done|].
  rewrite fmap_cons. cbn [mapM]. by rewrite IH.
Qed.

Lemma mapM_as_span (l : list RichTextSpan) :
  mapM (as_span (number := number)) (VRichText <$> l) = Some l.
Proof.
  induction l as [|s l IH]; [done|].
  rewrite fmap_cons. cbn [mapM]. by rewrite IH.
Qed.

Lemma fmap_user_ids (ids : list string) :
  (λ u, VString (number := number) (user_id u))
    <$> (Build_UserReference <$> ids) = VString <$> ids.
Proof. induction ids as [|i ids IH]; [done|]. csimpl. by rewrite IH. Qed.

(** A text read as plain text is written as spans that spell it. *)
Lemma plain_reading_text (s : string) :
  plain_reading fromMarkdown s →
  plain_texts (markdownToRichText fromMarkdown s) = s.
Proof.
  unfold markdownToRichText, plain_texts. intros [Hnone|Hone].
  - assert (∀ acc : list RichTextSpan,
              fold_left
                (λ (richTexts : list RichTextSpan) node,
                   match node with
                   | MdParagraph children =>
                       (if bool_decide (0 < length richTexts)
                        then richTexts ++ [createRichText newline None
                                             defaultAnnotations]
                        else richTexts)
                       ++ convertInlineNodes children defaultAnnotations
                   | MdOtherBlock => richTexts
                   end) (fromMarkdown s) acc = acc) as Hfold.
    { induction Hnone as [|node tree -> _ IH]; [done|]. intros acc. apply IH. }
    rewrite Hfold. simpl. apply append_nil_r.
  - rewrite Hone. simpl. apply append_nil_r.
Qed.

(** One selected key, there and back. *)
Lemma selection_round_trip (vocab : list (string * string))
    (key : string) :
  own_name vocab key →
  default (default key
             (fold_left (index_step vocab_key snd) vocab ∅ !! key))
    (fold_left (index_step vocab_name fst) vocab ∅
       !! default key
            (fold_left (index_step vocab_key snd) vocab ∅ !! key))
  = key.
Proof. intros Hown. rewrite key_to_name_lookup. by apply name_to_key_lookup. Qed.

Lemma multi_select_round_trip (vocab : list (string * string))
    (keys : list string) :
  Forall (own_name vocab) keys →
  (λ name,
     VString (number := number)
       (default name
          (fold_left (index_step vocab_name fst) vocab ∅ !! name)))
    <$> ((λ key,
            default key
              (fold_left (index_step vocab_key snd) vocab ∅ !! key))
           <$> keys)
  = VString <$> keys.
Proof.
  induction 1 as [|key keys Hkey _ IH]; [done|].
  csimpl. by rewrite IH, selection_round_trip.
Qed.

Lemma translate_strings (m : gmap string string) (keys : list string) :
  translate (number := number) m <$> (VString <$> keys)
  = VString <$> ((λ key, default key (m !! key)) <$> keys).
Proof. induction keys as [|k keys IH]; [done|]. csimpl. by rewrite IH. Qed.

Lemma named_option_names (names : list string) :
  opt_name <$> (named_option <$> names) = names.
Proof. induction names as [|n names IH]; [done|]. csimpl. by rewrite IH. Qed.

(** C2 (as amended).  For every field type that can be written,
    [hydrateValue (dehydrateValue field v) field] is [v] for the
    representative values [v] of that type: a text the markdown reader
    takes as plain text (title, rich text); a number, a date, a string or
    [null] (number, date, url, email, phone number); a boolean; a list of
    ids (relation, people); a list of keys each with a name of its own
    (multi-select); a non-empty key with a non-empty name of its own, or
    no value at all (select, status).  For each hydrate-only type
    [dehydrateValue] returns [undefined] and raises nothing. *)
Theorem codec_round_trip (field : Field) (v : value) :
  (representative fromMarkdown field v →
   round_trip number_truthy number_to_string fromMarkdown field v = Some v)
  ∧ (hydrate_only (ftype field) →
     dehydrateValue number_truthy fromMarkdown field v = Ok None).
Proof.
  split.
  - intros Hrep. unfold round_trip, dehydrateValue.
    destruct Hrep as [s Ht Hs|n Ht|d Ht|b Ht|s Ht| Ht|key Ht Hk Hn Hown
                     |keys Ht Hown|ids Ht];
      unfold ftype, field_vocabulary in *;
      destruct (kind field) as
        [| |fmt|[o|]|[o|]|[g|]| | | | | | | |e|ds md|rp up fn| | | | |pf]
        eqn:Hkind;
      try (by repeat (apply elem_of_cons in Ht as [Ht|Ht]; [done|]);
              apply elem_of_nil in Ht);
      try done.
    + csimpl. rewrite mapM_as_span. csimpl.
      by rewrite (plain_reading_text s Hs).
    + csimpl. rewrite mapM_as_span. csimpl.
      by rewrite (plain_reading_text s Hs).
    + by destruct n.
    + by destruct d.
    + by destruct s.
    + by destruct s.
    + by destruct s.
    + csimpl. apply truthy_string_spec in Hk as Hk'. rewrite Hk'. csimpl.
      unfold selected_name. csimpl. rewrite ?Hkind.
      rewrite add_key_to_name_vocabulary, key_to_name_lookup.
      apply truthy_string_spec in Hn as Hn'. rewrite Hn'.
      rewrite add_name_to_key_vocabulary.
      f_equal. f_equal. by apply name_to_key_lookup.
    + csimpl. apply truthy_string_spec in Hk as Hk'. rewrite Hk'. csimpl.
      unfold selected_name. csimpl. rewrite ?Hkind, lookup_empty. csimpl.
      by rewrite Hk'.
    + csimpl. apply truthy_string_spec in Hk as Hk'. rewrite Hk'. csimpl.
      unfold selected_name. csimpl. rewrite ?Hkind.
      rewrite status_key_to_name_vocabulary, key_to_name_lookup.
      apply truthy_string_spec in Hn as Hn'. rewrite Hn'.
      rewrite status_name_to_key_vocabulary.
      f_equal. f_equal. by apply name_to_key_lookup.
    + csimpl. apply truthy_string_spec in Hk as Hk'. rewrite Hk'. csimpl.
      unfold selected_name. csimpl. rewrite ?Hkind, lookup_empty. csimpl.
      by rewrite Hk'.
    + csimpl. rewrite translate_strings, mapM_as_string. csimpl.
      rewrite named_option_names, ?Hkind.
      rewrite add_key_to_name_vocabulary, add_name_to_key_vocabulary.
      by rewrite multi_select_round_trip.
    + csimpl. rewrite translate_strings, mapM_as_string. csimpl.
      rewrite named_option_names, ?Hkind. f_equal. f_equal.
      rewrite <- list_fmap_compose. apply list_fmap_ext.
      intros i k _. csimpl. by rewrite lookup_empty.
    + csimpl. rewrite list_fmap_id, mapM_as_string. csimpl.
      by rewrite fmap_user_ids.
    + csimpl. by rewrite list_fmap_id, mapM_as_string.
  - unfold hydrate_only, dehydrateValue, ftype. intros Ht.
    destruct (kind field); try done;
      by repeat (apply elem_of_cons in Ht as [Ht|Ht]; [done|]);
         apply elem_of_nil in Ht.
Qed.

(** C10.  [dehydrateValue] never raises on a select or status field: a
    falsy value yields the explicit null selection.  On a multi-select,
    relation or people field it maps over the value without a guard: an
    array always yields a payload, and any other value, [null] and
    [undefined] among them, raises a type error.  No other field type
    raises. *)
Theorem dehydrateValue_raises (field : Field) (v : value) :
  (ftype field ∈ [T_select; T_status] →
   ∃ input,
     dehydrateValue number_truthy fromMarkdown field v = Ok (Some input)
     ∧ (js_truthy number_truthy v = false →
        input = if bool_decide (ftype field = T_select)
                then I_select None else I_status None))
  ∧ (ftype field ∈ [T_multi_select; T_relation; T_people] →
     if is_array v
     then ∃ input,
            dehydrateValue number_truthy fromMarkdown field v
            = Ok (Some input)
     else ∃ message,
            dehydrateValue number_truthy fromMarkdown field v
            = Err message)
  ∧ (ftype field ∉ [T_multi_select; T_relation; T_people] →
     ∃ output,
       dehydrateValue number_truthy fromMarkdown field v = Ok output).
Proof.
  unfold dehydrateValue, ftype.
  split; [|split]; intros Ht;
    destruct (kind field);
    try (by repeat (apply elem_of_cons in Ht as [Ht|Ht]; [done|]);
            apply elem_of_nil in Ht);
    try (by exfalso; apply Ht; repeat constructor);
    try (by destruct v; simpl; eauto);
    try (by eauto);
    try (destruct (js_truthy number_truthy v) eqn:E; simpl; by eauto).
  - destruct (js_truthy number_truthy v) eqn:E; simpl;
      (eexists; split; [done|]); [done|by intros _].
  - destruct (js_truthy number_truthy v) eqn:E; simpl;
      (eexists; split; [done|]); [done|by intros _].
Qed.
End codec_facts.


(** ** hydrate *)

Lemma get_elem_of (schema : Definition_) (key : string) (field : Field) :
  NoDup schema.*1 → (key, field) ∈ schema → get schema key = Some field.
Proof.
  induction schema as [|[k f] schema IH]; intros Hnd Hin.
  { by apply elem_of_nil in Hin. }
  cbn [fmap list_fmap] in Hnd. apply NoDup_cons in Hnd as [Hk Hnd].
  simpl. destruct (String.eqb_spec k key) as [->|Hne].
  - apply elem_of_cons in Hin as [[= ->]|Hin]; [done|].
    exfalso. apply Hk. by apply (list_elem_of_fmap_2 fst) in Hin.
  - apply elem_of_cons in Hin as [[= ? ?]|Hin]; [done|]. by apply IH.
Qed.

Lemma get_Some_elem_of (schema : Definition_) (key : string) (field : Field) :
  get schema key = Some field → (key, field) ∈ schema.
Proof.
  induction schema as [|[k f] schema IH]; [done|]. simpl.
  destruct (String.eqb_spec k key) as [->|Hne].
  - intros [= ->]. left.
  - intros H. right. by apply IH.
Qed.

Lemma obj_set_fresh {A : Type} (key : string) (a : A)
    (object : list (string * A)) :
  key ∉ object.*1 → obj_set key a object = object ++ [(key, a)].
Proof.
  induction object as [|[k b] object IH]; intros Hk; [done|].
  simpl. destruct (String.eqb_spec k key) as [->|Hne].
  - exfalso. apply Hk. left.
  - rewrite IH; [done|]. intros Hin. apply Hk. by right.
Qed.

Section hydrate_facts.
Context {number : Type}.
Variable number_to_string : number → string.




End hydrate_facts.


(** ** buildUpsertFilter *)



Section upsert_facts.
Context {number : Type}.
Variable number_truthy : number → bool.
Variable number_to_string : number → string.
Variable to_number : @value number → number.
Variable NaN : number.

End upsert_facts.


(** ** The theorems at concrete inputs *)

Lemma codec_round_trip_witness :
  representative plain_markdown priority (VString "low" : @value Z)
  ∧ round_trip int_truthy int_to_string plain_markdown priority
      (VString "low") = Some (VString "low").
Proof.
  assert (representative plain_markdown priority (VString "low" : @value Z))
    as Hrep.
  { apply rep_selection.
    - apply (bool_decide_unpack _). by vm_compute.
    - done.
    - by vm_compute.
    - intros k name Hin Hname. vm_compute in Hname. subst name.
      vm_compute in Hin.
      repeat (apply elem_of_cons in Hin as [Hin|Hin]; [by simplify_eq|]).
      by apply elem_of_nil in Hin. }
  split; [exact Hrep|].
  exact (proj1 (codec_round_trip int_truthy int_to_string plain_markdown
                  priority (VString "low")) Hrep).
Defined.

(** A plain title, there and back. *)
Lemma title_round_trip_example :
  round_trip int_truthy int_to_string plain_markdown (title "Name" None)
    (VString "Hello World") = Some (VString "Hello World")
  ∧ round_trip int_truthy int_to_string plain_markdown (title "Name" None)
      (VString "") = Some (VString "").
Proof. by vm_compute. Qed.

Lemma C2_counterexample :
  dehydrateValue int_truthy plain_markdown plain_priority VNull
  = Ok (Some (I_select None))
  ∧ asValue (I_select None) = Some (P_select None : @PropertyValue Z)
  ∧ hydrateValue int_to_string (P_select None) plain_priority = VUndefined
  ∧ round_trip int_truthy int_to_string plain_markdown plain_priority VNull
    = Some VUndefined.
Proof. by vm_compute. Qed.

Lemma C3_counterexample :
  applySchemaChanges [] [DAdded "toString" (text "Text" None)] merge
  = Err "Unsupported field type: undefined"
  ∧ applySchemaChanges [] [DRemoved "old" (text "__proto__" None)] overwrite
    = Ok ∅.
Proof. by vm_compute. Qed.

Lemma applySchemaChanges_removed_witness :
  Forall (reads_field local_schema)
    (upserted_keys (diffSchema remote_schema local_schema))
  ∧ ∃ payload,
      upserts local_schema (diffSchema remote_schema local_schema)
      = Ok payload
      ∧ applySchemaChanges local_schema
          (diffSchema remote_schema local_schema) strict
        = match removed_of (diffSchema remote_schema local_schema) with
          | [] => Ok payload
          | _ :: _ =>
              Err ("Unrecognized remote fields: "
                   +:+ String.concat ", "
                         (fst <$> removed_of
                                    (diffSchema remote_schema local_schema)))
          end.
Proof.
  assert (Forall (reads_field local_schema)
            (upserted_keys (diffSchema remote_schema local_schema))) as H.
  { apply (bool_decide_unpack _). vm_compute. exact I. }
  split; [exact H|].
  destruct (applySchemaChanges_removed local_schema
              (diffSchema remote_schema local_schema) H)
    as (payload & Hp & Hstrict & _).
  exists payload. split; [exact Hp|exact Hstrict].
Defined.

(** The synchronisation of the example schemas under each strategy. *)
Lemma applySchemaChanges_strategies :
  applySchemaChanges local_schema (diffSchema remote_schema local_schema)
    strict
  = Err "Unrecognized remote fields: priority"
  ∧ (∃ updates,
       applySchemaChanges local_schema
         (diffSchema remote_schema local_schema) overwrite = Ok updates
       ∧ updates !! "Priority" = Some None
       ∧ updates !! "Tags" ≠ None)
  ∧ (∃ updates,
       applySchemaChanges local_schema
         (diffSchema remote_schema local_schema) merge = Ok updates
       ∧ updates !! "Priority" = None
       ∧ updates !! "Tags" ≠ None).
Proof.
  split; [by vm_compute|]. split; eexists; (split; [by vm_compute|]);
    split; by vm_compute.
Qed.

Lemma C5_counterexample :
  fid (m_from blank_id_diff) = Some "abc"
  ∧ applySchemaChanges blank_id_schema [DModified blank_id_diff] merge
    = Ok {[ "Old Name" :=
              Some {| d_type := T_title; d_id := None;
                      d_name := Some "New Name"; d_body := B_empty |} ]}
  ∧ written_label proto_schema proto_diff = Some "__proto__"
  ∧ applySchemaChanges proto_schema [DModified proto_diff] merge = Ok ∅.
Proof. by vm_compute. Qed.

Lemma applySchemaChanges_modified_witness :
  get renamed_schema (m_key renamed_diff) = Some (title "New Name" (Some "abc"))
  ∧ written_label renamed_schema renamed_diff = Some "Old Name"
  ∧ applySchemaChanges renamed_schema [DModified renamed_diff] merge
    = Ok {[ "Old Name" :=
              Some {| d_type := T_title; d_id := Some "abc";
                      d_name := Some "New Name"; d_body := B_empty |} ]}
  ∧ d_name (modified_definition (title "New Name" (Some "abc")) renamed_diff)
    = Some "New Name".
Proof.
  assert (get renamed_schema (m_key renamed_diff)
          = Some (title "New Name" (Some "abc"))) as Hget by done.
  assert (written_label renamed_schema renamed_diff = Some "Old Name")
    as Hk by done.
  split; [exact Hget|]. split; [exact Hk|]. split; [by vm_compute|].
  refine (proj2 (proj1 (applySchemaChanges_modified renamed_schema
                          renamed_diff _ _ Hget Hk) _)).
  apply (bool_decide_unpack _). by vm_compute.
Defined.

Lemma restoreExpression_rewrites_witness :
  (∀ k f, (k, f) ∈ formula_schema → k ≠ "")
  ∧ Forall well_formed rounded_pieces
  ∧ restoreExpression percent_encode (spell rounded_pieces) "T1"
      formula_schema
    = join (rewritten percent_encode "T1" formula_schema
              <$> rounded_pieces).
Proof.
  assert (∀ k f, (k, f) ∈ formula_schema → k ≠ "") as Hkeys.
  { intros k f Hin. apply list_elem_of_singleton in Hin. by simplify_eq. }
  assert (Forall well_formed rounded_pieces) as Hwf.
  { repeat constructor; done. }
  split; [exact Hkeys|]. split; [exact Hwf|].
  exact (proj1 (proj2
           (proj2 (proj2 (proj2 (proj2 (proj2
              (restoreExpression_rewrites percent_encode
                 (spell rounded_pieces) "T1" formula_schema Hkeys)))))
              rounded_pieces Hwf eq_refl))).
Defined.

(** The formula scenario of the specification, and the reference amid
    text. *)
Lemma restoreExpression_scenario :
  restoreExpression percent_encode formula_expression "T1" formula_schema
  = prop_call "quantity"
  ∧ restoreExpression percent_encode formula_expression "T2" formula_schema
    = formula_expression
  ∧ restoreExpression percent_encode (spell rounded_pieces) "T1"
      formula_schema
    = "round(" +:+ prop_call "quantity" +:+ " * 2, 2)".
Proof. by vm_compute. Qed.

Lemma C7_counterexample :
  match_reference formula_expression
  = Some {| whole := formula_expression; encodedPropertyId := "p1";
            referenceDataSourceId := "T1" |}
  ∧ fid (number_field "Quantity" (Some "p1")) = Some "p1"
  ∧ percent_encode "p1" = "p1"
  ∧ restoreExpression percent_encode formula_expression "T1" unkeyed_schema
    = formula_expression.
Proof. by vm_compute. Qed.


(** A field without its property is left out of the record. *)
Lemma hydrate_scenario :
  hydrate int_to_string person_schema person_properties
  = [("firstName", VString "John")].
Proof. by vm_compute. Qed.

(** The upsert scenario of the specification. *)
Lemma buildUpsertFilter_scenario :
  buildUpsertFilter int_truthy int_to_string int_of_value int_nan
    contact_schema ["name"; "email"] contact_data
  = Ok (Filter_and [Filter_title "Name" "John";
                    Filter_rich_text "Email" "john@x.com"])
  ∧ buildUpsertFilter int_truthy int_to_string int_of_value int_nan
      contact_schema ["name"] ∅
    = Ok (Filter_title "Name" "")
  ∧ buildUpsertFilter int_truthy int_to_string int_of_value int_nan
      contact_schema ["name"; "phone"] contact_data
    = Err ("Property " +:+ dquote +:+ "phone" +:+ dquote
           +:+ " not found in schema.")
  ∧ buildUpsertFilter int_truthy int_to_string int_of_value int_nan
      contact_schema ["constructor"] contact_data
    = Err ("Unknown property type " +:+ dquote +:+ "undefined" +:+ dquote
           +:+ " for property " +:+ dquote +:+ "constructor" +:+ dquote
           +:+ ".").
Proof. by vm_compute. Qed.

(** The strict scenario of the specification. *)
Lemma applySchemaChanges_strict_scenario :
  applySchemaChanges []
    (diffSchema [("foo", text "Foo" None); ("bar", text "Bar" None)] [])
    strict
  = Err "Unrecognized remote fields: foo, bar".
Proof. by vm_compute. Qed.

(** Without an array, a multi-select raises. *)
Lemma dehydrateValue_null_multi_select :
  dehydrateValue int_truthy plain_markdown (multiSelect "Tags" None) VNull
  = Err "TypeError: Cannot read properties of null (reading 'map')".
Proof. by vm_compute. Qed.


(** * Further properties *)
(** ** diffSchema: the shape of the result *)

Lemma modified_entry_shape (fromKey : string) (fromField : Field)
    (toKey : string) (toField : Field) :
  Forall (λ d, is_removed d = false)
    (modified_entry fromKey fromField toKey toField)
  ∧ diff_key <$> modified_entry fromKey fromField toKey toField
    `sublist_of` [toKey].
Proof.
  unfold modified_entry. case_bool_decide; simpl.
  - split; [by repeat constructor|done].
  - split; [constructor|]. apply sublist_nil_l.
Qed.

Lemma diff_loop_shape (ix : Lookups) (rest : Definition_) (st : DiffState) :
  ∃ upd,
    diffs (fold_left (diff_step ix) rest st) = diffs st ++ upd
    ∧ Forall (λ d, is_removed d = false) upd
    ∧ diff_key <$> upd `sublist_of` rest.*1.
Proof.
  revert st. induction rest as [|[k f] rest IH]; intros st.
  - exists []. by rewrite app_nil_r.
  - cbn [fold_left].
    destruct (IH (diff_step ix st (k, f))) as (upd & -> & Hu & Hs).
    unfold diff_step.
    destruct (findMatch _ _ k f) as [[k' f']|]; simpl.
    + destruct (modified_entry_shape k' f' k f) as [Hm1 Hm2].
      exists (modified_entry k' f' k f ++ upd).
      rewrite app_assoc. split; [done|]. split; [by apply Forall_app|].
      rewrite fmap_app. csimpl.
      by apply (sublist_app _ [k] _ (rest.*1)).
    + exists (DAdded k f :: upd).
      rewrite <- app_assoc. split; [done|]. split; [by constructor|].
      simpl. by apply sublist_skip.
Qed.

Lemma removed_entries_shape (processed : gset string) (l : Definition_) :
  Forall (λ d, is_removed d = true) (removed_entries processed l)
  ∧ diff_key <$> removed_entries processed l `sublist_of` l.*1.
Proof.
  induction l as [|[k f] l [IH1 IH2]]; [by split; [constructor|]|].
  simpl. case_bool_decide; simpl.
  - split; [done|]. by apply sublist_cons.
  - split; [by constructor|]. by apply sublist_skip.
Qed.

(** The entries of a diff come in two runs.  First the [Added] and
    [Modified] entries, at most one for each field of [to] and in the
    order of [to]; then the [Removed] entries, in the order of [from]. *)
Theorem diffSchema_order (from to : Definition_) :
  ∃ upd rem,
    diffSchema from to = upd ++ rem
    ∧ Forall (λ d, is_removed d = false) upd
    ∧ diff_key <$> upd `sublist_of` to.*1
    ∧ Forall (λ d, is_removed d = true) rem
    ∧ diff_key <$> rem `sublist_of` from.*1.
Proof.
  unfold diffSchema.
  destruct (diff_loop_shape (build_lookups from) to
              {| diffs := []; processedFromKeys := ∅ |})
    as (upd & Hd & Hu & Hs).
  simpl in Hd. rewrite Hd.
  destruct (removed_entries_shape
              (processedFromKeys
                 (fold_left (diff_step (build_lookups from)) to
                    {| diffs := []; processedFromKeys := ∅ |})) from)
    as [Hr1 Hr2].
  eauto 10.
Qed.

(** ** diffSchema: against the empty schema *)

Lemma findMatch_empty (processed : gset string) (k : string) (f : Field) :
  findMatch (build_lookups []) processed k f = None.
Proof.
  unfold findMatch, build_lookups. simpl.
  rewrite !lookup_empty. simpl.
  destruct (truthy (fid f)); simpl; [rewrite lookup_empty|];
    simpl; by destruct (bool_decide _).
Qed.

Lemma diff_loop_empty (to : Definition_) (st : DiffState) :
  fold_left (diff_step (build_lookups [])) to st
  = {| diffs := diffs st ++ ((λ e, DAdded e.1 e.2) <$> to);
       processedFromKeys := processedFromKeys st |}.
Proof.
  revert st. induction to as [|[k f] to IH]; intros st.
  - simpl. rewrite app_nil_r. by destruct st.
  - cbn [fold_left]. rewrite IH. unfold diff_step.
    rewrite findMatch_empty. simpl. by rewrite <- app_assoc.
Qed.

Lemma removed_entries_none (l : Definition_) :
  removed_entries ∅ l = (λ e, DRemoved e.1 e.2) <$> l.
Proof.
  induction l as [|[k f] l IH]; [done|]. simpl.
  rewrite bool_decide_eq_false_2 by set_solver. simpl. by f_equal.
Qed.

(** Against an empty schema nothing can be matched: every field of [to]
    is [Added] when [from] is empty, and every field of [from] is
    [Removed] when [to] is empty, in the order of the schema. *)
Theorem diffSchema_empty (schema : Definition_) :
  diffSchema [] schema = (λ e, DAdded e.1 e.2) <$> schema
  ∧ diffSchema schema [] = (λ e, DRemoved e.1 e.2) <$> schema.
Proof.
  split; unfold diffSchema.
  - rewrite diff_loop_empty. simpl. by rewrite app_nil_r.
  - simpl. apply removed_entries_none.
Qed.

(** ** diffSchema: where the entries come from *)

Lemma changes_sublist (fromKey : string) (fromField : Field)
    (toKey : string) (toField : Field) :
  compute_changes fromKey fromField toKey toField
  `sublist_of` ["key"; "label"; "type"].
Proof.
  unfold compute_changes.
  apply (sublist_app _ ["key"] _ ["label"; "type"]);
    [|apply (sublist_app _ ["label"] _ ["type"])];
    case_bool_decide; (done || apply sublist_nil_l).
Qed.

Lemma label_in_changes (fromKey : string) (fromField : Field)
    (toKey : string) (toField : Field) :
  "label" ∈ compute_changes fromKey fromField toKey toField
  ↔ label fromField ≠ label toField.
Proof.
  unfold compute_changes.
  rewrite !elem_of_app.
  repeat case_bool_decide;
    rewrite ?elem_of_nil, ?list_elem_of_singleton; naive_solver.
Qed.

Lemma type_in_changes (fromKey : string) (fromField : Field)
    (toKey : string) (toField : Field) :
  "type" ∈ compute_changes fromKey fromField toKey toField
  ↔ ftype fromField ≠ ftype toField.
Proof.
  unfold compute_changes.
  rewrite !elem_of_app.
  repeat case_bool_decide;
    rewrite ?elem_of_nil, ?list_elem_of_singleton; naive_solver.
Qed.

(** A diff speaks of the fields of its two schemas only.  An [Added]
    entry is a field of [to] and a [Removed] entry a field of [from],
    under its key.  A [Modified] entry pairs a field of [to] with a field
    of [from], and its change set lists, in the order key, label, type,
    exactly the dimensions in which the two differ. *)
Theorem diffSchema_entries (from to : Definition_) :
  (∀ k f, DAdded k f ∈ diffSchema from to → (k, f) ∈ to)
  ∧ (∀ k f, DRemoved k f ∈ diffSchema from to → (k, f) ∈ from)
  ∧ (∀ m, DModified m ∈ diffSchema from to →
       (m_key m, m_to m) ∈ to
       ∧ (source_key m, m_from m) ∈ from
       ∧ m_changes m `sublist_of` ["key"; "label"; "type"]
       ∧ ("key" ∈ m_changes m ↔ source_key m ≠ m_key m)
       ∧ ("label" ∈ m_changes m ↔ label (m_from m) ≠ label (m_to m))
       ∧ ("type" ∈ m_changes m ↔ ftype (m_from m) ≠ ftype (m_to m))).
Proof.
  pose proof (diffSchema_entries_ok from to) as Hall.
  rewrite Forall_forall in Hall.
  split; [|split].
  - intros k f Hin. by apply Hall in Hin.
  - intros k f Hin. by apply Hall in Hin.
  - intros m Hin. apply Hall in Hin.
    destruct Hin as (Hto & _ & _ & k0 & Hfrom & Hch & Hfk).
    assert (source_key m = k0) as Hsrc.
    { unfold source_key. rewrite Hfk. by case_bool_decide. }
    rewrite Hsrc, Hch.
    split; [done|]. split; [done|]. split; [apply changes_sublist|].
    split; [apply key_in_changes|].
    split; [apply label_in_changes|apply type_in_changes].
Qed.

(** ** diffSchema: every field is counted once *)

Lemma added_of_app (a b : list Diff) :
  added_of (a ++ b) = added_of a ++ added_of b.
Proof. apply omap_app. Qed.

Lemma removed_of_app (a b : list Diff) :
  removed_of (a ++ b) = removed_of a ++ removed_of b.
Proof. apply omap_app. Qed.

Lemma modified_of_app (a b : list Diff) :
  modified_of (a ++ b) = modified_of a ++ modified_of b.
Proof. apply omap_app. Qed.

Lemma modified_entry_parts (fromKey : string) (fromField : Field)
    (toKey : string) (toField : Field) :
  added_of (modified_entry fromKey fromField toKey toField) = []
  ∧ removed_of (modified_entry fromKey fromField toKey toField) = []
  ∧ Forall (λ m, source_key m = fromKey)
      (modified_of (modified_entry fromKey fromField toKey toField))
  ∧ (length (modified_of (modified_entry fromKey fromField toKey toField))
     ≤ 1)%nat.
Proof.
  unfold modified_entry. case_bool_decide; simpl.
  - repeat split; [|lia]. repeat constructor.
    unfold source_key. simpl. by case_bool_decide.
  - repeat split; [constructor|lia].
Qed.

(** What the main loop keeps: the keys consumed are keys of [from], each
    field of [to] met so far is [Added] or has consumed one key, nothing
    is [Removed] yet, and the [Modified] entries come from pairwise
    distinct consumed keys. *)
Lemma diff_step_count (from : Definition_) (st : DiffState)
    (entry : string * Field) :
  let st' := diff_step (build_lookups from) st entry in
  processedFromKeys st ⊆ list_to_set from.*1 →
  removed_of (diffs st) = [] →
  NoDup (source_key <$> modified_of (diffs st)) →
  (∀ k, k ∈ source_key <$> modified_of (diffs st) → k ∈ processedFromKeys st) →
  processedFromKeys st' ⊆ list_to_set from.*1
  ∧ (length (added_of (diffs st')) + size (processedFromKeys st')
     = length (added_of (diffs st)) + size (processedFromKeys st) + 1)%nat
  ∧ removed_of (diffs st') = []
  ∧ NoDup (source_key <$> modified_of (diffs st'))
  ∧ (∀ k, k ∈ source_key <$> modified_of (diffs st') →
          k ∈ processedFromKeys st').
Proof.
  destruct entry as [k f]. simpl. intros Hsub Hrem Hnd Hin.
  destruct (findMatch _ _ k f) as [[k' f']|] eqn:Hm; simpl.
  - apply findMatch_Some in Hm as [Hfrom Hfresh].
    destruct (modified_entry_parts k' f' k f) as (Ha & Hr & Hs & Hl).
    rewrite Forall_forall in Hs.
    split; [|split; [|split; [|split]]].
    + apply union_subseteq. split; [|done].
      apply singleton_subseteq_l, elem_of_list_to_set.
      apply list_elem_of_fmap. by exists (k', f').
    + rewrite added_of_app, Ha, app_nil_r.
      rewrite size_union by set_solver. rewrite size_singleton. lia.
    + by rewrite removed_of_app, Hrem, Hr.
    + rewrite modified_of_app, fmap_app. apply NoDup_app.
      split; [done|]. split.
      * intros x Hx Hx'. apply Hin in Hx.
        apply list_elem_of_fmap in Hx' as (m & -> & Hm').
        rewrite (Hs m Hm') in Hx. done.
      * destruct (modified_of (modified_entry k' f' k f)) as [|m [|]];
          simpl in *; [constructor|by apply NoDup_singleton|lia].
    + intros x. rewrite modified_of_app, fmap_app, elem_of_app.
      intros [Hx|Hx]; [apply Hin in Hx; set_solver|].
      apply list_elem_of_fmap in Hx as (m & -> & Hm').
      rewrite (Hs m Hm'). set_solver.
  - split; [done|]. split; [|split; [|split]].
    + rewrite added_of_app, length_app. simpl. lia.
    + by rewrite removed_of_app, Hrem.
    + by rewrite modified_of_app, app_nil_r.
    + intros x. rewrite modified_of_app, app_nil_r. apply Hin.
Qed.

(** What the main loop keeps: the keys consumed are keys of [from], each
    field of [to] met so far is [Added] or has consumed one key, nothing
    is [Removed] yet, and the [Modified] entries come from pairwise
    distinct consumed keys. *)
Lemma diff_loop_count (from rest : Definition_) (st : DiffState) :
  let st' := fold_left (diff_step (build_lookups from)) rest st in
  processedFromKeys st ⊆ list_to_set from.*1 →
  removed_of (diffs st) = [] →
  NoDup (source_key <$> modified_of (diffs st)) →
  (∀ k, k ∈ source_key <$> modified_of (diffs st) → k ∈ processedFromKeys st) →
  processedFromKeys st' ⊆ list_to_set from.*1
  ∧ (length (added_of (diffs st')) + size (processedFromKeys st')
     = length (added_of (diffs st)) + size (processedFromKeys st)
       + length rest)%nat
  ∧ removed_of (diffs st') = []
  ∧ NoDup (source_key <$> modified_of (diffs st'))
  ∧ (∀ k, k ∈ source_key <$> modified_of (diffs st') →
          k ∈ processedFromKeys st').
Proof.
  revert st. induction rest as [|e rest IH]; intros st; cbn [fold_left].
  - simpl. intros. repeat split; (done || lia).
  - intros Hsub Hrem Hnd Hin.
    destruct (diff_step_count from st e Hsub Hrem Hnd Hin)
      as (H1 & H2 & H3 & H4 & H5).
    destruct (IH _ H1 H3 H4 H5) as (G1 & G2 & G3 & G4 & G5).
    split; [done|]. split; [|done]. rewrite G2, H2. simpl. lia.
Qed.

Lemma removed_entries_keys (processed : gset string) (l : Definition_) :
  (removed_of (removed_entries processed l)).*1
  = filter (λ k, k ∉ processed) l.*1
  ∧ added_of (removed_entries processed l) = []
  ∧ modified_of (removed_entries processed l) = [].
Proof.
  induction l as [|[k f] l (IH1 & IH2 & IH3)]; [done|]. simpl.
  rewrite filter_cons. simpl.
  rewrite added_of_app, removed_of_app, modified_of_app, fmap_app.
  rewrite IH1, IH2, IH3.
  case_bool_decide; case_decide; done.
Qed.

Lemma consumed_count (processed : gset string) (keys : list string) :
  NoDup keys → processed ⊆ list_to_set keys →
  (length (filter (λ k, k ∉ processed) keys) + size processed
   = length keys)%nat.
Proof.
  intros Hnd Hsub.
  assert (size processed = length (filter (λ k, k ∈ processed) keys)) as ->.
  { rewrite <- (size_list_to_set (C := gset string))
      by by apply NoDup_filter.
    f_equal. apply set_eq. intros x.
    rewrite elem_of_list_to_set, list_elem_of_filter.
    split; [|by intros []].
    intros Hx. split; [done|].
    apply Hsub in Hx. by apply elem_of_list_to_set in Hx. }
  clear Hsub Hnd. induction keys as [|k keys IH]; [done|].
  rewrite !filter_cons. repeat case_decide; simpl in *; (done || lia).
Qed.

(** Every field is accounted for once.  Each field of [to] is [Added] or
    consumes one field of [from], and each field of [from] is consumed
    or [Removed]: the [Added] entries and the fields of [from] are as
    many as the [Removed] entries and the fields of [to].  No field of
    [from] is the source of two [Modified] entries, nor [Removed] and
    the source of one. *)
Theorem diffSchema_conservation (from to : Definition_) :
  NoDup from.*1 →
  (length (added_of (diffSchema from to)) + length from
   = length (removed_of (diffSchema from to)) + length to)%nat
  ∧ NoDup ((source_key <$> modified_of (diffSchema from to))
           ++ (removed_of (diffSchema from to)).*1).
Proof.
  intros Hnd. unfold diffSchema.
  pose proof (diff_loop_count from to
                {| diffs := []; processedFromKeys := ∅ |}) as Hloop.
  cbv zeta in Hloop. cbn [diffs processedFromKeys] in Hloop.
  destruct Hloop as (Hsub & Hcount & Hrem & Hsrc & Hin);
    [set_solver|done|constructor|by intros ? ?%elem_of_nil|].
  set (st := fold_left (diff_step (build_lookups from)) to
               {| diffs := []; processedFromKeys := ∅ |}) in *.
  destruct (removed_entries_keys (processedFromKeys st) from)
    as (Hk & Ha & Hm).
  pose proof (consumed_count (processedFromKeys st) from.*1 Hnd Hsub) as Hc.
  rewrite added_of_app, removed_of_app, modified_of_app, Ha, Hm, Hrem.
  rewrite !app_nil_r. simpl. rewrite Hk.
  split.
  - rewrite <- (length_fmap fst (removed_of _)), Hk.
    rewrite length_fmap in Hc. rewrite size_empty in Hcount. simpl in Hcount. lia.
  - apply NoDup_app. split; [done|]. split; [|by apply NoDup_filter].
    intros x Hx Hx'. apply Hin in Hx.
    apply list_elem_of_filter in Hx' as [Hx' _]. done.
Qed.

(** ** diffSchema: a local schema the remote covers *)

Lemma findMatch_covered (from : Definition_) (processed : gset string)
    (k : string) (fa fb : Field) :
  NoDup from.*1 → (k, fa) ∈ from → k ∉ processed →
  truthy (fid fb) = None →
  findMatch (build_lookups from) processed k fb = Some (k, fa).
Proof.
  intros Hnd Hin Hk Hid. unfold findMatch. rewrite Hid. simpl.
  rewrite lookup_fromByKey.
  rewrite (last_indexed_at_unique by_key from k (k, fa));
    [|by rewrite keys_omap|done..].
  simpl. by rewrite bool_decide_eq_false_2.
Qed.

Lemma diff_loop_covered (from rest : Definition_) (st : DiffState) :
  NoDup from.*1 → NoDup rest.*1 → covered from rest →
  (∀ k, k ∈ rest.*1 → k ∉ processedFromKeys st) →
  fold_left (diff_step (build_lookups from)) rest st
  = {| diffs := diffs st;
       processedFromKeys := list_to_set rest.*1 ∪ processedFromKeys st |}.
Proof.
  intros Hfrom. revert st.
  induction rest as [|[k fb] rest IH]; intros st Hnd Hcov Hfresh.
  { simpl. destruct st. f_equal. set_solver. }
  cbn [fmap list_fmap] in Hnd. apply NoDup_cons in Hnd as [Hk Hnd].
  destruct (Hcov k fb) as (Hid & fa & Hin & Hl & Ht); [left|].
  cbn [fold_left]. unfold diff_step at 2.
  rewrite (findMatch_covered from _ k fa fb) by (done || apply Hfresh; left).
  rewrite IH; [| done | intros ? ? ?; apply Hcov; by right |].
  - cbn [diffs processedFromKeys].
    assert (modified_entry k fa k fb = []) as ->.
    { unfold modified_entry, compute_changes.
      rewrite (bool_decide_eq_false_2 (k ≠ k)) by (intros H; by apply H).
      rewrite (bool_decide_eq_false_2 (label fa ≠ label fb))
        by (intros H; by apply H).
      rewrite (bool_decide_eq_false_2 (ftype fa ≠ ftype fb))
        by (intros H; by apply H).
      done. }
    rewrite app_nil_r. f_equal. csimpl. set_solver.
  - cbn [processedFromKeys]. intros k' Hk' [->%elem_of_singleton|Hin']%elem_of_union;
      [done|]. apply (Hfresh k'); [by right|done].
Qed.

Lemma removed_entries_filter (processed : gset string) (l : Definition_) :
  removed_entries processed l
  = (λ e, DRemoved e.1 e.2) <$> filter (λ e, e.1 ∉ processed) l.
Proof.
  induction l as [|[k f] l IH]; [done|]. simpl. rewrite filter_cons, IH.
  simpl. case_bool_decide; case_decide; done.
Qed.

Lemma diffSchema_covered_eq (remote schema : Definition_) :
  NoDup remote.*1 → NoDup schema.*1 → covered remote schema →
  diffSchema remote schema
  = (λ e, DRemoved e.1 e.2) <$> remote_only remote schema.
Proof.
  intros Hr Hs Hcov. unfold diffSchema.
  rewrite diff_loop_covered by (done || set_solver).
  cbn [diffs processedFromKeys app]. rewrite removed_entries_filter.
  f_equal. unfold remote_only. apply list_filter_iff. intros [k f].
  set_solver.
Qed.

(** A local schema without ids whose fields stand at the keys of remote
    fields of the same label and type differs from the remote schema by
    the remote-only fields alone: the diff is one [Removed] entry for
    each of them, in the order of the remote, and it is empty when the
    remote has no other key.  Options, formats and expressions are not
    compared. *)
Theorem diffSchema_covered (remote schema : Definition_) :
  NoDup remote.*1 → NoDup schema.*1 → covered remote schema →
  diffSchema remote schema
  = (λ e, DRemoved e.1 e.2) <$> remote_only remote schema
  ∧ ((∀ key, key ∈ remote.*1 → key ∈ schema.*1) →
     diffSchema remote schema = []).
Proof.
  intros Hr Hs Hcov. rewrite diffSchema_covered_eq by done.
  split; [done|]. intros Hkeys.
  unfold remote_only. rewrite filter_none; [done|].
  intros [k f] Hin Hk. apply Hk, Hkeys. by apply (list_elem_of_fmap_2 fst) in Hin.
Qed.

(** ** toPropertiesDefinition *)

Lemma definition_loop (schema l : Definition_)
    (m : gmap string DefinitionInput) (lb : string) :
  (∀ e, e ∈ l → get schema e.1 = Some e.2) →
  fold_left (definition_step schema) l.*1 m !! lb
  = if bool_decide (lb = "__proto__") then m !! lb
    else match last (indexed_at by_label lb l) with
         | Some e => Some (toPropertyDefinition e.2)
         | None => m !! lb
         end.
Proof.
  induction l as [|[k f] l IH] using rev_ind; intros Hl.
  { simpl. by destruct (bool_decide _). }
  rewrite fmap_app, fold_left_app. cbn [fmap list_fmap fold_left fst].
  pose proof (Hl (k, f)) as Hget. cbn [fst snd] in Hget.
  unfold definition_step at 1. rewrite Hget by (apply elem_of_app; right; left).
  rewrite put_lookup.
  rewrite IH by (intros; apply Hl; apply elem_of_app; by left).
  destruct (decide (lb = "__proto__")) as [->|Hproto].
  { rewrite (bool_decide_eq_false_2 (_ ∧ _)) by (by intros [_ ?]).
    by rewrite !(bool_decide_eq_true_2 ("__proto__" = "__proto__")). }
  rewrite !(bool_decide_eq_false_2 _ Hproto).
  unfold indexed_at. rewrite filter_app, filter_cons, filter_nil.
  destruct (decide (label f = lb)) as [<-|Hne].
  - rewrite bool_decide_eq_true_2 by done.
    rewrite decide_True by done. by rewrite last_snoc.
  - rewrite bool_decide_eq_false_2 by (by intros [? _]).
    rewrite decide_False by (unfold by_label; cbn [snd]; congruence).
    by rewrite app_nil_r.
Qed.

(** [toPropertiesDefinition] files every field under its label, but a
    field labelled [__proto__], which leaves no property: the assignment
    sets the prototype of the result.  A label reads the definition of
    the last field that carries it, so of two fields with one label only
    the later one is sent; the labels of the result are those of the
    schema other than [__proto__]; and when the labels are pairwise
    distinct every field not labelled [__proto__] is there, with its own
    definition. *)
Theorem toPropertiesDefinition_labels (schema : Definition_) :
  NoDup schema.*1 →
  (∀ l, l ≠ "__proto__" →
        toPropertiesDefinition schema !! l
        = (λ e, toPropertyDefinition e.2)
            <$> last (indexed_at by_label l schema))
  ∧ toPropertiesDefinition schema !! "__proto__" = None
  ∧ (∀ l, is_Some (toPropertiesDefinition schema !! l)
          ↔ l ∈ labels_of schema ∧ l ≠ "__proto__")
  ∧ (NoDup (labels_of schema) →
     ∀ k f, (k, f) ∈ schema → label f ≠ "__proto__" →
       toPropertiesDefinition schema !! label f
       = Some (toPropertyDefinition f)).
Proof.
  intros Hnd.
  assert (∀ l, toPropertiesDefinition schema !! l
               = if bool_decide (l = "__proto__") then None
                 else (λ e, toPropertyDefinition e.2)
                        <$> last (indexed_at by_label l schema)) as Hlook.
  { intros l. unfold toPropertiesDefinition.
    rewrite definition_loop
      by (intros [k f] Hin; by apply get_elem_of).
    rewrite lookup_empty. by destruct (last _). }
  split; [|split; [|split]].
  - intros l Hl. by rewrite Hlook, bool_decide_eq_false_2.
  - by rewrite Hlook, bool_decide_eq_true_2.
  - intros l. rewrite Hlook. case_bool_decide as Hproto.
    { split; [by intros [? ?]|by intros [_ ?]]. }
    rewrite fmap_is_Some. unfold labels_of.
    rewrite list_elem_of_fmap. split.
    + intros [e He]. apply last_indexed_at in He as [He Hl].
      unfold by_label in Hl. split; [|done]. exists e. by simplify_eq.
    + intros [(e & -> & He) _].
      destruct (last (indexed_at by_label (label e.2) schema)) eqn:E; [done|].
      apply last_None in E.
      assert (e ∈ indexed_at by_label (label e.2) schema) as Hin
        by by apply list_elem_of_filter.
      rewrite E in Hin. by apply elem_of_nil in Hin.
  - intros Hlabels k f Hin Hproto. rewrite Hlook.
    rewrite bool_decide_eq_false_2 by done.
    assert (NoDup (omap by_label schema)) as Hnd'.
    { clear -Hlabels. unfold labels_of in Hlabels.
      induction schema as [|e s IH]; [constructor|].
      cbn [fmap list_fmap omap list_omap] in *. unfold by_label at 1.
      apply NoDup_cons in Hlabels as [H1 H2].
      apply NoDup_cons. split; [|auto].
      intros Hin. apply H1.
      apply list_elem_of_omap in Hin as (e' & He' & Hl).
      unfold by_label in Hl. simplify_eq.
      apply list_elem_of_fmap. eauto. }
    by rewrite (last_indexed_at_unique by_label schema (label f) (k, f)).
Qed.

(** ** applySchemaChanges: what the payload holds *)

Lemma fmap_put {V W : Type} (g : V → W) (key : string) (v : V)
    (m : gmap string V) :
  g <$> put key v m = put key (g v) (g <$> m).
Proof. unfold put. destruct (String.eqb _ _); [done|]. by rewrite fmap_insert. Qed.

Lemma apply_added_loop (ls l : Definition_)
    (m : gmap string DefinitionInput) :
  (∀ e, e ∈ l → is_Some (get ls e.1)) →
  for_each (apply_added ls) l (Some <$> m)
  = Ok (Some <$> fold_left (definition_step ls) l.*1 m).
Proof.
  revert m. induction l as [|[k f] l IH]; intros m Hl; [done|].
  cbn [fmap list_fmap fold_left for_each fst].
  destruct (Hl (k, f)) as [field Hget]; [left|]. cbn [fst] in Hget.
  assert (definition_step ls m k
          = put (label field) (toPropertyDefinition field) m) as ->
    by (unfold definition_step; by rewrite Hget).
  unfold apply_added at 1, member. cbn [fst].
  rewrite Hget, <- fmap_put. apply IH. intros e He. apply Hl. by right.
Qed.

Lemma added_of_fmap (l : Definition_) :
  added_of ((λ e, DAdded e.1 e.2) <$> l) = l
  ∧ removed_of ((λ e, DAdded e.1 e.2) <$> l) = []
  ∧ modified_of ((λ e, DAdded e.1 e.2) <$> l) = [].
Proof.
  induction l as [|[k f] l (IH1 & IH2 & IH3)]; [done|].
  unfold added_of, removed_of, modified_of in *. csimpl.
  by rewrite IH1, IH2, IH3.
Qed.

Lemma get_is_Some (schema : Definition_) (e : string * Field) :
  e ∈ schema → is_Some (get schema e.1).
Proof.
  induction schema as [|[k f] schema IH]; intros Hin.
  { by apply elem_of_nil in Hin. }
  simpl. destruct (String.eqb_spec k e.1) as [_|Hne]; [by eexists|].
  apply IH. apply elem_of_cons in Hin as [->|Hin]; [done|done].
Qed.

(** Creating a table is synchronising with nothing: the changes from
    the empty schema to [schema], applied under any strategy, are the
    definitions [toPropertiesDefinition] sends for [schema]. *)
Theorem applySchemaChanges_creates (schema : Definition_)
    (strategy : ConflictStrategy) :
  applySchemaChanges schema (diffSchema [] schema) strategy
  = Ok (Some <$> toPropertiesDefinition schema).
Proof.
  rewrite applySchemaChanges_unfold.
  assert (diffSchema [] schema = (λ e, DAdded e.1 e.2) <$> schema) as ->.
  { unfold diffSchema. rewrite diff_loop_empty. simpl. by rewrite app_nil_r. }
  destruct (added_of_fmap schema) as (Ha & Hr & Hm).
  rewrite Hr. unfold upserts. rewrite Ha, Hm.
  rewrite <- (fmap_empty Some), apply_added_loop
    by (intros; by apply get_is_Some).
  simpl. by destruct strategy.
Qed.

Lemma added_loop_values (ls : Definition_) (l : list (string * Field))
    (r r' : gmap string (option DefinitionInput)) (lb : string)
    (o : option DefinitionInput) :
  for_each (apply_added ls) l r = Ok r' →
  r' !! lb = Some o →
  r !! lb = Some o
  ∨ ∃ k f0 field,
      (k, f0) ∈ l ∧ get ls k = Some field ∧ lb = label field
      ∧ o = Some (toPropertyDefinition field).
Proof.
  revert r. induction l as [|[k f0] l IH]; intros r Hloop H.
  { injection Hloop as <-. by left. }
  cbn [for_each] in Hloop.
  destruct (apply_added ls r (k, f0)) as [r1|] eqn:Hstep; [|done].
  destruct (IH r1 Hloop H) as [H1|H1].
  - unfold apply_added, member in Hstep. cbn [fst] in Hstep.
    destruct (get ls k) as [field|] eqn:Hget.
    + injection Hstep as <-. rewrite put_lookup in H1.
      case_bool_decide as Hl; [|by left].
      destruct Hl as [<- _]. injection H1 as <-.
      right. exists k, f0, field. split; [left|done].
    + destruct (bool_decide _); [done|]. injection Hstep as <-. by left.
  - right. destruct H1 as (k' & f' & field & Hin & ?).
    exists k', f', field. split; [by right|done].
Qed.

Lemma modified_loop_values (ls : Definition_) (ms : list Modified)
    (r r' : gmap string (option DefinitionInput)) (lb : string)
    (o : option DefinitionInput) :
  for_each (apply_modified ls) ms r = Ok r' →
  r' !! lb = Some o →
  r !! lb = Some o
  ∨ ∃ m field,
      m ∈ ms ∧ get ls (m_key m) = Some field
      ∧ written_label ls m = Some lb
      ∧ o = Some (modified_definition field m).
Proof.
  revert r. induction ms as [|m ms IH]; intros r Hloop H.
  { injection Hloop as <-. by left. }
  cbn [for_each] in Hloop.
  destruct (apply_modified ls r m) as [r1|] eqn:Hstep; [|done].
  destruct (IH r1 Hloop H) as [H1|H1].
  - rewrite (apply_modified_lookup _ _ _ _ _ Hstep) in H1.
    case_bool_decide as Hw; [|by left]. destruct Hw as [Hw _].
    destruct (get ls (m_key m)) as [field|] eqn:Hget; [|done].
    simpl in H1. injection H1 as <-.
    right. exists m, field. split; [left|done].
  - right. destruct H1 as (m' & field & Hin & ?).
    exists m', field. split; [by right|done].
Qed.

(** What a label reads after the removed labels are deleted: a [null]
    one of them wrote, or what it read before. *)
Lemma put_null_values {V : Type} (rs : list (string * Field))
    (object : gmap string (option V) * bool) (l : string) (o : option V) :
  (fold_left (λ ob d, put_null (label d.2) ob) rs object).1 !! l = Some o →
  object.1 !! l = Some o
  ∨ (o = None ∧ l ∈ (λ d, label d.2) <$> rs).
Proof.
  revert object. induction rs as [|[k f] rs IH]; intros object H; [by left|].
  cbn [fold_left] in H. apply IH in H as [H|[-> H]].
  - unfold put_null in H. cbn [snd] in H.
    destruct (String.eqb (label f) "__proto__" && negb object.2);
      [by left|]. cbn [fst] in H.
    destruct (decide (label f = l)) as [<-|Hne].
    + rewrite lookup_insert_eq in H. injection H as <-.
      right. split; [done|]. left.
    + rewrite lookup_insert_ne in H by done. by left.
  - right. split; [done|]. by right.
Qed.

Lemma elem_of_added_of (diffs : list Diff) (k : string) (f : Field) :
  (k, f) ∈ added_of diffs ↔ DAdded k f ∈ diffs.
Proof.
  unfold added_of. rewrite list_elem_of_omap. split.
  - intros ([] & Hin & ?); by simplify_eq.
  - intros Hin. by exists (DAdded k f).
Qed.

Lemma elem_of_removed_of (diffs : list Diff) (k : string) (f : Field) :
  (k, f) ∈ removed_of diffs ↔ DRemoved k f ∈ diffs.
Proof.
  unfold removed_of. rewrite list_elem_of_omap. split.
  - intros ([] & Hin & ?); by simplify_eq.
  - intros Hin. by exists (DRemoved k f).
Qed.

Lemma elem_of_modified_of (diffs : list Diff) (m : Modified) :
  m ∈ modified_of diffs ↔ DModified m ∈ diffs.
Proof.
  unfold modified_of. rewrite list_elem_of_omap. split.
  - intros ([] & Hin & ?); by simplify_eq.
  - intros Hin. by exists (DModified m).
Qed.

(** Every entry of the payload is accounted for by a diff.  A [null]
    is written under [overwrite] only, for the label of a [Removed]
    field.  A definition is built from the field the local schema holds
    at the key of an [Added] or a [Modified] diff, never from the field
    the diff itself carries, and it has that local field's type. *)
Theorem applySchemaChanges_payload (ls : Definition_) (diffs : list Diff)
    (strategy : ConflictStrategy)
    (updates : gmap string (option DefinitionInput)) :
  applySchemaChanges ls diffs strategy = Ok updates →
  (∀ l, updates !! l = Some None →
        strategy = overwrite ∧ ∃ k f, DRemoved k f ∈ diffs ∧ label f = l)
  ∧ (∀ l d, updates !! l = Some (Some d) →
       (∃ k f field,
          DAdded k f ∈ diffs ∧ get ls k = Some field
          ∧ l = label field ∧ d = toPropertyDefinition field
          ∧ d_type d = ftype field)
       ∨ (∃ m field,
            DModified m ∈ diffs ∧ get ls (m_key m) = Some field
            ∧ written_label ls m = Some l
            ∧ d = modified_definition field m
            ∧ d_type d = ftype field)).
Proof.
  intros Hres. rewrite applySchemaChanges_unfold in Hres.
  destruct (upserts ls diffs) as [payload|] eqn:Hpayload; [|done].
  assert (∀ l o, payload !! l = Some o →
            (∃ k f field,
               DAdded k f ∈ diffs ∧ get ls k = Some field
               ∧ l = label field ∧ o = Some (toPropertyDefinition field))
            ∨ (∃ m field,
                 DModified m ∈ diffs ∧ get ls (m_key m) = Some field
                 ∧ written_label ls m = Some l
                 ∧ o = Some (modified_definition field m))) as Hup.
  { intros l o H. unfold upserts in Hpayload.
    destruct (for_each (apply_added ls) _ ∅) as [u|] eqn:Hadded; [|done].
    destruct (modified_loop_values _ _ _ _ _ _ Hpayload H)
      as [H1|(m & field & Hin & ?)].
    - destruct (added_loop_values _ _ _ _ _ _ Hadded H1)
        as [H2|(k & f & field & Hin & ?)];
        [by rewrite lookup_empty in H2|].
      left. exists k, f, field. by rewrite <- elem_of_added_of.
    - right. exists m, field. by rewrite <- elem_of_modified_of. }
  assert (∀ field, d_type (toPropertyDefinition field) = ftype field) as Ht1.
  { intros field. unfold toPropertyDefinition. by destruct (kind field). }
  assert (∀ field m, d_type (modified_definition field m) = ftype field)
    as Ht2.
  { intros field m. unfold modified_definition.
    destruct (truthy _), (bool_decide _); simpl; apply Ht1. }
  assert (∀ l d, payload !! l = Some (Some d) →
       (∃ k f field,
          DAdded k f ∈ diffs ∧ get ls k = Some field
          ∧ l = label field ∧ d = toPropertyDefinition field
          ∧ d_type d = ftype field)
       ∨ (∃ m field,
            DModified m ∈ diffs ∧ get ls (m_key m) = Some field
            ∧ written_label ls m = Some l
            ∧ d = modified_definition field m
            ∧ d_type d = ftype field)) as Hdef.
  { intros l d H. apply Hup in H as [(k & f & field & ? & ? & ? & ?)
                                     |(m & field & ? & ? & ? & ?)];
      simplify_eq.
    - left. exists k, f, field. by rewrite Ht1.
    - right. exists m, field. by rewrite Ht2. }
  assert (∀ l, payload !! l ≠ Some None) as Hnonull.
  { intros l H. apply Hup in H as [(? & ? & ? & ? & ? & ? & ?)
                                   |(? & ? & ? & ? & ? & ?)]; done. }
  destruct (removed_of diffs) as [|r rs] eqn:Hrem.
  { assert (updates = payload) as -> by (destruct strategy; congruence).
    split; [|done]. intros l H. by apply Hnonull in H. }
  destruct strategy; [| |done].
  - injection Hres as <-. split; [|done]. intros l H. by apply Hnonull in H.
  - injection Hres as <-. split.
    + intros l H. split; [done|].
      apply put_null_values in H as [H|[_ Hin]]; [by apply Hnonull in H|].
      apply list_elem_of_fmap in Hin as ([k f] & -> & Hin).
      rewrite <- Hrem in Hin. apply elem_of_removed_of in Hin. eauto.
    + intros l d H.
      apply put_null_values in H as [H|[? _]]; [by apply Hdef|done].
Qed.

(** [applySchemaChanges] throws what [toPropertyDefinition] throws on a
    value without [type], under every strategy, exactly when the key of
    an [Added] or [Modified] diff is absent from the local schema and
    names a member of [Object.prototype]: [localSchema[key]] then reads
    that member.  Absent keys of any other name are skipped. *)
Theorem applySchemaChanges_inherited (ls : Definition_)
    (diffs : list Diff) (strategy : ConflictStrategy) :
  applySchemaChanges ls diffs strategy
  = Err "Unsupported field type: undefined"
  ↔ Exists (λ key, get ls key = None ∧ key ∈ object_prototype)
      (upserted_keys diffs).
Proof.
  assert (¬ Forall (reads_field ls) (upserted_keys diffs)
          ↔ Exists (λ key, get ls key = None ∧ key ∈ object_prototype)
              (upserted_keys diffs)) as <-.
  { rewrite <- Exists_Forall_neg
      by (intros x; destruct (decide (reads_field ls x)); auto).
    apply Exists_proper; [|done]. intros key. unfold reads_field, member.
    destruct (get ls key); [naive_solver|].
    case_bool_decide; naive_solver. }
  rewrite applySchemaChanges_unfold.
  destruct (upserts_cases ls diffs) as [[Hall [payload ->]]|[Hn ->]];
    [|done].
  split; [|done]. intros Herr. exfalso.
  destruct (removed_of diffs), strategy; done.
Qed.

(** ** Objects written key by key *)

Lemma obj_set_keys {A : Type} (key : string) (a : A)
    (object : list (string * A)) :
  (obj_set key a object).*1
  = if bool_decide (key ∈ object.*1) then object.*1 else object.*1 ++ [key].
Proof.
  induction object as [|[k b] object IH]; [done|].
  simpl. destruct (String.eqb_spec k key) as [->|Hne].
  - rewrite bool_decide_eq_true_2 by left. done.
  - cbn [fmap list_fmap]. rewrite IH. cbn [fst].
    destruct (decide (key ∈ object.*1)) as [Hin|Hin].
    + rewrite !bool_decide_eq_true_2; [done|by right|done].
    + rewrite !bool_decide_eq_false_2; [done| |done].
      intros [?|?]%elem_of_cons; [congruence|done].
Qed.

Lemma obj_set_NoDup {A : Type} (key : string) (a : A)
    (object : list (string * A)) :
  NoDup object.*1 → NoDup (obj_set key a object).*1.
Proof.
  intros Hnd. rewrite obj_set_keys. case_bool_decide as Hin; [done|].
  apply NoDup_app. split; [done|]. split; [|apply NoDup_singleton].
  intros x Hx ->%list_elem_of_singleton. done.
Qed.

Lemma elem_of_obj_set {A : Type} (key : string) (a : A)
    (object : list (string * A)) (k : string) (b : A) :
  NoDup object.*1 →
  (k, b) ∈ obj_set key a object
  ↔ (k = key ∧ b = a) ∨ (k ≠ key ∧ (k, b) ∈ object).
Proof.
  induction object as [|[k' b'] object IH]; intros Hnd.
  - simpl. rewrite list_elem_of_singleton, elem_of_nil. naive_solver.
  - cbn [fmap list_fmap] in Hnd. apply NoDup_cons in Hnd as [Hk' Hnd].
    simpl. destruct (String.eqb_spec k' key) as [->|Hne].
    + rewrite !elem_of_cons. split.
      * intros [[= -> ->]|Hin]; [by left|]. right. split; [|by right].
        intros ->. apply Hk'. by apply (list_elem_of_fmap_2 fst) in Hin.
      * intros [[-> ->]|[Hne [[= ? ?]|Hin]]]; [by left|done|by right].
    + rewrite !elem_of_cons, IH by done. split.
      * intros [[= -> ->]|[[-> ->]|[? ?]]];
          [right; split; [done|by left]|by left|].
        right. split; [done|by right].
      * intros [[-> ->]|[? [[= -> ->]|?]]];
          [right; by left|by left|]. right. by right.
Qed.

(** Writing a list of entries one after the other: a key reads what the
    last entry under it wrote. *)
Lemma obj_sets_spec {A : Type} (entries : list (string * A)) :
  let object := fold_left (λ o e, obj_set e.1 e.2 o) entries [] in
  NoDup object.*1
  ∧ (∀ k b, (k, b) ∈ object
            ↔ last (filter (λ e, e.1 = k) entries) = Some (k, b))
  ∧ (NoDup entries.*1 → object = entries).
Proof.
  induction entries as [|[k a] entries (IH1 & IH2 & IH3)] using rev_ind.
  { simpl. split; [constructor|]. split; [|done].
    intros k b. rewrite elem_of_nil. done. }
  cbv zeta. rewrite fold_left_app. cbn [fold_left fst snd].
  split; [by apply obj_set_NoDup|]. split.
  - intros k' b. rewrite elem_of_obj_set by done.
    rewrite filter_app, filter_cons, filter_nil. cbn [fst].
    destruct (decide (k = k')) as [->|Hne].
    + rewrite last_snoc. naive_solver.
    + rewrite app_nil_r, IH2. naive_solver.
  - rewrite fmap_app. intros Hnd. apply NoDup_app in Hnd as (Hnd & Hfresh & _).
    rewrite IH3 by done. apply obj_set_fresh.
    intros Hin. apply (Hfresh k Hin). left.
Qed.

Section dehydrate_facts.
Context {number : Type}.
Variable number_truthy : number → bool.
Variable number_to_string : number → string.
Variable fromMarkdown : string → list RootContent.

(** ** dehydrate *)

Lemma dehydrateValue_raises_iff (field : Field) (v : @value number) :
  (∃ message, dehydrateValue number_truthy fromMarkdown field v = Err message)
  ↔ ftype field ∈ [T_multi_select; T_relation; T_people]
    ∧ is_array v = false.
Proof.
  unfold dehydrateValue, array_map, ftype.
  destruct (kind field) as
    [| |fmt|o|o|g| | | | | | | |e|ds md|rp up fn| | | | |pf];
    try (split;
         [intros [? H]; by try destruct (negb _)
         |intros [Ht _];
          by repeat (apply elem_of_cons in Ht as [Ht|Ht]; [done|]);
             apply elem_of_nil in Ht]).
  all: destruct v; simpl; split;
    try (by intros [? [=]]); try (by intros [_ [=]]);
    (intros _; split; [|done]) || (intros _; eauto).
  all: repeat first [by left|right].
Qed.

Lemma dehydrate_step_written (schema : Definition_)
    (acc : list (string * ValueInput)) (entry : string * value) :
  entry_raises schema entry = false →
  dehydrate_step number_truthy fromMarkdown schema acc entry
  = Ok (match written number_truthy fromMarkdown schema entry with
        | Some e => obj_set e.1 e.2 acc
        | None => acc
        end).
Proof.
  destruct entry as [k v]. unfold entry_raises, dehydrate_step, written.
  cbn [fst snd]. destruct (get schema k) as [field|]; [|done].
  intros Hr.
  destruct (dehydrateValue number_truthy fromMarkdown field v) as [[p|]|msg] eqn:Hd;
    [by destruct v|by destruct v|].
  destruct (proj1 (dehydrateValue_raises_iff field v)) as [Ht Ha]; [eauto|].
  rewrite bool_decide_eq_true_2, Ha in Hr by done. by destruct v.
Qed.

Lemma dehydrate_loop (schema : Definition_) (data : list (string * value))
    (acc : list (string * ValueInput)) :
  Forall (λ e, entry_raises schema e = false) data →
  for_each (dehydrate_step number_truthy fromMarkdown schema) data acc
  = Ok (fold_left (λ o e, obj_set e.1 e.2 o) (omap (written number_truthy fromMarkdown schema) data)
          acc).
Proof.
  intros Hall. revert acc.
  induction Hall as [|e data He _ IH]; intros acc; [done|].
  cbn [for_each omap list_omap]. rewrite dehydrate_step_written by done.
  rewrite IH. by destruct (written number_truthy fromMarkdown schema e).
Qed.

Lemma dehydrate_loop_raises (schema : Definition_)
    (pre post : list (string * value)) (key : string) (v : value)
    (acc : list (string * ValueInput)) :
  Forall (λ e, entry_raises schema e = false) pre →
  entry_raises schema (key, v) = true →
  ∃ field message,
    get schema key = Some field
    ∧ dehydrateValue number_truthy fromMarkdown field v = Err message
    ∧ for_each (dehydrate_step number_truthy fromMarkdown schema)
        (pre ++ (key, v) :: post) acc = Err message.
Proof.
  intros Hpre Hr. revert acc.
  induction Hpre as [|e pre He _ IH]; intros acc.
  - unfold entry_raises in Hr. cbn [fst snd] in Hr.
    destruct (get schema key) as [field|] eqn:Hget; [|done].
    apply andb_true_iff in Hr as [Hr Hu].
    apply andb_true_iff in Hr as [Ht Ha].
    apply bool_decide_eq_true in Ht. apply negb_true_iff in Ha, Hu.
    destruct (proj2 (dehydrateValue_raises_iff field v)) as [msg Hmsg];
      [done|].
    exists field, msg. split; [done|]. split; [done|].
    cbn [app for_each]. unfold dehydrate_step. rewrite Hget, Hmsg.
    by destruct v.
  - destruct (IH (match written number_truthy fromMarkdown schema e with
                  | Some e' => obj_set e'.1 e'.2 acc
                  | None => acc
                  end)) as (field & msg & ? & ? & Hloop).
    exists field, msg. split; [done|]. split; [done|].
    cbn [app for_each]. by rewrite dehydrate_step_written.
Qed.

(** [dehydrate] stops on the first entry it cannot map over, and only
    there: a value that is neither [undefined] nor an array, at a key
    the schema holds with a multi-select, relation or people field.  The
    error is the one [dehydrateValue] raises.  Keys the schema does not
    hold and [undefined] values never raise. *)
Theorem dehydrate_raises (schema : Definition_)
    (data : list (string * value)) :
  (Forall (λ e, entry_raises schema e = false) data →
   ∃ properties, dehydrate number_truthy fromMarkdown schema data = Ok properties)
  ∧ (∀ pre key v post,
       data = pre ++ (key, v) :: post →
       Forall (λ e, entry_raises schema e = false) pre →
       entry_raises schema (key, v) = true →
       ∃ field message,
         get schema key = Some field
         ∧ dehydrateValue number_truthy fromMarkdown field v = Err message
         ∧ dehydrate number_truthy fromMarkdown schema data = Err message)
  ∧ (∀ key (v : @value number),
       get schema key = None ∨ v = VUndefined →
       entry_raises schema (key, v) = false).
Proof.
  split; [|split].
  - intros Hall. unfold dehydrate. rewrite dehydrate_loop by done. eauto.
  - intros pre key v post -> Hpre Hr.
    by apply dehydrate_loop_raises.
  - intros key v [Hget| ->]; unfold entry_raises; cbn [fst snd].
    + by rewrite Hget.
    + destruct (get schema key); [|done]. simpl. apply andb_false_r.
Qed.

Lemma dehydrate_Ok (schema : Definition_) (data : list (string * value))
    (properties : list (string * ValueInput)) :
  dehydrate number_truthy fromMarkdown schema data = Ok properties →
  Forall (λ e, entry_raises schema e = false) data.
Proof.
  intros Hok.
  destruct (decide (Forall (λ e, entry_raises schema e = false) data))
    as [|Hn]; [done|exfalso].
  assert (∃ pre e post,
            data = pre ++ e :: post
            ∧ Forall (λ e, entry_raises schema e = false) pre
            ∧ entry_raises schema e = true) as (pre & [k v] & post & -> & Hpre & He).
  { clear Hok. induction data as [|e data IH]; [by destruct Hn|].
    destruct (entry_raises schema e) eqn:He.
    - exists [], e, data. by repeat split.
    - destruct IH as (pre & e' & post & -> & Hpre & He').
      + intros Hall. apply Hn. by constructor.
      + exists (e :: pre), e', post. repeat split; [|done]. by constructor. }
  destruct (dehydrate_loop_raises schema pre post k v [] Hpre He)
    as (? & ? & _ & _ & Herr).
  unfold dehydrate in Hok. congruence.
Qed.

(** The properties [dehydrate] returns, for a schema none of whose
    labels is [__proto__].  Each is written under the label of its
    field, once; a label reads the payload of the last entry of [data]
    written under it, so of two fields with one label only the later
    entry is sent.  An entry is written when its key is in the schema,
    its value is not [undefined] and its field's type can be written.
    Nothing is said of the order of the properties. *)
Theorem dehydrate_record (schema : Definition_)
    (data : list (string * value))
    (properties : list (string * ValueInput)) :
  (∀ k f, (k, f) ∈ schema → label f ≠ "__proto__") →
  dehydrate number_truthy fromMarkdown schema data = Ok properties →
  NoDup properties.*1
  ∧ (∀ l p, (l, p) ∈ properties
            ↔ last (filter (λ e, e.1 = l) (omap (written number_truthy fromMarkdown schema) data))
              = Some (l, p))
  ∧ (∀ l p, (l, p) ∈ properties →
       l ≠ "__proto__"
       ∧ ∃ key v field,
           (key, v) ∈ data ∧ get schema key = Some field ∧ l = label field
           ∧ v ≠ VUndefined ∧ ¬ hydrate_only (ftype field)
           ∧ dehydrateValue number_truthy fromMarkdown field v = Ok (Some p)).
Proof.
  intros Hproto Hok. pose proof (dehydrate_Ok _ _ _ Hok) as Hall.
  unfold dehydrate in Hok. rewrite dehydrate_loop in Hok by done.
  injection Hok as <-.
  destruct (obj_sets_spec (omap (written number_truthy fromMarkdown schema) data)) as (H1 & H2 & H3).
  split; [done|]. split; [done|].
  intros l p Hin. apply H2 in Hin. apply last_Some in Hin as [l' Hin].
  assert ((l, p) ∈ filter (λ e, e.1 = l) (omap (written number_truthy fromMarkdown schema) data)) as Hw.
  { rewrite Hin. apply elem_of_app. right. left. }
  apply list_elem_of_filter in Hw as [_ Hw].
  apply list_elem_of_omap in Hw as ([k v] & Hdata & Hw).
  unfold written in Hw. cbn [fst snd] in Hw.
  destruct (get schema k) as [field|] eqn:Hget; [|done].
  destruct (is_undefined v) eqn:Hu; [done|].
  destruct (dehydrateValue number_truthy fromMarkdown field v) as [[p'|]|] eqn:Hd; [|done|done].
  simplify_eq. split.
  { apply (Hproto k). by apply get_Some_elem_of. }
  exists k, v, field.
  repeat split; try done.
  - intros ->. done.
  - intros Hho. unfold hydrate_only, dehydrateValue, ftype in *.
    destruct (kind field); try done;
      by repeat (apply elem_of_cons in Hho as [Hho|Hho]; [done|]);
         apply elem_of_nil in Hho.
Qed.
End dehydrate_facts.

(** ** A record written and read back *)


Section record_facts.
Context {number : Type}.
Variable number_truthy : number → bool.
Variable number_to_string : number → string.
Variable fromMarkdown : string → list RootContent.



End record_facts.

(** ** The value codec: types, [undefined] and the option maps *)



Section codec_more.
Context {number : Type}.
Variable number_truthy : number → bool.
Variable number_to_string : number → string.
Variable fromMarkdown : string → list RootContent.

Lemma asValue_type (input : @ValueInput number)
    (property : PropertyValue) :
  asValue input = Some property → value_type property = input_type input.
Proof.
  destruct input as [| | |[]| |[]| | | | | | |]; simpl; intros H;
    try (apply fmap_Some in H as (? & _ & ->)); try done;
    repeat case_match; by simplify_eq/=.
Qed.

(** [dehydrateValue] returns [undefined] for the eight hydrate-only
    types and for no other; a payload it returns is tagged with the type
    of the field, and a payload read back as a property value keeps its
    tag. *)
Theorem dehydrateValue_type (field : Field) (v : @value number) :
  (dehydrateValue number_truthy fromMarkdown field v = Ok None
   ↔ hydrate_only (ftype field))
  ∧ (∀ input,
       dehydrateValue number_truthy fromMarkdown field v = Ok (Some input) →
       input_type input = ftype field
       ∧ ∀ property, asValue input = Some property →
                     value_type property = ftype field).
Proof.
  split.
  - unfold hydrate_only, dehydrateValue, array_map, ftype.
    destruct (kind field) as
      [| |fmt|o|o|g| | | | | | | |e|ds md|rp up fn| | | | |pf].
    all: split;
      [first [done|by destruct (negb _)|by destruct v
             |intros _; repeat first [by left|right]]
      |intros Ht; try done;
       by repeat (apply elem_of_cons in Ht as [Ht|Ht]; [done|]);
          apply elem_of_nil in Ht].
  - intros input Hin.
    assert (input_type input = ftype field) as Ht.
    { unfold dehydrateValue, array_map, ftype in *.
      destruct (kind field); try done;
        try (destruct (negb _)); try (destruct v; try done);
        by simplify_eq. }
    split; [done|]. intros property Hp. rewrite <- Ht.
    by apply asValue_type.
Qed.


End codec_more.

(** ** The names of the options *)

Lemma wire_name_declared (vocab : list (string * string)) (key : string) :
  key ∈ vocab.*1 → wire_name vocab key ∈ vocab.*2.
Proof.
  intros ([k n] & -> & Hin)%list_elem_of_fmap. cbn [fst]. unfold wire_name.
  destruct (last (filter (λ e, e.1 = k) vocab)) as [[k' n']|] eqn:E.
  - apply last_Some in E as [l' E]. simpl.
    assert ((k', n') ∈ filter (λ e, e.1 = k) vocab) as Hin'.
    { rewrite E. apply elem_of_app. right. left. }
    apply list_elem_of_filter in Hin' as [_ Hin'].
    by apply (list_elem_of_fmap_2 snd) in Hin'.
  - apply last_None in E.
    assert ((k, n) ∈ filter (λ e, e.1 = k) vocab) as Hin'
      by by apply list_elem_of_filter.
    rewrite E in Hin'. by apply elem_of_nil in Hin'.
Qed.

Lemma toSelectOptions_names (options : SelectOptions) :
  opt_name <$> toSelectOptions (Some options) = (vocabulary options).*2
  ∧ Forall (λ o, opt_id o = "") (toSelectOptions (Some options)).
Proof.
  destruct options as [names|entries]; simpl.
  - split.
    + rewrite <- !list_fmap_compose. by apply list_fmap_ext.
    + apply Forall_fmap, Forall_true. done.
  - split.
    + rewrite <- !list_fmap_compose. apply list_fmap_ext.
      by intros i [k [n|o]] _.
    + apply Forall_fmap, Forall_true. by intros [k [n|o]].
Qed.

Section option_names.
Context {number : Type}.
Variable number_truthy : number → bool.
Variable fromMarkdown : string → list RootContent.

(** The names a select or multi-select field writes are names it
    declares.  The options [toPropertyDefinition] sends are the names of
    the field's vocabulary, in order and without ids.  A select field
    writes a declared key other than the empty string as one of these
    names, and the empty key as the [null] selection; a multi-select
    field writes every declared key as one of these names. *)
Theorem declared_option_names (field : Field) (options : SelectOptions) :
  kind field = Select (Some options)
  ∨ kind field = MultiSelect (Some options) →
  ∃ sent,
    d_body (toPropertyDefinition field) = B_options sent
    ∧ opt_name <$> sent = (vocabulary options).*2
    ∧ Forall (λ o, opt_id o = "") sent
    ∧ (∀ key : string,
         kind field = Select (Some options) →
         key ∈ (vocabulary options).*1 → key ≠ "" →
         ∃ name,
           dehydrateValue number_truthy fromMarkdown field (VString key)
           = Ok (Some (I_select (Some (VString name))))
           ∧ name ∈ opt_name <$> sent)
    ∧ (kind field = Select (Some options) →
       dehydrateValue number_truthy fromMarkdown field (VString "")
       = Ok (Some (I_select None)))
    ∧ (∀ keys : list string,
         kind field = MultiSelect (Some options) →
         Forall (λ key, key ∈ (vocabulary options).*1) keys →
         ∃ names,
           dehydrateValue number_truthy fromMarkdown field
             (VArray (VString <$> keys))
           = Ok (Some (I_multi_select (VString <$> names)))
           ∧ Forall (λ name, name ∈ opt_name <$> sent) names).
Proof.
  intros Hkind. exists (toSelectOptions (Some options)).
  destruct (toSelectOptions_names options) as [Hnames Hids].
  split; [|split; [done|split; [done|split; [|split]]]].
  - unfold toPropertyDefinition. by destruct Hkind as [-> | ->].
  - intros key Hk Hin Hne.
    exists (wire_name (vocabulary options) key). split.
    + unfold dehydrateValue. rewrite Hk. simpl.
      apply truthy_string_spec in Hne. rewrite Hne. simpl.
      by rewrite add_key_to_name_vocabulary, key_to_name_lookup.
    + rewrite Hnames. by apply wire_name_declared.
  - intros Hk. unfold dehydrateValue. by rewrite Hk.
  - intros keys Hk Hin.
    exists (wire_name (vocabulary options) <$> keys). split.
    + unfold dehydrateValue. rewrite Hk. simpl.
      rewrite translate_strings. do 4 f_equal.
      apply list_fmap_ext. intros i key _.
      by rewrite add_key_to_name_vocabulary, key_to_name_lookup.
    + rewrite Hnames. apply Forall_fmap.
      eapply Forall_impl; [done|]. intros key. apply wire_name_declared.
Qed.
End option_names.

(** ** toRichText: the spans of a string *)

(** Induction on a markdown node, with the property at hand for the
    children of a node. *)
Lemma PhrasingContent_nested_ind (P : PhrasingContent → Prop) :
  (∀ value, P (MdText value)) →
  (∀ children, Forall P children → P (MdStrong children)) →
  (∀ children, Forall P children → P (MdEmphasis children)) →
  (∀ children, Forall P children → P (MdDelete children)) →
  (∀ value, P (MdInlineCode value)) →
  (∀ url children, Forall P children → P (MdLink url children)) →
  P MdOther →
  ∀ node, P node.
Proof.
  intros Htext Hstrong Hemphasis Hdelete Hcode Hlink Hother.
  fix IH 1. intros [v|children|children|children|v|url children|].
  - apply Htext.
  - apply Hstrong.
    induction children as [|c children IHc]; constructor; [apply IH|done].
  - apply Hemphasis.
    induction children as [|c children IHc]; constructor; [apply IH|done].
  - apply Hdelete.
    induction children as [|c children IHc]; constructor; [apply IH|done].
  - apply Hcode.
  - apply Hlink.
    induction children as [|c children IHc]; constructor; [apply IH|done].
  - apply Hother.
Qed.

Lemma convertInlineNodes_nested (children : list PhrasingContent)
    (inherited : Annotations) :
  (fix go (nodes : list PhrasingContent) : list RichTextSpan :=
     match nodes with
     | [] => []
     | node :: rest => convertInlineNode node inherited ++ go rest
     end) children
  = convertInlineNodes children inherited.
Proof.
  unfold convertInlineNodes.
  induction children as [|c children IH]; [done|]. simpl. by rewrite IH.
Qed.

Lemma convertInlineNode_spans (node : PhrasingContent)
    (inherited : Annotations) :
  Forall (λ span,
            rt_content span = RT_text (plain_text span) (href span)
            ∧ underline (annotations span) = underline inherited
            ∧ color (annotations span) = color inherited)
    (convertInlineNode node inherited).
Proof.
  revert inherited.
  induction node as [v|children IH|children IH|children IH|v|url children IH|]
    using PhrasingContent_nested_ind; intros inherited; simpl;
    rewrite ?convertInlineNodes_nested; unfold convertInlineNodes;
    try (by repeat constructor).
  1-3: apply Forall_flat_map; eapply Forall_impl; [exact IH|];
       intros node Hnode; simpl;
       (eapply Forall_impl; [apply Hnode|]); by intros span.
  apply Forall_fmap, Forall_flat_map.
  eapply Forall_impl; [exact IH|]. intros node Hnode. simpl.
  eapply Forall_impl; [apply Hnode|].
  intros span (Hc & Hu & Hcol). cbv [compose]. unfold with_link.
  rewrite Hc. simpl. done.
Qed.

Section toRichText_facts.
Context {number : Type}.
Variable fromMarkdown : string → list RootContent.

(** What [toRichText] makes of a string.  It is never the empty array;
    every span is a text span whose content is its plain text and whose
    link is its [href]; and markdown neither underlines nor colours.
    [undefined] gives the empty array, and anything that is neither a
    string nor [undefined] comes back as it is, an array as the array
    it is. *)
Theorem toRichText_spans (s : string) :
  (∃ spans,
     toRichText fromMarkdown (VString s : @value number)
     = VArray (VRichText <$> spans)
     ∧ spans ≠ []
     ∧ Forall (λ span,
                 rt_content span = RT_text (plain_text span) (href span)
                 ∧ underline (annotations span) = false
                 ∧ color (annotations span) = "default") spans)
  ∧ toRichText fromMarkdown (VUndefined : @value number) = VArray []
  ∧ (∀ v : @value number,
       v ≠ VUndefined → (∀ s', v ≠ VString s') →
       toRichText fromMarkdown v = v).
Proof.
  split; [|split; [done|]].
  - exists (markdownToRichText fromMarkdown s). split; [done|].
    unfold markdownToRichText.
    set (step := λ (richTexts : list RichTextSpan) node,
                   match node with
                   | MdParagraph children =>
                       (if bool_decide (0 < length richTexts)
                        then richTexts ++ [createRichText newline None
                                             defaultAnnotations]
                        else richTexts)
                       ++ convertInlineNodes children defaultAnnotations
                   | MdOtherBlock => richTexts
                   end).
    set (ok := λ span : RichTextSpan,
                 rt_content span = RT_text (plain_text span) (href span)
                 ∧ underline (annotations span) = false
                 ∧ color (annotations span) = "default").
    assert (∀ tree acc, Forall ok acc → Forall ok (fold_left step tree acc))
      as Hfold.
    { induction tree as [|node tree IH]; intros acc Hacc; [done|].
      cbn [fold_left]. apply IH. destruct node as [children|]; [|done].
      simpl. apply Forall_app. split.
      - case_bool_decide; [|done]. apply Forall_app. split; [done|].
        by repeat constructor.
      - unfold convertInlineNodes. apply Forall_flat_map, Forall_true.
        intros node. apply (convertInlineNode_spans node defaultAnnotations). }
    specialize (Hfold (fromMarkdown s) [] (Forall_nil_2 _)).
    case_bool_decide as Hlen.
    + split; [done|]. by repeat constructor.
    + split; [|done]. intros E. by rewrite E in Hlen.
  - intros v Hu Hs. destruct v; try done. by destruct (Hs s0).
Qed.
End toRichText_facts.

(** ** extractRawValue *)

Lemma identity_vocabulary_lookup (vocab : list (string * string))
    (name : string) :
  (∀ k n, (k, n) ∈ vocab → k = n) →
  default name (fold_left (index_step vocab_name fst) vocab ∅ !! name) = name.
Proof.
  intros Hid. rewrite index_lookup, lookup_empty.
  destruct (last _) as [[k n]|] eqn:E; [|done]. simpl.
  apply last_indexed_at in E as [Hin [= ->]]. by apply Hid.
Qed.

Section extractRawValue_facts.
Context {number : Type}.
Variable number_to_string : number → string.

(** How the items of a rollup are read.  [hydrateValue] reads an array
    rollup item by item with [extractRawValue].  For a field whose
    option keys are their names (always so for options given as an
    array, or without options) the two read a property alike, with two
    exceptions: [extractRawValue] reads files, formulas and rollups as
    [undefined]; and a selection whose name is empty is read as
    [undefined] by [hydrateValue] and as the empty string by
    [extractRawValue]. *)
Theorem extractRawValue_raw (property : @PropertyValue number)
    (field : Field) :
  (∀ items,
     property = P_rollup (R_array items) →
     hydrateValue number_to_string property field
     = VArray (extractRawValue number_to_string <$> items))
  ∧ (value_type property ∈ [T_files; T_formula; T_rollup] →
     extractRawValue number_to_string property = VUndefined)
  ∧ (∀ option,
       property = P_select (Some option) ∨ property = P_status (Some option) →
       opt_name option = "" →
       hydrateValue number_to_string property field = VUndefined
       ∧ extractRawValue number_to_string property = VString "")
  ∧ (value_type property ∉ [T_files; T_formula; T_rollup] →
     (∀ option,
        property = P_select (Some option)
        ∨ property = P_status (Some option) →
        opt_name option ≠ "") →
     (∀ key name, (key, name) ∈ field_vocabulary field → key = name) →
     hydrateValue number_to_string property field
     = extractRawValue number_to_string property).
Proof.
  split; [by intros items ->|]. split; [|split].
  - intros Ht. destruct property; simpl in *; try done;
      by repeat (apply elem_of_cons in Ht as [Ht|Ht]; [done|]);
         apply elem_of_nil in Ht.
  - intros option [-> | ->] Hname; simpl; unfold selected_name; simpl;
      by rewrite Hname.
  - intros Ht Hname Hvocab. unfold field_vocabulary in Hvocab.
    destruct property as
      [| |n|[o|]| |[o|]|d| | | |u|e|ph| | | | | | | |]; simpl; try done.
    + unfold selected_name. simpl.
      assert (opt_name o ≠ "") as Hne by (apply Hname; by left).
      apply truthy_string_spec in Hne. rewrite Hne.
      destruct (kind field) as [| | |[os|]| | | | | | | | | | | | | | | | |];
        try done.
      unfold buildNameToKeyMap. rewrite add_name_to_key_vocabulary.
      by rewrite identity_vocabulary_lookup.
    + destruct (kind field) as [| | | |[os|]| | | | | | | | | | | | | | | |];
        try (by rewrite <- list_fmap_compose).
      unfold buildNameToKeyMap. rewrite add_name_to_key_vocabulary.
      f_equal. rewrite <- list_fmap_compose. apply list_fmap_ext.
      intros i o _. cbv [compose].
      by rewrite identity_vocabulary_lookup.
    + unfold selected_name. simpl.
      assert (opt_name o ≠ "") as Hne by (apply Hname; by right).
      apply truthy_string_spec in Hne. rewrite Hne.
      destruct (kind field) as [| | | | |[gs|]| | | | | | | | | | | | | | |];
        try done.
      unfold buildStatusNameToKeyMap. rewrite status_name_to_key_vocabulary.
      by rewrite identity_vocabulary_lookup.
    + exfalso. apply Ht. left.
    + exfalso. apply Ht. right. left.
    + exfalso. apply Ht. right. right. left.
Qed.
End extractRawValue_facts.

(** ** buildExpression *)








(** ** renderRichText *)

Section renderRichText_facts.
Variable renderMention : RichTextSpan → string.
Variable fromMarkdown : string → list RootContent.

Lemma render_part_unformatted (span : RichTextSpan) :
  unformatted span → render_part renderMention span = plain_text span.
Proof.
  intros [Ha Hc]. unfold render_part. rewrite Hc, Ha. simpl.
  by destruct (truthy (href span)).
Qed.

(** The markdown of unformatted text is the text.  Spans of text
    without formatting and without link render to their plain texts,
    joined, as [hydrateValue] reads them; so a string the markdown
    reader takes as plain text, turned into spans by [toRichText],
    renders to itself; and a string is rendered as it is. *)
Theorem renderRichText_plain (spans : list RichTextSpan) (s : string) :
  (Forall unformatted spans →
   renderRichText renderMention (RichSpans spans) = plain_texts spans)
  ∧ (plain_reading fromMarkdown s →
     renderRichText renderMention
       (RichSpans (markdownToRichText fromMarkdown s)) = s)
  ∧ renderRichText renderMention (RichString s) = s.
Proof.
  assert (∀ l, Forall unformatted l →
               renderRichText renderMention (RichSpans l) = plain_texts l)
    as Hplain.
  { intros l Hl. unfold renderRichText, plain_texts. f_equal.
    induction Hl as [|span l Hspan _ IH]; [done|].
    csimpl. by rewrite IH, render_part_unformatted. }
  split; [apply Hplain|]. split.
  - intros Hs. rewrite Hplain; [by apply plain_reading_text|].
    unfold markdownToRichText. destruct Hs as [Hnone|Hone].
    + assert (∀ acc : list RichTextSpan,
                fold_left
                  (λ (richTexts : list RichTextSpan) node,
                     match node with
                     | MdParagraph children =>
                         (if bool_decide (0 < length richTexts)
                          then richTexts ++ [createRichText newline None
                                               defaultAnnotations]
                          else richTexts)
                         ++ convertInlineNodes children defaultAnnotations
                     | MdOtherBlock => richTexts
                     end) (fromMarkdown s) acc = acc) as Hfold.
      { induction Hnone as [|node tree -> _ IH]; [done|].
        intros acc. apply IH. }
      rewrite Hfold. simpl. by repeat constructor.
    + rewrite Hone. simpl. by repeat constructor.
  - simpl. by destruct s.
Qed.
End renderRichText_facts.

(** ** toIconInput *)

Lemma startsWith_app (p s : string) :
  startsWith p s = true ↔ ∃ rest, s = p +:+ rest.
Proof.
  unfold startsWith. split.
  - destruct (strip_prefix p s) as [rest|] eqn:E; [|done].
    intros _. exists rest. by apply strip_prefix_Some.
  - intros [rest ->]. by rewrite strip_prefix_app.
Qed.

(** What [toIconInput] makes of its argument.  It returns [undefined]
    for [undefined], [null] and the empty string only.  An icon made
    from a string is never a file upload; when it is external its url
    starts with [http://] or [https://]; it is an emoji, the string
    itself, exactly when the string starts with none of [http://],
    [https://] and [@iconify/].  An icon already made is returned as it
    is, so converting a result again changes nothing. *)
Theorem toIconInput_icons (icon : MaybeIconInput) :
  (toIconInput icon = None
   ↔ icon = IconUndefined ∨ icon = IconNull ∨ icon = IconString "")
  ∧ (∀ s url,
       icon = IconString s → toIconInput icon = Some (IconExternal url) →
       startsWith "http://" url = true ∨ startsWith "https://" url = true)
  ∧ (∀ s emoji,
       icon = IconString s →
       toIconInput icon = Some (IconEmoji emoji)
       ↔ emoji = s ∧ s ≠ ""
         ∧ startsWith "http://" s = false
         ∧ startsWith "https://" s = false
         ∧ startsWith "@iconify/" s = false)
  ∧ (∀ s id, icon = IconString s →
             toIconInput icon ≠ Some (IconFileUpload id))
  ∧ (∀ made, toIconInput icon = Some made →
             toIconInput (IconGiven made) = Some made).
Proof.
  split; [|split; [|split; [|split]]].
  - destruct icon as [| |s|h|i]; try (cbn [toIconInput]; naive_solver).
    cbn [toIconInput]. destruct s as [|c s]; [cbn; naive_solver|].
    cbn [truthy_string negb]. split; [|naive_solver].
    intros H. exfalso.
    destruct (startsWith "http://" (String c s)
              || startsWith "https://" (String c s)); [done|].
    by destruct (strip_prefix "@iconify/" (String c s)).
  - intros s url -> H. cbn [toIconInput] in H.
    destruct (truthy_string s); [|done]. cbn [negb] in H.
    destruct (startsWith "http://" s) eqn:H1; cbn [orb] in H;
      [simplify_eq; by left|].
    destruct (startsWith "https://" s) eqn:H2;
      [simplify_eq; by right|].
    destruct (strip_prefix "@iconify/" s) as [iconName|]; simplify_eq.
    right. apply startsWith_app.
    by exists ("api.iconify.design/" +:+ iconName).
  - intros s emoji ->. cbn [toIconInput]. unfold startsWith at 5.
    destruct (truthy_string s) eqn:Hs; cbn [negb].
    + apply truthy_string_spec in Hs.
      destruct (startsWith "http://" s); cbn [orb].
      { split; [by intros [=]|by intros (_ & _ & [=] & _)]. }
      destruct (startsWith "https://" s).
      { split; [by intros [=]|by intros (_ & _ & _ & [=] & _)]. }
      destruct (strip_prefix "@iconify/" s).
      { split; [by intros [=]|by intros (_ & _ & _ & _ & [=])]. }
      split; [by intros [= <-]|by intros (-> & _)].
    + destruct s; [|done]. split; [by intros [=]|by intros (_ & ? & _)].
  - intros s id -> H. cbn [toIconInput] in H.
    destruct (truthy_string s); [|done]. cbn [negb] in H.
    destruct (startsWith "http://" s || startsWith "https://" s); [done|].
    by destruct (strip_prefix "@iconify/" s).
  - done.
Qed.

(** ** The further theorems at concrete inputs *)

Lemma diffSchema_conservation_witness :
  NoDup remote_schema.*1
  ∧ (length (added_of (diffSchema remote_schema local_schema))
     + length remote_schema
     = length (removed_of (diffSchema remote_schema local_schema))
       + length local_schema)%nat.
Proof.
  assert (NoDup remote_schema.*1) as H.
  { apply (bool_decide_unpack _). vm_compute. exact I. }
  split; [exact H|].
  exact (proj1 (diffSchema_conservation remote_schema local_schema H)).
Defined.

Lemma toPropertiesDefinition_labels_witness :
  NoDup remote_schema.*1
  ∧ (is_Some (toPropertiesDefinition remote_schema !! "Priority")
     ↔ "Priority" ∈ labels_of remote_schema ∧ "Priority" ≠ "__proto__").
Proof.
  assert (NoDup remote_schema.*1) as H.
  { apply (bool_decide_unpack _). vm_compute. exact I. }
  split; [exact H|].
  exact (proj1 (proj2 (proj2 (toPropertiesDefinition_labels remote_schema H)))
           "Priority").
Defined.

Lemma applySchemaChanges_payload_witness :
  applySchemaChanges renamed_schema [DModified renamed_diff] merge
  = Ok {[ "Old Name" :=
            Some {| d_type := T_title; d_id := Some "abc";
                    d_name := Some "New Name"; d_body := B_empty |} ]}
  ∧ ((∃ k f field,
        DAdded k f ∈ [DModified renamed_diff]
        ∧ get renamed_schema k = Some field
        ∧ "Old Name" = label field
        ∧ {| d_type := T_title; d_id := Some "abc";
             d_name := Some "New Name"; d_body := B_empty |}
          = toPropertyDefinition field
        ∧ T_title = ftype field)
     ∨ (∃ m field,
          DModified m ∈ [DModified renamed_diff]
          ∧ get renamed_schema (m_key m) = Some field
          ∧ written_label renamed_schema m = Some "Old Name"
          ∧ {| d_type := T_title; d_id := Some "abc";
               d_name := Some "New Name"; d_body := B_empty |}
            = modified_definition field m
          ∧ T_title = ftype field)).
Proof.
  assert (applySchemaChanges renamed_schema [DModified renamed_diff] merge
          = Ok {[ "Old Name" :=
                    Some {| d_type := T_title; d_id := Some "abc";
                            d_name := Some "New Name"; d_body := B_empty |} ]})
    as H by by vm_compute.
  split; [exact H|].
  exact (proj2 (applySchemaChanges_payload _ _ _ _ H) "Old Name"
           {| d_type := T_title; d_id := Some "abc";
              d_name := Some "New Name"; d_body := B_empty |}
           (lookup_singleton_eq _ _)).
Defined.

Lemma dehydrate_record_witness :
  (∀ k f, (k, f) ∈ contact_schema → label f ≠ "__proto__")
  ∧ dehydrate int_truthy plain_markdown contact_schema contact_record
    = Ok [("Name", I_title (VArray [VRichText (plain_span "John")]));
          ("Email", I_email (VString "john@x.com"))]
  ∧ NoDup ([("Name", I_title (VArray [VRichText (plain_span "John")]));
            ("Email", I_email (VString "john@x.com" : @value Z))].*1).
Proof.
  assert (∀ k f, (k, f) ∈ contact_schema → label f ≠ "__proto__") as Hp.
  { intros k f Hin. unfold contact_schema in Hin.
    apply elem_of_cons in Hin as [[= -> ->]|Hin]; [done|].
    by apply list_elem_of_singleton in Hin as [= -> ->]. }
  assert (dehydrate int_truthy plain_markdown contact_schema contact_record
          = Ok [("Name", I_title (VArray [VRichText (plain_span "John")]));
                ("Email", I_email (VString "john@x.com"))])
    as H by by vm_compute.
  split; [exact Hp|]. split; [exact H|].
  exact (proj1 (dehydrate_record int_truthy plain_markdown _ _ _ Hp H)).
Defined.


Lemma declared_option_names_witness :
  (kind priority = Select (Some priority_options)
   ∨ kind priority = MultiSelect (Some priority_options))
  ∧ ∃ sent,
      d_body (toPropertyDefinition priority) = B_options sent
      ∧ opt_name <$> sent = (vocabulary priority_options).*2.
Proof.
  assert (kind priority = Select (Some priority_options)
          ∨ kind priority = MultiSelect (Some priority_options)) as H
    by (left; reflexivity).
  split; [exact H|].
  destruct (declared_option_names (number := Z) int_truthy plain_markdown
              priority priority_options H) as (sent & Hb & Hn & _).
  exists sent. split; [exact Hb|exact Hn].
Defined.

Lemma contact_schema_covered : covered contact_remote contact_schema.
Proof.
  intros key field Hin. unfold contact_schema in Hin.
  apply elem_of_cons in Hin as [[= -> ->]|Hin].
  - split; [done|]. eexists. split; [left|done].
  - apply list_elem_of_singleton in Hin as [= -> ->].
    split; [done|]. eexists. split; [right; left|done].
Defined.

Lemma diffSchema_covered_witness :
  NoDup contact_remote.*1 ∧ NoDup contact_schema.*1
  ∧ covered contact_remote contact_schema
  ∧ diffSchema contact_remote contact_schema
    = (λ e, DRemoved e.1 e.2) <$> remote_only contact_remote contact_schema.
Proof.
  assert (NoDup contact_remote.*1) as H1.
  { apply (bool_decide_unpack _). vm_compute. exact I. }
  assert (NoDup contact_schema.*1) as H2.
  { apply (bool_decide_unpack _). vm_compute. exact I. }
  split; [exact H1|]. split; [exact H2|].
  split; [exact contact_schema_covered|].
  exact (proj1 (diffSchema_covered contact_remote contact_schema H1 H2
                  contact_schema_covered)).
Defined.

(** The covered contacts differ from the remote by its priority alone. *)
Lemma diffSchema_covered_scenario :
  diffSchema contact_remote contact_schema
  = [DRemoved "priority" (select "Priority" (Some "p1"))].
Proof. by vm_compute. Qed.

